(** * A growable array over raw storage: [RawMemory<T>] and [Vector<T>]

    Shallow embedding of [advanced-vector/vector.h].

    - A buffer is a list of slots; a slot is either raw (uninitialised) or
      holds a live object.  The buffer with no slot at all is the null
      pointer, or a block too small for one element.
    - [Allocate(n)] asks [operator new] for [n * sizeof(T)] bytes, a
      product taken in [size_t]: the block it gets has room for as many
      elements as that many bytes hold, which is fewer than [n] when the
      product wraps.
    - Iterators and pointers into a buffer are offsets from its start.
    - [size_t] is an unsigned type with [SIZE_MAX + 1] values; arithmetic
      on it wraps.
    - The element type's special member functions may throw and may read
      and write state of their own (static counters and the like); they
      are the fields of [ElemOps].  Every call that completes is recorded
      in a trace.
    - A method returns [Normal], [Throws] (with the state the objects are
      left in) or [Undefined] when it accesses a slot it must not. *)

From stdpp Require Import base option list gmap.

(** ** Outcomes *)

Inductive exn : Type :=
  | bad_alloc
  | thrown (code : nat).

Inductive result (R S : Type) : Type :=
  | Normal (r : R) (s : S)
  | Throws (e : exn) (s : S)
  | Undefined.
Arguments Normal {R S} r s.
Arguments Throws {R S} e s.
Arguments Undefined {R S}.

Section vector_h.

Context {T : Type}.
(** State the element type's operations and the memory system can see. *)
Context {W : Type}.
(** Largest value of [size_t]. *)
Variable SIZE_MAX : nat.

Definition wrap (n : nat) : nat := n mod S SIZE_MAX.
(** [a - b] in [size_t], for [a], [b] already in range. *)
Definition wrap_sub (a b : nat) : nat := wrap (a + S SIZE_MAX - b).

(** ** The element type *)

Record ElemOps : Type := {
  (** [T()] *)
  default_ctor : W → (exn + T) * W;
  (** [T(const T&)] *)
  copy_ctor : T → W → (exn + T) * W;
  (** [T(T&&)]: the object built, and what is left in the source. *)
  move_ctor : T → W → (exn + T) * T * W;
  (** [dst = src]: what [dst] holds afterwards. *)
  copy_assign : T → T → W → option exn * T * W;
  (** [dst = std::move(src)]: what [dst] and [src] hold afterwards. *)
  move_assign : T → T → W → option exn * T * T * W;
  (** [~T()] *)
  dtor : T → W → W;
  is_nothrow_move_constructible : bool;
  is_copy_constructible : bool;
  (** [sizeof(T)], at least 1. *)
  sizeof_T : positive;
  (** [operator new] for a block of so many bytes: granted or not. *)
  operator_new : nat → W → bool * W;
}.

Variable ops : ElemOps.

(** [sizeof(T)] as a number of bytes. *)
Definition sizeof : nat := Pos.to_nat (sizeof_T ops).

Inductive event : Type :=
  | Constructed (x : T)
  | CopyConstructed (x : T)
  | MoveConstructed (x : T)
  | CopyAssigned (x : T)
  | MoveAssigned (x : T)
  | Destroyed (x : T).

(** The world: that state, and the trace of completed calls. *)
Local Abbreviation world := (W * list event)%type.

Definition log (ev : event) (u : W) (w : world) : world := (u, w.2 ++ [ev]).

(** ** Slots *)

(** A slot: raw, or holding a live object. *)
Local Abbreviation slot := (option T).

(** The live object in slot [i], if there is one. *)
Definition live (b : list slot) (i : nat) : option T := mjoin (b !! i).

Definition in_range (b : list slot) (i : nat) : bool := bool_decide (i < length b).

(** ** Algorithms of <memory> and <algorithm>, on slots *)

(** Placement new [new (b + i) T(args...)], [ctor] running the
    constructor on the forwarded arguments. *)
Definition construct_at (b : list slot) (i : nat) (ctor : W → (exn + T) * W)
    (w : world) : result unit (list slot * world) :=
  if in_range b i then
    match ctor w.1 with
    | (inr x, u) => Normal () (<[i := Some x]> b, log (Constructed x) u w)
    | (inl e, u) => Throws e (b, (u, w.2))
    end
  else Undefined.

Definition destroy_at (b : list slot) (i : nat) (w : world)
    : result unit (list slot * world) :=
  match live b i with
  | Some x => Normal () (<[i := None]> b, log (Destroyed x) (dtor ops x w.1) w)
  | None => Undefined
  end.

Fixpoint destroy_n (b : list slot) (first n : nat) (w : world)
    : result unit (list slot * world) :=
  match n with
  | 0 => Normal () (b, w)
  | S n' =>
      match destroy_at b first w with
      | Normal _ (b', w') => destroy_n b' (S first) n' w'
      | other => other
      end
  end.

(** The handler of the [uninitialized_*] algorithms: destroy what was
    built, [d_first, current), and rethrow. *)
Definition rollback {R : Type} (e : exn) (dst : list slot)
    (d_first current : nat) (w : world) : result R (list slot * world) :=
  match destroy_n dst d_first (current - d_first) w with
  | Normal _ s => Throws e s
  | Throws e' s => Throws e' s
  | Undefined => Undefined
  end.

Fixpoint uninitialized_copy_loop (src : list slot) (first count : nat)
    (dst : list slot) (d_first current : nat) (w : world)
    : result nat (list slot * world) :=
  match count with
  | 0 => Normal current (dst, w)
  | S count' =>
      if in_range dst current then
        match live src first with
        | Some x =>
            match copy_ctor ops x w.1 with
            | (inr y, u) =>
                uninitialized_copy_loop src (S first) count'
                  (<[current := Some y]> dst) d_first (S current)
                  (log (CopyConstructed y) u w)
            | (inl e, u) => rollback e dst d_first current (u, w.2)
            end
        | None => Undefined
        end
      else Undefined
  end.

Definition uninitialized_copy_n (src : list slot) (first count : nat)
    (dst : list slot) (d_first : nat) (w : world)
    : result nat (list slot * world) :=
  uninitialized_copy_loop src first count dst d_first d_first w.

Fixpoint uninitialized_move_loop (src : list slot) (first count : nat)
    (dst : list slot) (d_first current : nat) (w : world)
    : result nat (list slot * list slot * world) :=
  match count with
  | 0 => Normal current (src, dst, w)
  | S count' =>
      if in_range dst current then
        match live src first with
        | Some x =>
            match move_ctor ops x w.1 with
            | (inr y, x', u) =>
                uninitialized_move_loop (<[first := Some x']> src) (S first)
                  count' (<[current := Some y]> dst) d_first (S current)
                  (log (MoveConstructed y) u w)
            | (inl e, x', u) =>
                match rollback (R := unit) e dst d_first current (u, w.2) with
                | Normal _ (dst', w') | Throws _ (dst', w') =>
                    Throws e (<[first := Some x']> src, dst', w')
                | Undefined => Undefined
                end
            end
        | None => Undefined
        end
      else Undefined
  end.

Definition uninitialized_move_n (src : list slot) (first count : nat)
    (dst : list slot) (d_first : nat) (w : world)
    : result nat (list slot * list slot * world) :=
  uninitialized_move_loop src first count dst d_first d_first w.

Fixpoint uninitialized_value_construct_loop (b : list slot)
    (first current count : nat) (w : world)
    : result unit (list slot * world) :=
  match count with
  | 0 => Normal () (b, w)
  | S count' =>
      if in_range b current then
        match default_ctor ops w.1 with
        | (inr y, u) =>
            uninitialized_value_construct_loop (<[current := Some y]> b)
              first (S current) count' (log (Constructed y) u w)
        | (inl e, u) => rollback e b first current (u, w.2)
        end
      else Undefined
  end.

Definition uninitialized_value_construct_n (b : list slot) (first count : nat)
    (w : world) : result unit (list slot * world) :=
  uninitialized_value_construct_loop b first first count w.

(** [std::copy_n(first, count, result)]: copy assignment, slot by slot,
    forwards. *)
Fixpoint copy_n (src : list slot) (first count : nat) (dst : list slot)
    (res : nat) (w : world) : result nat (list slot * world) :=
  match count with
  | 0 => Normal res (dst, w)
  | S count' =>
      match live dst res, live src first with
      | Some d, Some x =>
          match copy_assign ops d x w.1 with
          | (None, d', u) =>
              copy_n src (S first) count' (<[res := Some d']> dst) (S res)
                (log (CopyAssigned d') u w)
          | (Some e, d', u) => Throws e (<[res := Some d']> dst, (u, w.2))
          end
      | _, _ => Undefined
      end
  end.

(** [b[to] = std::move(b[from])] inside one buffer. *)
Definition move_assign_slot (b : list slot) (to from : nat) (w : world)
    : result unit (list slot * world) :=
  match live b to, live b from with
  | Some d, Some x =>
      match move_assign ops d x w.1 with
      | (None, d', x', u) =>
          Normal () (<[to := Some d']> (<[from := Some x']> b),
                     log (MoveAssigned d') u w)
      | (Some e, d', x', u) =>
          Throws e (<[to := Some d']> (<[from := Some x']> b), (u, w.2))
      end
  | _, _ => Undefined
  end.

(** [std::move(first, first + count, d_first)] inside one buffer. *)
Fixpoint move_range (b : list slot) (first count d_first : nat) (w : world)
    : result unit (list slot * world) :=
  match count with
  | 0 => Normal () (b, w)
  | S count' =>
      match move_assign_slot b d_first first w with
      | Normal _ (b', w') => move_range b' (S first) count' (S d_first) w'
      | other => other
      end
  end.

(** [std::move_backward(last - count, last, d_last)] inside one buffer. *)
Fixpoint move_backward (b : list slot) (count last d_last : nat) (w : world)
    : result unit (list slot * world) :=
  match count with
  | 0 => Normal () (b, w)
  | S count' =>
      match last, d_last with
      | S last', S d_last' =>
          match move_assign_slot b d_last' last' w with
          | Normal _ (b', w') => move_backward b' count' last' d_last' w'
          | other => other
          end
      | _, _ => Undefined
      end
  end.

(** ** RawMemory *)

Record RawMemory : Type := mkRawMemory {
  buffer_ : list slot;
  capacity_ : nat;
}.

(** [RawMemory() = default]: [buffer_ = nullptr], [capacity_ = 0]. *)
Definition RawMemory_default : RawMemory := mkRawMemory [] 0.

(** [Allocate(n)]: the null pointer for [n = 0], otherwise the block
    [operator new(n * sizeof(T))] gives, the product being one of
    [size_t]; the block has the slots its bytes make up. *)
Definition Allocate (n : nat) (w : world) : result (list slot) world :=
  if bool_decide (n ≠ 0) then
    let bytes := wrap (n * sizeof) in
    match operator_new ops bytes w.1 with
    | (true, u) => Normal (replicate (bytes `div` sizeof) None) (u, w.2)
    | (false, u) => Throws bad_alloc (u, w.2)
    end
  else Normal [] w.

(** [explicit RawMemory(size_t capacity)] *)
Definition RawMemory_sized (capacity : nat) (w : world)
    : result RawMemory world :=
  match Allocate capacity w with
  | Normal buf w' => Normal (mkRawMemory buf capacity) w'
  | Throws e w' => Throws e w'
  | Undefined => Undefined
  end.

(** [RawMemory& operator=(RawMemory&& rhs)]: the pair is [*this] and
    [rhs] afterwards. *)
Definition RawMemory_move_assign (this rhs : RawMemory)
    : RawMemory * RawMemory :=
  let this := mkRawMemory (buffer_ rhs) (capacity_ this) in
  let rhs := mkRawMemory [] (capacity_ rhs) in
  let this := mkRawMemory (buffer_ this) (capacity_ rhs) in
  (this, rhs).

(** [RawMemory(RawMemory&& other)]: the new object and [other]. *)
Definition RawMemory_move (other : RawMemory) : RawMemory * RawMemory :=
  RawMemory_move_assign RawMemory_default other.

Definition RawMemory_Swap (this other : RawMemory) : RawMemory * RawMemory :=
  (mkRawMemory (buffer_ other) (capacity_ other),
   mkRawMemory (buffer_ this) (capacity_ this)).

Definition RawMemory_Capacity (this : RawMemory) : nat := capacity_ this.

(** ** Vector *)

Record Vector : Type := mkVector {
  data_ : RawMemory;
  size_ : nat;
}.

Definition with_buffer (v : Vector) (b : list slot) : Vector :=
  mkVector (mkRawMemory b (capacity_ (data_ v))) (size_ v).

Definition with_size (v : Vector) (n : nat) : Vector :=
  mkVector (data_ v) n.

Definition Capacity (v : Vector) : nat := RawMemory_Capacity (data_ v).
Definition Size (v : Vector) : nat := size_ v.

(** [Vector() = default] *)
Definition Vector_default : Vector := mkVector RawMemory_default 0.

(** [explicit Vector(size_t size)] *)
Definition Vector_sized (size : nat) (w : world) : result Vector world :=
  match RawMemory_sized size w with
  | Normal data w1 =>
      match uninitialized_value_construct_n (buffer_ data) 0 size w1 with
      | Normal _ (b, w2) => Normal (mkVector (mkRawMemory b (capacity_ data)) size) w2
      | Throws e (_, w2) => Throws e w2
      | Undefined => Undefined
      end
  | Throws e w1 => Throws e w1
  | Undefined => Undefined
  end.

(** [Vector(const Vector& other)] *)
Definition Vector_copy (other : Vector) (w : world) : result Vector world :=
  match RawMemory_sized (size_ other) w with
  | Normal data w1 =>
      match uninitialized_copy_n (buffer_ (data_ other)) 0 (size_ other)
              (buffer_ data) 0 w1 with
      | Normal _ (b, w2) =>
          Normal (mkVector (mkRawMemory b (capacity_ data)) (size_ other)) w2
      | Throws e (_, w2) => Throws e w2
      | Undefined => Undefined
      end
  | Throws e w1 => Throws e w1
  | Undefined => Undefined
  end.

(** [Vector(Vector&& other) noexcept]: the new vector and [other]. *)
Definition Vector_move (other : Vector) : Vector * Vector :=
  let '(data, other_data) := RawMemory_move (data_ other) in
  (mkVector data (size_ other), mkVector other_data 0).

(** [~Vector()]: the elements are destroyed, then the storage released. *)
Definition Vector_destroy (v : Vector) (w : world) : result unit world :=
  match destroy_n (buffer_ (data_ v)) 0 (size_ v) w with
  | Normal _ (_, w') => Normal () w'
  | Throws e (_, w') => Throws e w'
  | Undefined => Undefined
  end.

Definition Swap (this other : Vector) : Vector * Vector :=
  let '(d, od) := RawMemory_Swap (data_ this) (data_ other) in
  (mkVector d (size_ other), mkVector od (size_ this)).

(** [operator[]]: the element read through the reference returned. *)
Definition subscript (v : Vector) (index : nat) : option T :=
  if bool_decide (index < size_ v) then live (buffer_ (data_ v)) index
  else None.

(** The elements in [begin(), end()), in order. *)
Definition elements (v : Vector) : list T :=
  omap id (take (size_ v) (buffer_ (data_ v))).

Definition relocate_by_move : bool :=
  is_nothrow_move_constructible ops || negb (is_copy_constructible ops).

(** [ReallocateData(new_data)]: [*this] and [new_data] afterwards. *)
Definition ReallocateData (v : Vector) (new_data : RawMemory) (w : world)
    : result unit (Vector * RawMemory * world) :=
  let relocated :=
    if relocate_by_move then
      uninitialized_move_n (buffer_ (data_ v)) 0 (size_ v)
        (buffer_ new_data) 0 w
    else
      match uninitialized_copy_n (buffer_ (data_ v)) 0 (size_ v)
              (buffer_ new_data) 0 w with
      | Normal r (nb, w') => Normal r (buffer_ (data_ v), nb, w')
      | Throws e (nb, w') => Throws e (buffer_ (data_ v), nb, w')
      | Undefined => Undefined
      end in
  match relocated with
  | Normal _ (b, nb, w1) =>
      match destroy_n b 0 (size_ v) w1 with
      | Normal _ (b', w2) =>
          let '(d, nd) :=
            RawMemory_Swap (mkRawMemory b' (capacity_ (data_ v)))
              (mkRawMemory nb (capacity_ new_data)) in
          Normal () (mkVector d (size_ v), nd, w2)
      | Throws e (b', w2) =>
          Throws e (with_buffer v b', mkRawMemory nb (capacity_ new_data), w2)
      | Undefined => Undefined
      end
  | Throws e (b, nb, w1) =>
      Throws e (with_buffer v b, mkRawMemory nb (capacity_ new_data), w1)
  | Undefined => Undefined
  end.

(** [ReallocatePartial(from, count, to)]: the source and target buffers
    afterwards. *)
Definition ReallocatePartial (src : list slot) (from count : nat)
    (dst : list slot) (to : nat) (w : world)
    : result unit (list slot * list slot * world) :=
  if relocate_by_move then
    match uninitialized_move_n src from count dst to w with
    | Normal _ s => Normal () s
    | Throws e s => Throws e s
    | Undefined => Undefined
    end
  else
    match uninitialized_copy_n src from count dst to w with
    | Normal _ (dst', w') => Normal () (src, dst', w')
    | Throws e (dst', w') => Throws e (src, dst', w')
    | Undefined => Undefined
    end.

(** A local object of type [T] going out of scope. *)
Definition destroy_local (x : T) (w : world) : world :=
  log (Destroyed x) (dtor ops x w.1) w.

(** [void PopBack() noexcept] *)
Definition PopBack (v : Vector) (w : world) : result unit (Vector * world) :=
  match size_ v with
  | 0 => Undefined
  | S last =>
      match destroy_at (buffer_ (data_ v)) last w with
      | Normal _ (b, w') =>
          Normal () (with_size (with_buffer v b) (wrap_sub (size_ v) 1), w')
      | Throws e (b, w') => Throws e (with_buffer v b, w')
      | Undefined => Undefined
      end
  end.

(** [T& EmplaceBack(Args&&... args)]; the reference returned is given as
    the index of the slot it refers to. *)
Definition EmplaceBack (ctor : W → (exn + T) * W) (v : Vector) (w : world)
    : result nat (Vector * world) :=
  let finish (v : Vector) (w : world) :=
    let v := with_size v (wrap (size_ v + 1)) in
    let index := wrap_sub (size_ v) 1 in
    if bool_decide (index < capacity_ (data_ v)) then Normal index (v, w)
    else Undefined in
  if bool_decide (size_ v < Capacity v) then
    match construct_at (buffer_ (data_ v)) (size_ v) ctor w with
    | Normal _ (b, w1) => finish (with_buffer v b) w1
    | Throws e (_, w1) => Throws e (v, w1)
    | Undefined => Undefined
    end
  else
    let new_capacity :=
      if bool_decide (size_ v = 0) then 1 else wrap (Capacity v * 2) in
    match RawMemory_sized new_capacity w with
    | Normal new_data w1 =>
        match construct_at (buffer_ new_data) (size_ v) ctor w1 with
        | Normal _ (nb, w2) =>
            match ReallocateData v (mkRawMemory nb (capacity_ new_data)) w2 with
            | Normal _ (v', _, w3) => finish v' w3
            | Throws e (v', _, w3) => Throws e (v', w3)
            | Undefined => Undefined
            end
        | Throws e (_, w2) => Throws e (v, w2)
        | Undefined => Undefined
        end
    | Throws e w1 => Throws e (v, w1)
    | Undefined => Undefined
    end.

(** [new (b + to) T(std::move(b[from]))] inside one buffer. *)
Definition move_construct_slot (b : list slot) (to from : nat) (w : world)
    : result unit (list slot * world) :=
  if in_range b to then
    match live b from with
    | Some x =>
        match move_ctor ops x w.1 with
        | (inr y, x', u) =>
            Normal () (<[to := Some y]> (<[from := Some x']> b),
                       log (MoveConstructed y) u w)
        | (inl e, x', u) => Throws e (<[from := Some x']> b, (u, w.2))
        end
    | None => Undefined
    end
  else Undefined.

(** [b[to] = std::move(copy)] for a local [copy]; the triple is the
    buffer, [copy] and the world afterwards. *)
Definition move_assign_from_local (b : list slot) (to : nat) (copy : T)
    (w : world) : result unit (list slot * T * world) :=
  match live b to with
  | Some d =>
      match move_assign ops d copy w.1 with
      | (None, d', copy', u) =>
          Normal () (<[to := Some d']> b, copy', log (MoveAssigned d') u w)
      | (Some e, d', copy', u) =>
          Throws e (<[to := Some d']> b, copy', (u, w.2))
      end
  | None => Undefined
  end.

(** [iterator Emplace(const_iterator pos, Args&&... args)] *)
Definition Emplace (pos : nat) (ctor : W → (exn + T) * W) (v : Vector)
    (w : world) : result nat (Vector * world) :=
  if bool_decide (pos = size_ v) then EmplaceBack ctor v w
  else if bool_decide (size_ v < Capacity v) then
    let pos_index := pos in
    match ctor w.1 with
    | (inr copy, u) =>
        let w1 := log (Constructed copy) u w in
        match size_ v with
        | 0 => Undefined
        | S last =>
            match move_construct_slot (buffer_ (data_ v)) (size_ v) last w1 with
            | Normal _ (b1, w2) =>
                if bool_decide (pos_index ≤ last) then
                  match move_backward b1 (last - pos_index) last (size_ v) w2 with
                  | Normal _ (b2, w3) =>
                      if bool_decide (pos_index < capacity_ (data_ v)) then
                        match move_assign_from_local b2 pos_index copy w3 with
                        | Normal _ (b3, copy', w4) =>
                            Normal pos_index
                              (with_size (with_buffer v b3) (wrap (size_ v + 1)),
                               destroy_local copy' w4)
                        | Throws e (b3, copy', w4) =>
                            Throws e (with_buffer v b3, destroy_local copy' w4)
                        | Undefined => Undefined
                        end
                      else Undefined
                  | Throws e (b2, w3) =>
                      Throws e (with_buffer v b2, destroy_local copy w3)
                  | Undefined => Undefined
                  end
                else Undefined
            | Throws e (b1, w2) =>
                Throws e (with_buffer v b1, destroy_local copy w2)
            | Undefined => Undefined
            end
        end
    | (inl e, u) => Throws e (v, (u, w.2))
    end
  else
    let new_capacity :=
      if bool_decide (size_ v = 0) then 1 else wrap (Capacity v * 2) in
    match RawMemory_sized new_capacity w with
    | Normal new_data w1 =>
        let pos_index := pos in
        match construct_at (buffer_ new_data) pos_index ctor w1 with
        | Normal _ (nb, w2) =>
            match ReallocatePartial (buffer_ (data_ v)) 0 pos_index nb 0 w2 with
            | Normal _ (b1, nb1, w3) =>
                match ReallocatePartial b1 pos_index
                        (wrap_sub (size_ v) pos_index) nb1 (pos_index + 1) w3 with
                | Normal _ (b2, nb2, w4) =>
                    match destroy_n b2 0 (size_ v) w4 with
                    | Normal _ (b3, w5) =>
                        let '(d, _) :=
                          RawMemory_Swap (mkRawMemory b3 (capacity_ (data_ v)))
                            (mkRawMemory nb2 (capacity_ new_data)) in
                        Normal pos_index
                          (mkVector d (wrap (size_ v + 1)), w5)
                    | Throws e (b3, w5) => Throws e (with_buffer v b3, w5)
                    | Undefined => Undefined
                    end
                | Throws e (b2, nb2, w4) =>
                    match destroy_n nb2 0 (wrap (pos_index + 1)) w4 with
                    | Normal _ (_, w5) | Throws _ (_, w5) =>
                        Throws e (with_buffer v b2, w5)
                    | Undefined => Undefined
                    end
                | Undefined => Undefined
                end
            | Throws e (b1, nb1, w3) =>
                if bool_decide (pos_index < capacity_ new_data) then
                  match destroy_at nb1 pos_index w3 with
                  | Normal _ (_, w4) | Throws _ (_, w4) =>
                      Throws e (with_buffer v b1, w4)
                  | Undefined => Undefined
                  end
                else Undefined
            | Undefined => Undefined
            end
        | Throws e (_, w2) => Throws e (v, w2)
        | Undefined => Undefined
        end
    | Throws e w1 => Throws e (v, w1)
    | Undefined => Undefined
    end.

(** [iterator Erase(const_iterator pos)] *)
Definition Erase (pos : nat) (v : Vector) (w : world)
    : result nat (Vector * world) :=
  let pos_index := pos in
  if bool_decide (pos_index + 1 ≤ size_ v) then
    match move_range (buffer_ (data_ v)) (pos_index + 1)
            (size_ v - (pos_index + 1)) pos_index w with
    | Normal _ (b1, w1) =>
        match size_ v with
        | 0 => Undefined
        | S last =>
            match destroy_at b1 last w1 with
            | Normal _ (b2, w2) =>
                Normal pos_index
                  (with_size (with_buffer v b2) (wrap_sub (size_ v) 1), w2)
            | Throws e (b2, w2) => Throws e (with_buffer v b2, w2)
            | Undefined => Undefined
            end
        end
    | Throws e (b1, w1) => Throws e (with_buffer v b1, w1)
    | Undefined => Undefined
    end
  else Undefined.

(** The constructor calls [T(value)] for a [const T&] and a [T&&]
    argument. *)
Definition by_copy (value : T) : W → (exn + T) * W := copy_ctor ops value.
Definition by_move (value : T) : W → (exn + T) * W :=
  λ u, let '(r, _, u') := move_ctor ops value u in (r, u').

(** [iterator Insert(const_iterator pos, const T& value)] *)
Definition Insert (pos : nat) (value : T) (v : Vector) (w : world)
    : result nat (Vector * world) :=
  Emplace pos (by_copy value) v w.

(** [iterator Insert(const_iterator pos, T&& value)] *)
Definition Insert_rvalue (pos : nat) (value : T) (v : Vector) (w : world)
    : result nat (Vector * world) :=
  Emplace pos (by_move value) v w.

Definition discard {R S : Type} (r : result R S) : result unit S :=
  match r with
  | Normal _ s => Normal () s
  | Throws e s => Throws e s
  | Undefined => Undefined
  end.

(** [void PushBack(T&& value)] *)
Definition PushBack_rvalue (value : T) (v : Vector) (w : world)
    : result unit (Vector * world) :=
  discard (EmplaceBack (by_move value) v w).

(** [void PushBack(const T& value)] *)
Definition PushBack (value : T) (v : Vector) (w : world)
    : result unit (Vector * world) :=
  discard (EmplaceBack (by_copy value) v w).

(** [void Reserve(size_t new_capacity)] *)
Definition Reserve (new_capacity : nat) (v : Vector) (w : world)
    : result unit (Vector * world) :=
  if bool_decide (new_capacity ≤ Capacity v) then Normal () (v, w)
  else
    match RawMemory_sized new_capacity w with
    | Normal new_data w1 =>
        match ReallocateData v new_data w1 with
        | Normal _ (v', _, w2) => Normal () (v', w2)
        | Throws e (v', _, w2) => Throws e (v', w2)
        | Undefined => Undefined
        end
    | Throws e w1 => Throws e (v, w1)
    | Undefined => Undefined
    end.

(** [void Resize(size_t new_size)] *)
Definition Resize (new_size : nat) (v : Vector) (w : world)
    : result unit (Vector * world) :=
  if bool_decide (new_size = size_ v) then Normal () (v, w)
  else if bool_decide (new_size < size_ v) then
    match destroy_n (buffer_ (data_ v)) new_size (size_ v - new_size) w with
    | Normal _ (b, w1) => Normal () (with_size (with_buffer v b) new_size, w1)
    | Throws e (b, w1) => Throws e (with_buffer v b, w1)
    | Undefined => Undefined
    end
  else
    match Reserve new_size v w with
    | Normal _ (v1, w1) =>
        match uninitialized_value_construct_n (buffer_ (data_ v1)) (size_ v1)
                (new_size - size_ v1) w1 with
        | Normal _ (b, w2) =>
            Normal () (with_size (with_buffer v1 b) new_size, w2)
        | Throws e (b, w2) => Throws e (with_buffer v1 b, w2)
        | Undefined => Undefined
        end
    | other => other
    end.

(** The body of [operator=(const Vector& rhs)] for [this != &rhs]. *)
Definition assign_from (this rhs : Vector) (w : world)
    : result unit (Vector * world) :=
  if bool_decide (capacity_ (data_ this) < size_ rhs) then
    match Vector_copy rhs w with
    | Normal rhs_copy w1 =>
        let '(this', rhs_copy') := Swap this rhs_copy in
        match Vector_destroy rhs_copy' w1 with
        | Normal _ w2 => Normal () (this', w2)
        | Throws e w2 => Throws e (this', w2)
        | Undefined => Undefined
        end
    | Throws e w1 => Throws e (this, w1)
    | Undefined => Undefined
    end
  else if bool_decide (size_ rhs < size_ this) then
    match copy_n (buffer_ (data_ rhs)) 0 (size_ rhs)
            (buffer_ (data_ this)) 0 w with
    | Normal it (b, w1) =>
        match destroy_n b it (size_ this - size_ rhs) w1 with
        | Normal _ (b', w2) =>
            Normal () (with_size (with_buffer this b') (size_ rhs), w2)
        | Throws e (b', w2) => Throws e (with_buffer this b', w2)
        | Undefined => Undefined
        end
    | Throws e (b, w1) => Throws e (with_buffer this b, w1)
    | Undefined => Undefined
    end
  else
    match copy_n (buffer_ (data_ rhs)) 0 (size_ this)
            (buffer_ (data_ this)) 0 w with
    | Normal it (b, w1) =>
        match uninitialized_copy_n (buffer_ (data_ rhs)) (0 + size_ this)
                (size_ rhs - size_ this) b it w1 with
        | Normal _ (b', w2) =>
            Normal () (with_size (with_buffer this b') (size_ rhs), w2)
        | Throws e (b', w2) => Throws e (with_buffer this b', w2)
        | Undefined => Undefined
        end
    | Throws e (b, w1) => Throws e (with_buffer this b, w1)
    | Undefined => Undefined
    end.

(** [Vector& operator=(const Vector& rhs)], on vectors held at addresses
    [this] and [rhs] of a store. *)
Definition Vector_copy_assign (this rhs : nat) (σ : gmap nat Vector)
    (w : world) : result unit (gmap nat Vector * world) :=
  if bool_decide (this ≠ rhs) then
    match σ !! this, σ !! rhs with
    | Some l, Some r =>
        match assign_from l r w with
        | Normal _ (l', w') => Normal () (<[this := l']> σ, w')
        | Throws e (l', w') => Throws e (<[this := l']> σ, w')
        | Undefined => Undefined
        end
    | _, _ => Undefined
    end
  else Normal () (σ, w).

(** [Vector& operator=(Vector&& rhs) noexcept]: [*this] and [rhs]
    afterwards. *)
Definition Vector_move_assign (this rhs : Vector) : Vector * Vector :=
  Swap this rhs.

(** ** Sequences of appends *)

(** [PushBack] of each value in turn; the sizes and capacities seen after
    each append that returned. *)
Fixpoint push_all (xs : list T) (v : Vector) (w : world)
    : list (nat * nat) * result unit (Vector * world) :=
  match xs with
  | [] => ([], Normal () (v, w))
  | x :: xs' =>
      match PushBack x v w with
      | Normal _ (v', w') =>
          let '(seen, r) := push_all xs' v' w' in
          ((Size v', Capacity v') :: seen, r)
      | other => ([], other)
      end
  end.

(** The growth policy: the capacity after [k] appends to a vector that
    starts with no storage. *)
Fixpoint growth (k : nat) : nat :=
  match k with
  | 0 => 0
  | S k' => if bool_decide (k' < growth k') then growth k'
            else 1 `max` (2 * growth k')
  end.

(** ** Predicates of the specification *)

(** [xs] live objects followed by [raw] uninitialised slots. *)
Definition cells (xs : list T) (raw : nat) : list slot :=
  (Some <$> xs) ++ replicate raw None.

(** [n] elements, and one element, take no more than [PTRDIFF_MAX] bytes:
    no object and no array is larger. *)
Definition fits (n : nat) : Prop := 2 * ((1 `max` n) * sizeof) ≤ SIZE_MAX.

(** The representation invariant: [size_ <= capacity_], the storage has
    [capacity_] slots, exactly the first [size_] of them hold live objects,
    and the storage is one the memory system can have granted: it
    [fits]. *)
Definition valid (v : Vector) : Prop :=
  size_ v ≤ capacity_ (data_ v) ∧
  fits (capacity_ (data_ v)) ∧
  length (elements v) = size_ v ∧
  buffer_ (data_ v) = cells (elements v) (capacity_ (data_ v) - size_ v).

(** The memory system grants the request [Allocate(n)] makes in world
    [w]: the bytes of [n] elements, counted in [size_t]. *)
Definition granted (n : nat) (w : world) : Prop :=
  (operator_new ops (wrap (n * sizeof)) w.1).1 = true.

(** No block is larger than [PTRDIFF_MAX]: a request that is granted is
    for at most half of [SIZE_MAX] bytes. *)
Definition new_bounded : Prop :=
  ∀ n u, (operator_new ops n u).1 = true → 2 * n ≤ SIZE_MAX.

(** The memory system grants every request for the bytes of up to [limit]
    elements. *)
Definition plentiful (limit : nat) : Prop :=
  ∀ n u, n ≤ limit → (operator_new ops (n * sizeof) u).1 = true.

(** An element type with value semantics whose operations complete:
    construction and assignment from [x] give [x], value-initialisation
    gives [default_value]. *)
Record Regular (default_value : T) : Prop := {
  regular_default : ∀ u, ∃ u', default_ctor ops u = (inr default_value, u');
  regular_copy : ∀ x u, ∃ u', copy_ctor ops x u = (inr x, u');
  regular_move : ∀ x u, ∃ x' u', move_ctor ops x u = (inr x, x', u');
  regular_copy_assign :
    ∀ d x u, ∃ u', copy_assign ops d x u = (None, x, u');
  regular_move_assign :
    ∀ d x u, ∃ x' u', move_assign ops d x u = (None, x, x', u');
}.

(** The move constructor never throws, as [noexcept] promises. *)
Definition nothrow_move : Prop :=
  ∀ x u, ∃ y x' u', move_ctor ops x u = (inr y, x', u').

(** The constructor call [ctor] completes and builds [x]. *)
Definition builds (ctor : W → (exn + T) * W) (x : T) : Prop :=
  ∀ u, ∃ u', ctor u = (inr x, u').

(** The calls that insert a value [x] before position [pos]. *)
Inductive insertion (pos : nat) (x : T)
    : (Vector → world → result nat (Vector * world)) → Prop :=
  | insertion_Emplace ctor :
      builds ctor x → insertion pos x (Emplace pos ctor)
  | insertion_Insert : insertion pos x (Insert pos x)
  | insertion_Insert_rvalue : insertion pos x (Insert_rvalue pos x).

(** A vector whose storage is what its capacity says, whatever its
    element type has done: [size_ <= capacity_], the storage has
    [capacity_] slots and is one the memory system can have granted, and
    the first [size_] slots hold live objects.  Nothing is said about the
    slots from [size_] on. *)
Definition well_formed (v : Vector) : Prop :=
  size_ v ≤ capacity_ (data_ v) ∧
  length (buffer_ (data_ v)) = capacity_ (data_ v) ∧
  fits (capacity_ (data_ v)) ∧
  ∀ i, i < size_ v → is_Some (live (buffer_ (data_ v)) i).

(** What holds of every vector, a moved-from one and one whose storage
    is short of its capacity included: [size_ <= capacity_], and the first
    [size_] slots are slots of the storage, of which a [size_t] counts
    the number, and hold live objects. *)
Definition sound (v : Vector) : Prop :=
  size_ v ≤ capacity_ (data_ v) ∧
  length (buffer_ (data_ v)) ≤ SIZE_MAX ∧
  ∀ i, i < size_ v → is_Some (live (buffer_ (data_ v)) i).


(** The vector a call leaves behind, whether it returns or throws. *)
Definition left_by {R : Type} (r : result R (Vector * world)) (v' : Vector)
    : Prop :=
  match r with
  | Normal _ (v, _) | Throws _ (v, _) => v' = v
  | Undefined => False
  end.

(** The vectors that sequences of public operations, called within their
    preconditions and in any world, construct or leave behind, the source
    of a move among them.  A count passed to a constructor, to [Reserve]
    or to [Resize] is any number. *)
Inductive reachable : Vector → Prop :=
  | reach_default : reachable Vector_default
  | reach_sized size w v w' :
      Vector_sized size w = Normal v w' → reachable v
  | reach_copy other w v w' :
      reachable other → Vector_copy other w = Normal v w' → reachable v
  | reach_move other : reachable other → reachable (Vector_move other).1
  | reach_move_source other :
      reachable other → reachable (Vector_move other).2
  | reach_copy_assign this rhs w v' :
      reachable this → reachable rhs →
      left_by (assign_from this rhs w) v' → reachable v'
  | reach_move_assign_l this rhs :
      reachable this → reachable rhs →
      reachable (Vector_move_assign this rhs).1
  | reach_move_assign_r this rhs :
      reachable this → reachable rhs →
      reachable (Vector_move_assign this rhs).2
  | reach_Swap_l this other :
      reachable this → reachable other → reachable (Swap this other).1
  | reach_Swap_r this other :
      reachable this → reachable other → reachable (Swap this other).2
  | reach_PopBack v w v' :
      reachable v → 0 < size_ v → left_by (PopBack v w) v' → reachable v'
  | reach_EmplaceBack ctor v w v' :
      reachable v → left_by (EmplaceBack ctor v w) v' → reachable v'
  | reach_PushBack x v w v' :
      reachable v → left_by (PushBack x v w) v' → reachable v'
  | reach_PushBack_rvalue x v w v' :
      reachable v → left_by (PushBack_rvalue x v w) v' → reachable v'
  | reach_Emplace pos ctor v w v' :
      reachable v → pos ≤ size_ v →
      left_by (Emplace pos ctor v w) v' → reachable v'
  | reach_Insert pos x v w v' :
      reachable v → pos ≤ size_ v →
      left_by (Insert pos x v w) v' → reachable v'
  | reach_Insert_rvalue pos x v w v' :
      reachable v → pos ≤ size_ v →
      left_by (Insert_rvalue pos x v w) v' → reachable v'
  | reach_Erase pos v w v' :
      reachable v → pos < size_ v →
      left_by (Erase pos v w) v' → reachable v'
  | reach_Reserve n v w v' :
      reachable v → left_by (Reserve n v w) v' → reachable v'
  | reach_Resize n v w v' :
      reachable v → left_by (Resize n v w) v' → reachable v'.

(** [b'] has the slots of [b], and a live object wherever [b] has one. *)
Definition covers (b b' : list slot) : Prop :=
  length b' = length b ∧ ∀ i, is_Some (live b i) → is_Some (live b' i).

(** [b'] is [b] outside the slots [lo, hi). *)
Definition same_outside (lo hi : nat) (b b' : list slot) : Prop :=
  length b' = length b ∧ ∀ i, i < lo ∨ hi ≤ i → b' !! i = b !! i.

(** ** Calls and traces *)

(** The member functions that change a vector, as calls on it; a result
    the caller may use is dropped. *)
Inductive member_call
    : (Vector → world → result unit (Vector * world)) → Prop :=
  | call_PopBack : member_call PopBack
  | call_EmplaceBack ctor :
      member_call (λ v w, discard (EmplaceBack ctor v w))
  | call_PushBack x : member_call (PushBack x)
  | call_PushBack_rvalue x : member_call (PushBack_rvalue x)
  | call_Emplace pos ctor :
      member_call (λ v w, discard (Emplace pos ctor v w))
  | call_Insert pos x : member_call (λ v w, discard (Insert pos x v w))
  | call_Insert_rvalue pos x :
      member_call (λ v w, discard (Insert_rvalue pos x v w))
  | call_Erase pos : member_call (λ v w, discard (Erase pos v w))
  | call_Reserve n : member_call (Reserve n)
  | call_Resize n : member_call (Resize n)
  | call_copy_assign rhs : member_call (λ v w, assign_from v rhs w).

(** The number of elements a trace shows being relocated: constructed
    from an element of the vector, by move or by copy. *)
Fixpoint relocations (tr : list event) : nat :=
  match tr with
  | [] => 0
  | (MoveConstructed _ | CopyConstructed _) :: tr' => S (relocations tr')
  | _ :: tr' => relocations tr'
  end.

(** The call stays within what the language defines. *)
Definition defined {R S : Type} (r : result R S) : Prop :=
  match r with
  | Undefined => False
  | _ => True
  end.

(** The member calls on [v] that are within their preconditions: a
    non-empty vector for [PopBack], a position in [begin(), end()] for an
    insertion and in [begin(), end()) for [Erase], a number of elements
    whose bytes a [size_t] counts for [Reserve] and [Resize], a
    well-formed source for copy assignment. *)
Inductive call_within (v : Vector)
    : (Vector → world → result unit (Vector * world)) → Prop :=
  | within_PopBack : 0 < size_ v → call_within v PopBack
  | within_EmplaceBack ctor :
      call_within v (λ v w, discard (EmplaceBack ctor v w))
  | within_PushBack x : call_within v (PushBack x)
  | within_PushBack_rvalue x : call_within v (PushBack_rvalue x)
  | within_Emplace pos ctor :
      pos ≤ size_ v →
      call_within v (λ v w, discard (Emplace pos ctor v w))
  | within_Insert pos x :
      pos ≤ size_ v → call_within v (λ v w, discard (Insert pos x v w))
  | within_Insert_rvalue pos x :
      pos ≤ size_ v →
      call_within v (λ v w, discard (Insert_rvalue pos x v w))
  | within_Erase pos :
      pos < size_ v → call_within v (λ v w, discard (Erase pos v w))
  | within_Reserve n : n * sizeof ≤ SIZE_MAX → call_within v (Reserve n)
  | within_Resize n : n * sizeof ≤ SIZE_MAX → call_within v (Resize n)
  | within_copy_assign rhs :
      well_formed rhs → call_within v (λ v w, assign_from v rhs w).

End vector_h.

Arguments Regular {T W} ops default_value.

(** ** Element types used in the examples *)

(** [int]-like elements: nothing throws, a moved-from object reads 0. *)
Definition plain_ops (limit : nat) : @ElemOps nat unit := {|
  default_ctor := λ u, (inr 0, u);
  copy_ctor := λ x u, (inr x, u);
  move_ctor := λ x u, (inr x, 0, u);
  copy_assign := λ d x u, (None, x, u);
  move_assign := λ d x u, (None, x, 0, u);
  dtor := λ x u, u;
  is_nothrow_move_constructible := true;
  is_copy_constructible := true;
  sizeof_T := 1;
  operator_new := λ n u, (bool_decide (n ≤ limit), u);
|}.

(** Elements whose copy constructor throws once a countdown, kept in the
    world, reaches zero; the move constructor is not [noexcept]. *)
Definition countdown_copy (x : nat) (u : nat) : (exn + nat) * nat :=
  match u with
  | 0 => (inl (thrown 0), 0)
  | S u' => (inr x, u')
  end.

Definition throwing_copy_ops (limit : nat) : @ElemOps nat nat := {|
  default_ctor := λ u, (inr 0, u);
  copy_ctor := countdown_copy;
  move_ctor := λ x u, (inr x, 0, u);
  copy_assign := λ d x u, (None, x, u);
  move_assign := λ d x u, (None, x, 0, u);
  dtor := λ x u, u;
  is_nothrow_move_constructible := false;
  is_copy_constructible := true;
  sizeof_T := 1;
  operator_new := λ n u, (bool_decide (n ≤ limit), u);
|}.

(** Move-only elements whose move constructor throws once the countdown
    reaches zero and otherwise leaves 0 in its source. *)
Definition countdown_move (x : nat) (u : nat) : (exn + nat) * nat * nat :=
  match u with
  | 0 => (inl (thrown 0), x, 0)
  | S u' => (inr x, 0, u')
  end.

Definition throwing_move_only_ops (limit : nat) : @ElemOps nat nat := {|
  default_ctor := λ u, (inr 0, u);
  copy_ctor := λ x u, (inr x, u);
  move_ctor := countdown_move;
  copy_assign := λ d x u, (None, x, u);
  move_assign := λ d x u, (None, x, 0, u);
  dtor := λ x u, u;
  is_nothrow_move_constructible := false;
  is_copy_constructible := false;
  sizeof_T := 1;
  operator_new := λ n u, (bool_decide (n ≤ limit), u);
|}.

(** Elements whose move assignment throws once the countdown reaches zero,
    as when it falls back on a throwing copy assignment. *)
Definition countdown_move_assign (d x : nat) (u : nat)
    : option exn * nat * nat * nat :=
  match u with
  | 0 => (Some (thrown 0), d, x, 0)
  | S u' => (None, x, x, u')
  end.

Definition throwing_move_assign_ops (limit : nat) : @ElemOps nat nat := {|
  default_ctor := λ u, (inr 0, u);
  copy_ctor := λ x u, (inr x, u);
  move_ctor := λ x u, (inr x, x, u);
  copy_assign := λ d x u, (None, x, u);
  move_assign := countdown_move_assign;
  dtor := λ x u, u;
  is_nothrow_move_constructible := false;
  is_copy_constructible := true;
  sizeof_T := 1;
  operator_new := λ n u, (bool_decide (n ≤ limit), u);
|}.

(** Elements of four bytes, otherwise like those of [plain_ops]; the
    limit of the memory system is one of bytes. *)
Definition wide_ops (limit : nat) : @ElemOps nat unit := {|
  default_ctor := λ u, (inr 0, u);
  copy_ctor := λ x u, (inr x, u);
  move_ctor := λ x u, (inr x, 0, u);
  copy_assign := λ d x u, (None, x, u);
  move_assign := λ d x u, (None, x, 0, u);
  dtor := λ x u, u;
  is_nothrow_move_constructible := true;
  is_copy_constructible := true;
  sizeof_T := 4;
  operator_new := λ n u, (bool_decide (n ≤ limit), u);
|}.

(** A vector holding [xs] in storage of [length xs + raw] slots. *)
Definition vector_of {T : Type} (xs : list T) (raw : nat) : Vector :=
  mkVector (mkRawMemory (cells xs raw) (length xs + raw)) (length xs).

(** The capacities the specification lists for the first eight appends. *)
Definition spec_capacity_sequence : list nat := [1; 2; 2; 4; 4; 4; 4; 8].

(** * Proofs *)

Section proofs.

Context {T W : Type} (SIZE_MAX : nat) (ops : @ElemOps T W).

Implicit Types (b pre post src dst : list (option T)) (s : option T).
Implicit Types (xs ys ds : list T) (x y d : T).
Implicit Types (w : W * list (@event T)) (v : @Vector T).

Ltac len :=
  repeat (progress rewrite ?length_app, ?length_cons, ?length_nil,
            ?length_fmap, ?length_replicate, ?length_take, ?length_drop,
            ?length_insert, ?length_reverse);
  simpl; lia.

(** ** Arithmetic on [size_t] *)

Lemma wrap_small n : n ≤ SIZE_MAX → wrap SIZE_MAX n = n.
Proof. intros Hn. unfold wrap. apply Nat.mod_small. lia. Qed.

Lemma wrap_sub_small a c : c ≤ a → a ≤ SIZE_MAX → wrap_sub SIZE_MAX a c = a - c.
Proof.
  intros Hc Ha. unfold wrap_sub, wrap.
  replace (a + S SIZE_MAX - c) with (a - c + 1 * S SIZE_MAX) by lia.
  rewrite Nat.Div0.mod_add. apply Nat.mod_small. lia.
Qed.

(** ** Byte sizes *)

Lemma sizeof_pos : 0 < sizeof ops.
Proof. unfold sizeof. apply Pos2Nat.is_pos. Qed.

Lemma le_mul_sizeof n : n ≤ n * sizeof ops.
Proof. pose proof sizeof_pos. nia. Qed.

Lemma mul_sizeof_mono n m : n ≤ m → n * sizeof ops ≤ m * sizeof ops.
Proof. intros. by apply Nat.mul_le_mono_r. Qed.

Lemma fits_bound n : fits SIZE_MAX ops n → 2 * n ≤ SIZE_MAX ∧ 2 ≤ SIZE_MAX.
Proof.
  unfold fits. intros Hn.
  pose proof (le_mul_sizeof (1 `max` n)). lia.
Qed.

Lemma fits_le n m : fits SIZE_MAX ops n → m ≤ n → fits SIZE_MAX ops m.
Proof.
  unfold fits. intros Hn Hm.
  pose proof (mul_sizeof_mono (1 `max` m) (1 `max` n) ltac:(lia)). lia.
Qed.

(** A request for the growth of a block that fits does not wrap. *)
Lemma fits_request c m :
  fits SIZE_MAX ops c → m ≤ 1 `max` (2 * c) → m * sizeof ops ≤ SIZE_MAX.
Proof.
  unfold fits. intros Hc Hm.
  pose proof (mul_sizeof_mono m (2 * (1 `max` c)) ltac:(lia)). lia.
Qed.

Lemma wrap_request m :
  m * sizeof ops ≤ SIZE_MAX →
  wrap SIZE_MAX (m * sizeof ops) = m * sizeof ops ∧
  (m * sizeof ops) `div` sizeof ops = m.
Proof.
  intros Hm. split; [by apply wrap_small|].
  apply Nat.div_mul. pose proof sizeof_pos. lia.
Qed.

(** A block that was granted fits. *)
Lemma granted_fits m w :
  new_bounded SIZE_MAX ops → m ≠ 0 → m * sizeof ops ≤ SIZE_MAX →
  granted SIZE_MAX ops m w → fits SIZE_MAX ops m.
Proof.
  intros Hnb Hm Hle Hg. unfold granted in Hg.
  rewrite (proj1 (wrap_request m Hle)) in Hg. apply Hnb in Hg.
  unfold fits. by replace (1 `max` m) with m by lia.
Qed.

(** A granted request for the growth of a block that fits: it does not
    wrap, and the new block fits. *)
Lemma granted_growth c n w :
  new_bounded SIZE_MAX ops → fits SIZE_MAX ops c →
  n ≠ 0 → n ≤ 1 `max` (2 * c) → granted SIZE_MAX ops n w →
  n * sizeof ops ≤ SIZE_MAX ∧ fits SIZE_MAX ops n ∧ 2 * n ≤ SIZE_MAX.
Proof.
  intros Hnb Hc Hn Hle Hg.
  pose proof (fits_request c n Hc Hle) as Hreq.
  pose proof (granted_fits n w Hnb Hn Hreq Hg) as Hf.
  split; [done|]. split; [done|]. by apply fits_bound.
Qed.

(** Where memory is plentiful a request is granted, and is not one for
    more than [PTRDIFF_MAX] bytes. *)
Lemma plentiful_granted limit n w :
  new_bounded SIZE_MAX ops → plentiful ops limit → n ≤ limit →
  2 * (n * sizeof ops) ≤ SIZE_MAX ∧ granted SIZE_MAX ops n w.
Proof.
  intros Hnb Hpl Hn. pose proof (Hnb _ _ (Hpl n w.1 Hn)) as Hle.
  split; [done|]. unfold granted.
  rewrite (proj1 (wrap_request n ltac:(lia))). by apply Hpl.
Qed.

(** The block [Allocate] gets has no more slots than it was asked for,
    and a [size_t] counts them. *)
Lemma block_slots n :
  wrap SIZE_MAX (n * sizeof ops) `div` sizeof ops ≤ n ∧
  wrap SIZE_MAX (n * sizeof ops) `div` sizeof ops ≤ SIZE_MAX.
Proof.
  pose proof sizeof_pos as Hs.
  assert (wrap SIZE_MAX (n * sizeof ops) ≤ n * sizeof ops) as Hw.
  { unfold wrap. apply Nat.Div0.mod_le. }
  assert (wrap SIZE_MAX (n * sizeof ops) ≤ SIZE_MAX) as Hm.
  { unfold wrap. pose proof (Nat.mod_upper_bound (n * sizeof ops) (S SIZE_MAX)).
    lia. }
  split.
  - apply Nat.Div0.div_le_upper_bound. lia.
  - etrans; [apply Nat.Div0.div_le_upper_bound|exact Hm].
    pose proof (le_mul_sizeof (wrap SIZE_MAX (n * sizeof ops))). lia.
Qed.

(** ** The growth policy *)

Lemma growth_S k :
  growth (S k) = if bool_decide (k < growth k) then growth k
                 else 1 `max` (2 * growth k).
Proof. done. Qed.

Lemma growth_ge k : k ≤ growth k.
Proof.
  induction k as [|k IH]; [done|]. rewrite growth_S.
  case_bool_decide; lia.
Qed.

Lemma growth_mono i j : i ≤ j → growth i ≤ growth j.
Proof.
  induction 1 as [|j _ IH]; [done|]. rewrite growth_S.
  case_bool_decide; lia.
Qed.

Lemma growth_pow2 k : 0 < k → growth k = 2 ^ Nat.log2_up k.
Proof.
  induction k as [|k IH]; [lia|]. intros _. rewrite growth_S.
  destruct (decide (k = 0)) as [->|Hk]; [done|].
  rewrite IH by lia.
  pose proof (Nat.log2_log2_up_spec k ltac:(lia)) as [_ Hup].
  case_bool_decide as Hlt.
  - destruct (Nat.log2_up_succ_or k) as [Hs| ->]; [|done].
    apply Nat.log2_up_eq_succ_is_pow2 in Hs as [b ->].
    rewrite Nat.log2_up_pow2 in Hlt by lia. lia.
  - assert (k = 2 ^ Nat.log2_up k) as Hpow by lia.
    rewrite Hpow at 2. rewrite Nat.log2_up_succ_pow2 by lia.
    rewrite Nat.pow_succ_r'. lia.
Qed.

(** ** Slots in the middle of a buffer *)

Lemma live_middle pre s post : live (pre ++ s :: post) (length pre) = s.
Proof. unfold live. by rewrite list_lookup_middle. Qed.

Lemma insert_middle pre s s' post :
  <[length pre := s']> (pre ++ s :: post) = pre ++ s' :: post.
Proof.
  replace (length pre) with (length pre + 0) by lia.
  by rewrite insert_app_r.
Qed.

Lemma snoc_length pre s : S (length pre) = length (pre ++ [s]).
Proof. rewrite length_app. simpl. lia. Qed.

Lemma snoc_app pre s (l : list (option T)) : pre ++ s :: l = (pre ++ [s]) ++ l.
Proof. by rewrite <- app_assoc. Qed.

Lemma live_middle_S pre s s' post :
  live (pre ++ s :: s' :: post) (S (length pre)) = s'.
Proof.
  unfold live. replace (S (length pre)) with (length pre + 1) by lia.
  by rewrite lookup_app_r, Nat.add_comm, Nat.add_sub by lia.
Qed.

Lemma insert_middle_S pre s s1 s2 post :
  <[S (length pre) := s2]> (pre ++ s :: s1 :: post) = pre ++ s :: s2 :: post.
Proof.
  replace (S (length pre)) with (length pre + 1) by lia.
  by rewrite insert_app_r.
Qed.

Lemma live_at pre s post i : i = length pre → live (pre ++ s :: post) i = s.
Proof. intros ->. apply live_middle. Qed.

Lemma insert_at pre s s' post i :
  i = length pre → <[i := s']> (pre ++ s :: post) = pre ++ s' :: post.
Proof. intros ->. apply insert_middle. Qed.

Lemma in_range_at pre s post i :
  i = length pre → in_range (pre ++ s :: post) i = true.
Proof.
  intros ->. unfold in_range. apply bool_decide_eq_true.
  rewrite length_app. simpl. lia.
Qed.

Lemma live_at_S pre s s' post i :
  i = S (length pre) → live (pre ++ s :: s' :: post) i = s'.
Proof. intros ->. apply live_middle_S. Qed.

Lemma insert_at_S pre s s1 s2 post i :
  i = S (length pre) →
  <[i := s2]> (pre ++ s :: s1 :: post) = pre ++ s :: s2 :: post.
Proof. intros ->. apply insert_middle_S. Qed.

Lemma in_range_at_S pre s s' post i :
  i = S (length pre) → in_range (pre ++ s :: s' :: post) i = true.
Proof.
  intros ->. unfold in_range. apply bool_decide_eq_true.
  rewrite length_app. simpl. lia.
Qed.

Lemma in_range_middle pre s post : in_range (pre ++ s :: post) (length pre) = true.
Proof.
  unfold in_range. apply bool_decide_eq_true. rewrite length_app. simpl. lia.
Qed.

(** ** [destroy_n] *)

Lemma destroy_n_live xs : ∀ pre post w,
  ∃ u, destroy_n ops (pre ++ (Some <$> xs) ++ post) (length pre) (length xs) w
       = Normal () (pre ++ replicate (length xs) None ++ post,
                    (u, w.2 ++ (Destroyed <$> xs))).
Proof.
  induction xs as [|x xs IH]; intros pre post w; csimpl.
  - exists w.1. rewrite app_nil_r. by destruct w.
  - unfold destroy_at. rewrite live_middle, insert_middle.
    rewrite (snoc_length pre None), (snoc_app pre None).
    destruct (IH (pre ++ [None]) post
                (log (Destroyed x) (dtor ops x w.1) w)) as [u ->].
    exists u. simpl. by rewrite <- !app_assoc.
Qed.

Lemma destroy_n_never_throws n : ∀ b first w e st,
  destroy_n ops b first n w ≠ Throws e st.
Proof.
  induction n as [|n IH]; intros b first w e st; simpl; [done|].
  unfold destroy_at. destruct (live b first); [apply IH | done].
Qed.

(** ** Copying into raw storage, for any element type *)

Lemma uninitialized_copy_loop_spec xs :
  ∀ spre spost dpre built dmid dpost w,
  length dmid = length xs →
  match uninitialized_copy_loop ops (spre ++ (Some <$> xs) ++ spost)
          (length spre) (length xs)
          (dpre ++ (Some <$> built) ++ dmid ++ dpost) (length dpre)
          (length dpre + length built) w with
  | Normal r (dst', w') =>
      r = length dpre + length built + length xs ∧
      ∃ ys, length ys = length xs ∧
        dst' = dpre ++ (Some <$> built ++ ys) ++ dpost ∧
        w'.2 = w.2 ++ (CopyConstructed <$> ys)
  | Throws e (dst', w') =>
      ∃ ys, length ys < length xs ∧
        dst' = dpre ++ replicate (length built + length ys) None ++
               drop (length ys) dmid ++ dpost ∧
        w'.2 = w.2 ++ (CopyConstructed <$> ys) ++
               (Destroyed <$> built ++ ys)
  | Undefined => False
  end.
Proof.
  induction xs as [|x xs IH]; intros spre spost dpre built dmid dpost w Hlen.
  - destruct dmid; [|done]. cbn [uninitialized_copy_loop length].
    split; [lia|]. exists []. by rewrite !app_nil_r.
  - destruct dmid as [|s dmid]; [done|].
    cbn [uninitialized_copy_loop length]. csimpl.
    rewrite (app_assoc dpre).
    rewrite in_range_at, live_middle by len.
    destruct (copy_ctor ops x w.1) as [[e|y] u] eqn:Hcopy.
    + unfold rollback.
      replace (length dpre + length built - length dpre) with (length built)
        by lia.
      rewrite <- (app_assoc dpre).
      destruct (destroy_n_live built dpre (s :: dmid ++ dpost) (u, w.2))
        as [u' ->].
      exists []. split; [simpl; lia|]. csimpl.
      by rewrite Nat.add_0_r, app_nil_r.
    + rewrite insert_at by len.
      rewrite (snoc_length spre (Some x)), (snoc_app spre (Some x)).
      specialize (IH (spre ++ [Some x]) spost dpre (built ++ [y]) dmid dpost
                    (log (CopyConstructed y) u w) ltac:(by simplify_eq/=)).
      replace ((dpre ++ (Some <$> built)) ++ Some y :: dmid ++ dpost)
        with (dpre ++ (Some <$> built ++ [y]) ++ dmid ++ dpost)
        by (by rewrite fmap_app, <- !app_assoc).
      replace (S (length dpre + length built))
        with (length dpre + length (built ++ [y])) by len.
      destruct (uninitialized_copy_loop ops _ _ _ _ _ _ _)
        as [r [dst' w']|e [dst' w']|]; [| |done].
      * destruct IH as (-> & ys & Hys & -> & Htr).
        split; [len|]. exists (y :: ys). split; [simpl; lia|].
        rewrite Htr. cbn [log snd]. by rewrite <- !app_assoc.
      * destruct IH as (ys & Hys & -> & Htr).
        exists (y :: ys). split; [simpl; lia|].
        rewrite Htr. cbn [log snd]. rewrite <- !app_assoc. csimpl.
        split; [|done]. do 3 f_equal. len.
Qed.


(** ** The loops, for a regular element type *)

Section regular.

Context (default_value : T) (HR : Regular ops default_value).

Lemma uninitialized_copy_loop_regular xs : ∀ spre spost dpre dmid dpost d_first w,
  length dmid = length xs →
  ∃ u, uninitialized_copy_loop ops (spre ++ (Some <$> xs) ++ spost)
         (length spre) (length xs) (dpre ++ dmid ++ dpost) d_first
         (length dpre) w
       = Normal (length dpre + length xs)
           (dpre ++ (Some <$> xs) ++ dpost,
            (u, w.2 ++ (CopyConstructed <$> xs))).
Proof.
  induction xs as [|x xs IH];
    intros spre spost dpre dmid dpost d_first w Hlen; csimpl.
  - destruct dmid; [|done]. exists w.1.
    rewrite Nat.add_0_r, app_nil_r. by destruct w.
  - destruct dmid as [|s dmid]; [done|]. csimpl.
    rewrite in_range_middle, live_middle.
    destruct (regular_copy _ _ HR x w.1) as [u1 ->].
    rewrite insert_middle.
    rewrite (snoc_length spre (Some x)), (snoc_app spre (Some x)).
    rewrite (snoc_length dpre (Some x)), (snoc_app dpre (Some x)).
    destruct (IH (spre ++ [Some x]) spost (dpre ++ [Some x]) dmid dpost
                d_first (log (CopyConstructed x) u1 w)) as [u ->];
      [by simplify_eq/=|].
    exists u. rewrite length_app. csimpl. rewrite <- !app_assoc.
    f_equal. lia.
Qed.

Lemma uninitialized_move_loop_regular xs : ∀ spre spost dpre dmid dpost d_first w,
  length dmid = length xs →
  ∃ ls u, length ls = length xs ∧
    uninitialized_move_loop ops (spre ++ (Some <$> xs) ++ spost)
      (length spre) (length xs) (dpre ++ dmid ++ dpost) d_first
      (length dpre) w
    = Normal (length dpre + length xs)
        (spre ++ (Some <$> ls) ++ spost, dpre ++ (Some <$> xs) ++ dpost,
         (u, w.2 ++ (MoveConstructed <$> xs))).
Proof.
  induction xs as [|x xs IH];
    intros spre spost dpre dmid dpost d_first w Hlen; csimpl.
  - destruct dmid; [|done]. exists [], w.1.
    rewrite Nat.add_0_r, app_nil_r. by destruct w.
  - destruct dmid as [|s dmid]; [done|]. csimpl.
    rewrite in_range_middle, live_middle.
    destruct (regular_move _ _ HR x w.1) as (x' & u1 & ->).
    rewrite !insert_middle.
    rewrite (snoc_length spre (Some x')), (snoc_app spre (Some x')).
    rewrite (snoc_length dpre (Some x)), (snoc_app dpre (Some x)).
    destruct (IH (spre ++ [Some x']) spost (dpre ++ [Some x]) dmid dpost
                d_first (log (MoveConstructed x) u1 w))
      as (ls & u & Hls & ->); [by simplify_eq/=|].
    exists (x' :: ls), u. split; [simpl; lia|].
    rewrite length_app. csimpl. rewrite <- !app_assoc.
    f_equal. lia.
Qed.

Lemma uninitialized_value_construct_loop_regular n : ∀ pre mid post first w,
  length mid = n →
  ∃ u, uninitialized_value_construct_loop ops (pre ++ mid ++ post) first
         (length pre) n w
       = Normal ()
           (pre ++ replicate n (Some default_value) ++ post,
            (u, w.2 ++ replicate n (Constructed default_value))).
Proof.
  induction n as [|n IH]; intros pre mid post first w Hlen; csimpl.
  - destruct mid; [|done]. exists w.1. rewrite app_nil_r. by destruct w.
  - destruct mid as [|s mid]; [done|]. csimpl.
    rewrite in_range_middle.
    destruct (regular_default _ _ HR w.1) as [u1 ->].
    rewrite insert_middle.
    rewrite (snoc_length pre (Some default_value)),
      (snoc_app pre (Some default_value)).
    destruct (IH (pre ++ [Some default_value]) mid post first
                (log (Constructed default_value) u1 w)) as [u ->];
      [by simplify_eq/=|].
    exists u. csimpl. by rewrite <- !app_assoc.
Qed.

Lemma copy_n_regular xs : ∀ spre spost dpre ds dpost w,
  length ds = length xs →
  ∃ u, copy_n ops (spre ++ (Some <$> xs) ++ spost) (length spre) (length xs)
         (dpre ++ (Some <$> ds) ++ dpost) (length dpre) w
       = Normal (length dpre + length xs)
           (dpre ++ (Some <$> xs) ++ dpost,
            (u, w.2 ++ (CopyAssigned <$> xs))).
Proof.
  induction xs as [|x xs IH]; intros spre spost dpre ds dpost w Hlen; csimpl.
  - destruct ds; [|done]. exists w.1.
    rewrite Nat.add_0_r, app_nil_r. by destruct w.
  - destruct ds as [|d ds]; [done|]. csimpl.
    rewrite !live_middle.
    destruct (regular_copy_assign _ _ HR d x w.1) as [u1 ->].
    rewrite insert_middle.
    rewrite (snoc_length spre (Some x)), (snoc_app spre (Some x)).
    rewrite (snoc_length dpre (Some x)), (snoc_app dpre (Some x)).
    destruct (IH (spre ++ [Some x]) spost (dpre ++ [Some x]) ds dpost
                (log (CopyAssigned x) u1 w)) as [u ->];
      [by simplify_eq/=|].
    exists u. rewrite length_app. csimpl. rewrite <- !app_assoc.
    f_equal. lia.
Qed.

Lemma move_assign_slot_regular pre d x post w :
  ∃ x' u, move_assign_slot ops (pre ++ Some d :: Some x :: post)
            (length pre) (S (length pre)) w
          = Normal () (pre ++ Some x :: Some x' :: post,
                       (u, w.2 ++ [MoveAssigned x])).
Proof.
  unfold move_assign_slot. rewrite live_middle, live_middle_S.
  destruct (regular_move_assign _ _ HR d x w.1) as (x' & u & ->).
  exists x', u. by rewrite insert_middle_S, insert_middle.
Qed.

Lemma move_range_regular xs : ∀ pre d post w,
  ∃ l u, move_range ops (pre ++ Some d :: (Some <$> xs) ++ post)
           (S (length pre)) (length xs) (length pre) w
         = Normal () (pre ++ (Some <$> xs) ++ Some l :: post,
                      (u, w.2 ++ (MoveAssigned <$> xs))).
Proof.
  induction xs as [|x xs IH]; intros pre d post w; csimpl.
  - exists d, w.1. rewrite app_nil_r. by destruct w.
  - destruct (move_assign_slot_regular pre d x ((Some <$> xs) ++ post) w)
      as (x' & u1 & ->).
    rewrite (snoc_length pre (Some x)), (snoc_app pre (Some x)).
    destruct (IH (pre ++ [Some x]) x' post (u1, w.2 ++ [MoveAssigned x]))
      as (l & u & ->).
    exists l, u. csimpl. by rewrite <- !app_assoc.
Qed.

Lemma move_assign_slot_regular_back pre x d post w :
  ∃ x' u, move_assign_slot ops (pre ++ Some x :: Some d :: post)
            (S (length pre)) (length pre) w
          = Normal () (pre ++ Some x' :: Some x :: post,
                       (u, w.2 ++ [MoveAssigned x])).
Proof.
  unfold move_assign_slot. rewrite live_middle, live_middle_S.
  destruct (regular_move_assign _ _ HR d x w.1) as (x' & u & ->).
  exists x', u. by rewrite insert_middle, insert_middle_S.
Qed.

Lemma move_backward_regular xs : ∀ pre d post w,
  ∃ l u, move_backward ops (pre ++ (Some <$> xs) ++ Some d :: post)
           (length xs) (length pre + length xs)
           (S (length pre + length xs)) w
         = Normal () (pre ++ Some l :: (Some <$> xs) ++ post,
                      (u, w.2 ++ (MoveAssigned <$> reverse xs))).
Proof.
  induction xs as [|x xs IH] using rev_ind; intros pre d post w; csimpl.
  - exists d, w.1. rewrite app_nil_r. by destruct w.
  - rewrite length_app, fmap_app, reverse_snoc. csimpl.
    replace (length xs + 1) with (S (length xs)) by lia.
    replace (length pre + S (length xs)) with (S (length pre + length xs))
      by lia.
    cbn [move_backward].
    rewrite <- !app_assoc. csimpl. rewrite (app_assoc pre).
    replace (length pre + length xs) with (length (pre ++ (Some <$> xs)))
      by (by rewrite length_app, length_fmap).
    destruct (move_assign_slot_regular_back (pre ++ (Some <$> xs)) x d post w)
      as (x' & u1 & ->).
    rewrite length_app, length_fmap, <- app_assoc.
    destruct (IH pre x' (Some x :: post) (u1, w.2 ++ [MoveAssigned x]))
      as (l & u & ->).
    exists l, u. csimpl. by rewrite <- !app_assoc.
Qed.

End regular.

(** ** Canonical form of a valid vector *)

Lemma omap_id_Some xs : omap id (Some <$> xs) = xs.
Proof. induction xs as [|x xs IH]; csimpl; [done|]. by rewrite IH. Qed.

Lemma elements_vector_of xs k : elements (vector_of xs k) = xs.
Proof.
  unfold elements, vector_of, cells. simpl.
  rewrite <- (length_fmap Some xs) at 1.
  by rewrite take_app_length, omap_id_Some.
Qed.

Lemma valid_vector_of xs k :
  fits SIZE_MAX ops (length xs + k) → valid SIZE_MAX ops (vector_of xs k).
Proof.
  intros Hb. unfold valid. rewrite elements_vector_of. simpl.
  split; [lia|]. split; [done|]. split; [done|]. f_equal. lia.
Qed.

Lemma valid_canonical v :
  valid SIZE_MAX ops v →
  v = vector_of (elements v) (Capacity v - Size v) ∧
  2 * (length (elements v) + (Capacity v - Size v)) ≤ SIZE_MAX.
Proof.
  destruct v as [[b c] n]. unfold valid, Capacity, Size, vector_of.
  simpl. intros (Hn & Hc & Hl & Hb). apply fits_bound in Hc. split; [|lia].
  rewrite Hl. rewrite <- Hb. do 2 f_equal. lia.
Qed.

Lemma valid_fits v : valid SIZE_MAX ops v → fits SIZE_MAX ops (Capacity v).
Proof. by intros (_ & Hc & _). Qed.

Lemma valid_canonical_fits v :
  valid SIZE_MAX ops v →
  v = vector_of (elements v) (Capacity v - Size v) ∧
  fits SIZE_MAX ops (length (elements v) + (Capacity v - Size v)).
Proof.
  intros Hv. split; [by apply valid_canonical|].
  destruct Hv as (Hn & Hc & Hl & _). rewrite Hl.
  unfold Capacity, RawMemory_Capacity, Size.
  by replace (size_ v + (capacity_ (data_ v) - size_ v))
    with (capacity_ (data_ v)) by lia.
Qed.

Lemma Vector_eq b c n b' c' n' :
  b = b' → c = c' → n = n' →
  mkVector (mkRawMemory b c) n = mkVector (mkRawMemory b' c') n'.
Proof. by intros -> -> ->. Qed.

Lemma vector_of_eq xs k b c n :
  b = cells xs k → c = length xs + k → n = length xs →
  mkVector (mkRawMemory b c) n = vector_of xs k.
Proof. by intros -> -> ->. Qed.

Lemma cells_snoc xs x k :
  (Some <$> xs) ++ Some x :: replicate k None = cells (xs ++ [x]) k.
Proof. unfold cells. by rewrite fmap_app, <- app_assoc. Qed.

Lemma replicate_split {A} (a : A) n m :
  n ≤ m → replicate m a = replicate n a ++ replicate (m - n) a.
Proof.
  intros H. rewrite <- replicate_add. f_equal. lia.
Qed.

Lemma replicate_split_S {A} (a : A) n m :
  n < m → replicate m a = replicate n a ++ a :: replicate (m - S n) a.
Proof.
  intros H. rewrite (replicate_split a n m) by lia.
  f_equal. replace (m - n) with (S (m - S n)) by lia. done.
Qed.

Lemma RawMemory_sized_granted n w :
  n ≠ 0 → n * sizeof ops ≤ SIZE_MAX → granted SIZE_MAX ops n w →
  ∃ u, RawMemory_sized SIZE_MAX ops n w
       = Normal (mkRawMemory (replicate n None) n) (u, w.2).
Proof.
  intros Hn Hle Hg. unfold RawMemory_sized, Allocate, granted in *.
  rewrite bool_decide_eq_true_2 by done. cbv zeta.
  destruct (wrap_request n Hle) as [Hw Hd]. rewrite Hw in *. rewrite Hd.
  destruct (operator_new ops (n * sizeof ops) w.1) as [g u].
  simpl in Hg. subst g. by exists u.
Qed.

Lemma subscript_vector_of xs k i : subscript (vector_of xs k) i = xs !! i.
Proof.
  unfold subscript, vector_of, live, cells. cbn [size_ data_ buffer_].
  case_bool_decide as Hi.
  - rewrite lookup_app_l by len. rewrite list_lookup_fmap.
    by destruct (xs !! i).
  - symmetry. apply lookup_ge_None. lia.
Qed.

Lemma subscript_elements v i :
  valid SIZE_MAX ops v → subscript v i = elements v !! i.
Proof.
  intros Hv. destruct (valid_canonical v Hv) as [Heq _].
  rewrite Heq at 1. apply subscript_vector_of.
Qed.

Lemma Size_elements v : valid SIZE_MAX ops v → Size v = length (elements v).
Proof. by intros (_ & _ & -> & _). Qed.

Lemma lookup_inserted_at xs pos x :
  pos ≤ length xs → (take pos xs ++ x :: drop pos xs) !! pos = Some x.
Proof. intros H. apply list_lookup_middle. len. Qed.

Lemma lookup_inserted_before xs pos x i :
  i < pos → pos ≤ length xs →
  (take pos xs ++ x :: drop pos xs) !! i = xs !! i.
Proof.
  intros H Hpos. rewrite lookup_app_l by len. by rewrite lookup_take_lt.
Qed.

Lemma lookup_inserted_after xs pos x i :
  pos ≤ i → pos ≤ length xs →
  (take pos xs ++ x :: drop pos xs) !! S i = xs !! i.
Proof.
  intros H Hpos. rewrite lookup_app_r by len.
  rewrite length_take, Nat.min_l by lia.
  replace (S i - pos) with (S (i - pos)) by lia. simpl.
  rewrite lookup_drop. f_equal. lia.
Qed.

Section regular_methods.

Context (default_value : T) (HR : Regular ops default_value).

Lemma ReallocatePartial_regular xs spre spost dpre dmid dpost w :
  length dmid = length xs →
  ∃ ls u, length ls = length xs ∧
    ReallocatePartial ops (spre ++ (Some <$> xs) ++ spost) (length spre)
      (length xs) (dpre ++ dmid ++ dpost) (length dpre) w
    = Normal () (spre ++ (Some <$> ls) ++ spost,
                 dpre ++ (Some <$> xs) ++ dpost, (u, w.2 ++
                   ((if relocate_by_move ops then MoveConstructed
                     else CopyConstructed) <$> xs))).
Proof.
  intros Hlen. unfold ReallocatePartial, uninitialized_move_n,
    uninitialized_copy_n.
  destruct (relocate_by_move ops).
  - destruct (uninitialized_move_loop_regular _ HR xs spre spost dpre dmid
                dpost (length dpre) w Hlen) as (ls & u & Hls & ->).
    by exists ls, u.
  - destruct (uninitialized_copy_loop_regular _ HR xs spre spost dpre dmid
                dpost (length dpre) w Hlen) as (u & ->).
    by exists xs, u.
Qed.

Lemma ReallocateData_regular xs k dpost nc w :
  ∃ w', ReallocateData ops (vector_of xs k)
          (mkRawMemory (replicate (length xs) None ++ dpost) nc) w
        = Normal ()
            (mkVector (mkRawMemory ((Some <$> xs) ++ dpost) nc) (length xs),
             mkRawMemory (replicate (length xs + k) None) (length xs + k),
             w').
Proof.
  unfold ReallocateData, uninitialized_move_n, uninitialized_copy_n,
    vector_of, cells. simpl.
  destruct (relocate_by_move ops).
  - destruct (uninitialized_move_loop_regular _ HR xs [] (replicate k None)
                [] (replicate (length xs) None) dpost 0 w)
      as (ls & u & Hls & Hrun); [by rewrite length_replicate|].
    simpl in Hrun. rewrite Hrun. clear Hrun.
    destruct (destroy_n_live ls [] (replicate k None)
                (u, w.2 ++ (MoveConstructed <$> xs))) as [u' Hrun].
    simpl in Hrun. rewrite Hls in Hrun. rewrite Hrun.
    eexists. by rewrite replicate_add.
  - destruct (uninitialized_copy_loop_regular _ HR xs [] (replicate k None)
                [] (replicate (length xs) None) dpost 0 w)
      as (u & Hrun); [by rewrite length_replicate|].
    simpl in Hrun. rewrite Hrun. clear Hrun.
    destruct (destroy_n_live xs [] (replicate k None)
                (u, w.2 ++ (CopyConstructed <$> xs))) as [u' Hrun].
    simpl in Hrun. rewrite Hrun.
    eexists. by rewrite replicate_add.
Qed.

Lemma EmplaceBack_vector_of xs k ctor x w :
  new_bounded SIZE_MAX ops →
  fits SIZE_MAX ops (length xs + k) →
  builds ctor x →
  (k = 0 → granted SIZE_MAX ops (1 `max` (2 * length xs)) w) →
  ∃ w', EmplaceBack SIZE_MAX ops ctor (vector_of xs k) w
        = Normal (length xs)
            (vector_of (xs ++ [x])
               (if bool_decide (k = 0)
                then 1 `max` (2 * length xs) - S (length xs) else k - 1),
             w').
Proof.
  intros Hnb Hf Hx Hg. pose proof (proj1 (fits_bound _ Hf)) as Hb.
  unfold EmplaceBack, Capacity, RawMemory_Capacity.
  cbn [vector_of size_ data_ capacity_ buffer_].
  destruct k as [|k].
  - rewrite bool_decide_eq_false_2 by lia.
    rewrite (bool_decide_eq_true_2 (0 = 0)) by done.
    set (nc := if bool_decide (length xs = 0) then 1
               else wrap SIZE_MAX ((length xs + 0) * 2)).
    assert (nc = 1 `max` (2 * length xs)) as Hnc.
    { unfold nc. case_bool_decide; [lia|]. rewrite wrap_small; lia. }
    clearbody nc. subst nc. specialize (Hg eq_refl).
    destruct (granted_growth (length xs + 0) (1 `max` (2 * length xs)) w
                Hnb Hf ltac:(lia) ltac:(lia) Hg) as (Hreq & _ & Hnew).
    destruct (RawMemory_sized_granted (1 `max` (2 * length xs)) w
                ltac:(lia) Hreq Hg) as [u ->].
    set (nc := 1 `max` (2 * length xs)) in *.
    cbn [buffer_ capacity_]. unfold construct_at.
    rewrite (replicate_split_S None (length xs) nc) by lia.
    rewrite in_range_at by len. cbn [fst snd].
    destruct (Hx u) as [u1 ->].
    rewrite insert_at by len.
    destruct (ReallocateData_regular xs 0
                (Some x :: replicate (nc - S (length xs)) None) nc
                (log (Constructed x) u1 (u, w.2))) as [w' ->].
    cbn [with_size size_ data_ capacity_].
    rewrite wrap_small by lia. rewrite wrap_sub_small by lia.
    rewrite bool_decide_eq_true_2 by lia.
    exists w'. f_equal; [lia|]. f_equal. apply vector_of_eq.
    + by rewrite cells_snoc.
    + len.
    + len.
  - rewrite bool_decide_eq_true_2 by lia.
    rewrite (bool_decide_eq_false_2 (S k = 0)) by done.
    unfold construct_at, cells. csimpl.
    rewrite in_range_at by len.
    destruct (Hx w.1) as [u1 ->].
    rewrite insert_at by len.
    cbn [with_size with_buffer size_ data_ capacity_].
    rewrite wrap_small by lia. rewrite wrap_sub_small by lia.
    rewrite bool_decide_eq_true_2 by lia.
    eexists. f_equal; [lia|]. f_equal. apply vector_of_eq.
    + by rewrite cells_snoc, Nat.sub_0_r.
    + len.
    + len.
Qed.

Lemma Emplace_in_place xs1 mid l k ctor x w :
  2 * (length (xs1 ++ mid ++ [l]) + S k) ≤ SIZE_MAX →
  builds ctor x →
  ∃ w', Emplace SIZE_MAX ops (length xs1) ctor
          (vector_of (xs1 ++ mid ++ [l]) (S k)) w
        = Normal (length xs1) (vector_of (xs1 ++ x :: mid ++ [l]) k, w').
Proof.
  intros Hb Hx. unfold Emplace, Capacity, RawMemory_Capacity, vector_of, cells.
  cbn [size_ data_ capacity_ buffer_].
  rewrite bool_decide_eq_false_2 by len.
  rewrite bool_decide_eq_true_2 by len.
  destruct (Hx w.1) as [u ->].
  rewrite !length_app in Hb. simpl in Hb.
  replace (length (xs1 ++ mid ++ [l])) with (S (length xs1 + length mid))
    by len.
  rewrite !fmap_app, <- !app_assoc. csimpl.
  rewrite (app_assoc (Some <$> xs1)).
  unfold move_construct_slot.
  rewrite in_range_at_S, live_at by len.
  cbn [fst snd log].
  destruct (regular_move _ _ HR l u) as (l' & u2 & ->).
  rewrite insert_at, insert_at_S by len.
  rewrite bool_decide_eq_true_2 by lia.
  replace (length xs1 + length mid - length xs1) with (length mid) by lia.
  rewrite <- app_assoc.
  destruct (move_backward_regular _ HR mid (Some <$> xs1) l'
              (Some l :: replicate k None)
              (log (MoveConstructed l) u2 (log (Constructed x) u w)))
    as (l2 & u3 & Hrun).
  rewrite length_fmap in Hrun.
  rewrite Hrun. clear Hrun.
  rewrite bool_decide_eq_true_2 by lia.
  unfold move_assign_from_local.
  rewrite live_at by len. cbn [fst snd].
  destruct (regular_move_assign _ _ HR l2 x u3) as (x' & u4 & ->).
  rewrite insert_at by len.
  unfold with_size, with_buffer. cbn [size_ data_ capacity_].
  rewrite wrap_small by lia.
  eexists. do 2 f_equal. apply Vector_eq; [|len|len].
  by rewrite fmap_app, <- !app_assoc.
Qed.

Lemma ReallocatePartial_regular_at src first count dst d_first w
    xs spre spost dpre dmid dpost :
  src = spre ++ (Some <$> xs) ++ spost → first = length spre →
  count = length xs →
  dst = dpre ++ dmid ++ dpost → d_first = length dpre →
  length dmid = length xs →
  ∃ ls u, length ls = length xs ∧
    ReallocatePartial ops src first count dst d_first w
    = Normal () (spre ++ (Some <$> ls) ++ spost,
                 dpre ++ (Some <$> xs) ++ dpost, (u, w.2 ++
                   ((if relocate_by_move ops then MoveConstructed
                     else CopyConstructed) <$> xs))).
Proof.
  intros -> -> -> -> -> Hlen. by apply ReallocatePartial_regular.
Qed.

Lemma destroy_n_live_at b first n w xs pre post :
  b = pre ++ (Some <$> xs) ++ post → first = length pre → n = length xs →
  ∃ u, destroy_n ops b first n w
       = Normal () (pre ++ replicate (length xs) None ++ post,
                    (u, w.2 ++ (Destroyed <$> xs))).
Proof. intros -> -> ->. apply destroy_n_live. Qed.

Lemma Emplace_realloc xs1 xs2 ctor x w :
  xs2 ≠ [] →
  new_bounded SIZE_MAX ops →
  fits SIZE_MAX ops (length (xs1 ++ xs2)) →
  builds ctor x →
  granted SIZE_MAX ops (2 * length (xs1 ++ xs2)) w →
  ∃ w', Emplace SIZE_MAX ops (length xs1) ctor (vector_of (xs1 ++ xs2) 0) w
        = Normal (length xs1)
            (vector_of (xs1 ++ x :: xs2)
               (2 * length (xs1 ++ xs2) - S (length (xs1 ++ xs2))), w').
Proof.
  intros Hne Hnb Hf Hx Hg. pose proof (proj1 (fits_bound _ Hf)) as Hb.
  assert (0 < length xs2) by (destruct xs2; [done|simpl; lia]).
  assert (0 < length (xs1 ++ xs2)) by len.
  destruct (granted_growth (length (xs1 ++ xs2)) (2 * length (xs1 ++ xs2)) w
              Hnb Hf ltac:(lia) ltac:(lia) Hg) as (Hreq & _ & Hnew).
  unfold Emplace, Capacity, RawMemory_Capacity, vector_of.
  cbn [size_ data_ capacity_ buffer_].
  rewrite bool_decide_eq_false_2 by len.
  rewrite bool_decide_eq_false_2 by len.
  rewrite bool_decide_eq_false_2 by len.
  rewrite wrap_small by lia.
  replace ((length (xs1 ++ xs2) + 0) * 2) with (2 * length (xs1 ++ xs2))
    by lia.
  set (n := length (xs1 ++ xs2)) in *.
  assert (n = length xs1 + length xs2) as Hn by (unfold n; len).
  destruct (RawMemory_sized_granted (2 * n) w ltac:(lia) Hreq Hg) as [u ->].
  cbn [buffer_ capacity_]. unfold construct_at.
  rewrite (replicate_split_S None (length xs1) (2 * n)) by lia.
  rewrite in_range_at by len. cbn [fst snd].
  destruct (Hx u) as [u1 ->].
  rewrite insert_at by len.
  match goal with
  | |- context [ReallocatePartial ops ?src ?f ?c ?dst ?d ?w] =>
      destruct (ReallocatePartial_regular_at src f c dst d w xs1 []
                  ((Some <$> xs2) ++ replicate 0 None) []
                  (replicate (length xs1) None)
                  (Some x :: replicate (2 * n - S (length xs1)) None))
        as (ls1 & u2 & Hls1 & ->);
      [by unfold cells; rewrite fmap_app, <- app_assoc
      |done|done|done|done|len|]
  end.
  rewrite wrap_sub_small by lia.
  match goal with
  | |- context [ReallocatePartial ops ?src ?f ?c ?dst ?d ?w] =>
      destruct (ReallocatePartial_regular_at src f c dst d w xs2
                  (Some <$> ls1) [] ((Some <$> xs1) ++ [Some x])
                  (replicate (length xs2) None)
                  (replicate (2 * n - S n) None))
        as (ls2 & u3 & Hls2 & ->)
  end.
  1: done. 1: len. 1: lia. 2: len. 2: len.
  { csimpl. rewrite <- app_assoc. csimpl. do 2 f_equal.
    rewrite <- replicate_add. f_equal. lia. }
  match goal with
  | |- context [destroy_n ops ?b ?f ?c ?w] =>
      destruct (destroy_n_live_at b f c w (ls1 ++ ls2) [] [])
        as (u4 & ->);
      [by csimpl; rewrite fmap_app, <- app_assoc|done|len|]
  end.
  cbn [RawMemory_Swap buffer_ capacity_].
  rewrite wrap_small by lia.
  eexists. do 2 f_equal. apply Vector_eq; [|len|len].
  unfold cells. by rewrite fmap_app, <- !app_assoc.
Qed.

Lemma Emplace_vector_of xs k pos ctor x w :
  new_bounded SIZE_MAX ops →
  fits SIZE_MAX ops (length xs + k) →
  builds ctor x →
  pos ≤ length xs →
  (k = 0 → granted SIZE_MAX ops (1 `max` (2 * length xs)) w) →
  ∃ w', Emplace SIZE_MAX ops pos ctor (vector_of xs k) w
        = Normal pos
            (vector_of (take pos xs ++ x :: drop pos xs)
               (if bool_decide (k = 0)
                then 1 `max` (2 * length xs) - S (length xs) else k - 1),
             w').
Proof.
  intros Hnb Hf Hx Hpos Hg. pose proof (proj1 (fits_bound _ Hf)) as Hb.
  destruct (decide (pos = length xs)) as [->|Hne].
  - rewrite take_ge, drop_ge by lia.
    destruct (EmplaceBack_vector_of xs k ctor x w) as [w' Hrun]; [done..|].
    exists w'. unfold Emplace. cbn [vector_of size_].
    by rewrite bool_decide_eq_true_2.
  - assert (xs = take pos xs ++ drop pos xs) as Hxs
      by (by rewrite take_drop).
    assert (length (take pos xs) = pos) as Hlen by len.
    assert (drop pos xs ≠ []) as Hdrop.
    { intros Hnil. apply (f_equal length) in Hnil.
      rewrite length_drop in Hnil. simpl in Hnil. lia. }
    revert Hdrop Hxs Hlen.
    generalize (take pos xs) (drop pos xs). intros xs1 xs2 Hdrop -> <-.
    clear Hpos Hne. destruct k as [|k].
    + rewrite (bool_decide_eq_true_2 (0 = 0)) by done.
      specialize (Hg eq_refl).
      replace (1 `max` (2 * length (xs1 ++ xs2)))
        with (2 * length (xs1 ++ xs2)) in *
        by (destruct xs2; [done|]; rewrite length_app; simpl; lia).
      rewrite Nat.add_0_r in Hf.
      apply Emplace_realloc; [done|done|done|done|done].
    + rewrite (bool_decide_eq_false_2 (S k = 0)) by done.
      rewrite Nat.sub_1_r. cbn [Nat.pred].
      destruct xs2 as [|l mid _] using rev_ind; [done|].
      by apply Emplace_in_place.
Qed.

Lemma builds_by_copy x : builds (by_copy ops x) x.
Proof. intros u. apply (regular_copy _ _ HR). Qed.

Lemma builds_by_move x : builds (by_move ops x) x.
Proof.
  intros u. unfold by_move.
  destruct (regular_move _ _ HR x u) as (x' & u' & ->). by exists u'.
Qed.

Lemma insertion_builds pos x op :
  insertion SIZE_MAX ops pos x op →
  ∃ ctor, builds ctor x ∧ op = Emplace SIZE_MAX ops pos ctor.
Proof.
  intros [ctor Hx| |].
  - by exists ctor.
  - exists (by_copy ops x). split; [apply builds_by_copy|done].
  - exists (by_move ops x). split; [apply builds_by_move|done].
Qed.

(** C6: [Insert(pos, x)] and [Emplace(pos, args...)] at a position [pos]
    in [begin(), end()] of a valid vector return [pos], put a new element
    equal to [x] at [pos], leave the elements before [pos] in place, move
    those from [pos] onward one slot to the right and increase the size by
    exactly one.  The element type is regular, and the memory system grants
    the new storage when the vector is full. *)
Theorem Insert_places_element pos x op v w :
  new_bounded SIZE_MAX ops →
  valid SIZE_MAX ops v →
  pos ≤ Size v →
  (Size v = Capacity v → granted SIZE_MAX ops (1 `max` (2 * Capacity v)) w) →
  insertion SIZE_MAX ops pos x op →
  ∃ v' w',
    op v w = Normal pos (v', w') ∧
    valid SIZE_MAX ops v' ∧
    Size v' = S (Size v) ∧
    subscript v' pos = Some x ∧
    (∀ i, i < pos → subscript v' i = subscript v i) ∧
    (∀ i, pos ≤ i → subscript v' (S i) = subscript v i) ∧
    elements v' = take pos (elements v) ++ x :: drop pos (elements v).
Proof.
  intros Hnb Hv Hpos Hg Hop.
  destruct (insertion_builds pos x op Hop) as (ctor & Hx & ->).
  pose proof (Size_elements v Hv) as Hsize.
  destruct (valid_canonical_fits v Hv) as [Heq Hf].
  assert (Capacity v = length (elements v) + (Capacity v - Size v)) as Hcap
    by (destruct Hv as (? & _); unfold Capacity, RawMemory_Capacity,
          Size in *; lia).
  pose proof (subscript_elements v) as Hsub.
  revert Hsize Heq Hf Hcap Hsub.
  generalize (elements v) (Capacity v - Size v).
  intros xs k Hsize Heq Hf Hcap Hsub.
  pose proof (proj1 (fits_bound _ Hf)) as Hb.
  destruct (Emplace_vector_of xs k pos ctor x w) as [w' Hrun];
    [done|done|done|lia| |].
  { intros ->. rewrite Hcap, Hsize, Nat.add_0_r in Hg. by apply Hg; lia. }
  set (k' := if bool_decide (k = 0)
             then 1 `max` (2 * length xs) - S (length xs) else k - 1) in *.
  assert (fits SIZE_MAX ops (length (take pos xs ++ x :: drop pos xs) + k')).
  { replace (length (take pos xs ++ x :: drop pos xs)) with (S (length xs))
      by len.
    unfold k'. case_bool_decide as Hk; [|eapply fits_le; [exact Hf|lia]].
    subst k.
    assert (granted SIZE_MAX ops (1 `max` (2 * length xs)) w) as Hgr.
    { rewrite Hcap, Hsize, Nat.add_0_r in Hg. by apply Hg; lia. }
    destruct (granted_growth (length xs + 0) (1 `max` (2 * length xs)) w
                Hnb Hf ltac:(lia) ltac:(lia) Hgr) as (_ & Hfn & _).
    eapply fits_le; [exact Hfn|lia]. }
  exists (vector_of (take pos xs ++ x :: drop pos xs) k'), w'.
  rewrite Heq at 1. split; [done|].
  split; [by apply valid_vector_of|].
  split; [rewrite Hsize; unfold Size, vector_of; cbn [size_]; len|].
  rewrite elements_vector_of.
  split; [rewrite subscript_vector_of; apply lookup_inserted_at; lia|].
  split.
  { intros i Hi. rewrite subscript_vector_of, Hsub by done.
    apply lookup_inserted_before; lia. }
  split; [|done].
  intros i Hi. rewrite subscript_vector_of, Hsub by done.
  apply lookup_inserted_after; lia.
Qed.

Lemma move_range_regular_at b first count d_first w xs pre d post :
  b = pre ++ Some d :: (Some <$> xs) ++ post → first = S (length pre) →
  count = length xs → d_first = length pre →
  ∃ l u, move_range ops b first count d_first w
         = Normal () (pre ++ (Some <$> xs) ++ Some l :: post,
                      (u, w.2 ++ (MoveAssigned <$> xs))).
Proof. intros -> -> -> ->. by apply (move_range_regular _ HR). Qed.

Lemma Erase_vector_of xs1 d xs2 k w :
  2 * (length (xs1 ++ d :: xs2) + k) ≤ SIZE_MAX →
  ∃ l u, Erase SIZE_MAX ops (length xs1) (vector_of (xs1 ++ d :: xs2) k) w
         = Normal (length xs1)
             (vector_of (xs1 ++ xs2) (S k),
              (u, w.2 ++ (MoveAssigned <$> xs2) ++ [Destroyed l])).
Proof.
  intros Hb. rewrite length_app, length_cons in Hb.
  unfold Erase, vector_of, cells. cbn [size_ data_ capacity_ buffer_].
  replace (length (xs1 ++ d :: xs2)) with (S (length xs1 + length xs2))
    by len.
  rewrite bool_decide_eq_true_2 by lia.
  match goal with
  | |- context [move_range ops ?b ?f ?c ?df ?w] =>
      destruct (move_range_regular_at b f c df w xs2 (Some <$> xs1) d
                  (replicate k None)) as (l & u1 & ->);
      [by rewrite fmap_app, <- app_assoc|len|len|len|]
  end.
  unfold destroy_at. rewrite (app_assoc (Some <$> xs1)).
  rewrite live_at by len. rewrite insert_at by len.
  unfold with_size, with_buffer. cbn [size_ data_ capacity_ fst snd].
  rewrite wrap_sub_small by lia.
  exists l, (dtor ops l u1). f_equal. f_equal.
  - apply Vector_eq; [|len|len]. by rewrite fmap_app.
  - unfold log. cbn [fst snd]. by rewrite <- app_assoc.
Qed.

(** C7: [Erase(pos)] at a position [pos] in [begin(), end()) of a valid
    (hence non-empty) vector of regular elements returns [pos], reduces the
    size by exactly one, leaves the elements before [pos] unchanged and
    moves every element after [pos] down by one position, so the element
    formerly at [pos + 1] is at [pos]. *)
Theorem Erase_shifts_left pos v w :
  valid SIZE_MAX ops v →
  pos < Size v →
  ∃ v' w',
    Erase SIZE_MAX ops pos v w = Normal pos (v', w') ∧
    valid SIZE_MAX ops v' ∧
    S (Size v') = Size v ∧
    (∀ i, i < pos → subscript v' i = subscript v i) ∧
    (∀ i, pos ≤ i → subscript v' i = subscript v (S i)) ∧
    elements v' = delete pos (elements v).
Proof.
  intros Hv Hpos.
  pose proof (Size_elements v Hv) as Hsize.
  destruct (valid_canonical_fits v Hv) as [Heq Hf].
  pose proof (subscript_elements v) as Hsub.
  revert Hsize Heq Hf Hsub.
  generalize (elements v) (Capacity v - Size v).
  intros xs k Hsize Heq Hf Hsub.
  pose proof (proj1 (fits_bound _ Hf)) as Hb.
  destruct (lookup_lt_is_Some_2 xs pos) as [d Hd]; [lia|].
  pose proof (take_drop_middle xs pos d Hd) as Hxs.
  assert (length (take pos xs) = pos) as Hlen by len.
  rewrite delete_take_drop.
  revert Hxs Hlen. generalize (take pos xs) (drop (S pos) xs).
  intros xs1 xs2 <- <-.
  destruct (Erase_vector_of xs1 d xs2 k w Hb) as (l & u & Hrun).
  eexists _, _. rewrite Heq at 1. split; [exact Hrun|].
  split; [apply valid_vector_of; eapply fits_le; [exact Hf|len]|].
  split; [rewrite Hsize; unfold Size, vector_of; cbn [size_]; len|].
  rewrite elements_vector_of. split; [|split; [|done]].
  - intros i Hi. rewrite subscript_vector_of, Hsub by done.
    by rewrite !lookup_app_l by lia.
  - intros i Hi. rewrite subscript_vector_of, Hsub by done.
    rewrite !lookup_app_r by lia.
    by replace (S i - length xs1) with (S (i - length xs1)) by lia.
Qed.

Lemma Reserve_vector_of xs k n w :
  (length xs + k < n →
   n * sizeof ops ≤ SIZE_MAX ∧ granted SIZE_MAX ops n w) →
  ∃ w', Reserve SIZE_MAX ops n (vector_of xs k) w
        = Normal ()
            (vector_of xs
               (if bool_decide (n ≤ length xs + k) then k else n - length xs),
             w').
Proof.
  intros Hg. unfold Reserve, Capacity, RawMemory_Capacity.
  cbn [vector_of size_ data_ capacity_].
  case_bool_decide as Hn; [by exists w|].
  destruct (Hg ltac:(lia)) as [Hle Hgr].
  destruct (RawMemory_sized_granted n w ltac:(lia) Hle Hgr) as [u ->].
  rewrite (replicate_split None (length xs) n) by lia.
  destruct (ReallocateData_regular xs k (replicate (n - length xs) None) n
              (u, w.2)) as [w' ->].
  exists w'. do 2 f_equal. apply Vector_eq; [done|lia|done].
Qed.

Lemma uninitialized_value_construct_n_at b first count w pre mid post :
  b = pre ++ mid ++ post → first = length pre → length mid = count →
  ∃ u, uninitialized_value_construct_n ops b first count w
       = Normal ()
           (pre ++ replicate count (Some default_value) ++ post,
            (u, w.2 ++ replicate count (Constructed default_value))).
Proof.
  intros -> -> Hlen.
  by apply (uninitialized_value_construct_loop_regular _ HR).
Qed.

Lemma fmap_replicate_Some n x :
  replicate n (Some x) = Some <$> replicate n x.
Proof. by rewrite fmap_replicate. Qed.




Lemma copy_n_regular_at src first count dst res w xs spre spost dpre ds dpost :
  src = spre ++ (Some <$> xs) ++ spost → first = length spre →
  count = length xs →
  dst = dpre ++ (Some <$> ds) ++ dpost → res = length dpre →
  length ds = length xs →
  ∃ u, copy_n ops src first count dst res w
       = Normal (length dpre + length xs)
           (dpre ++ (Some <$> xs) ++ dpost,
            (u, w.2 ++ (CopyAssigned <$> xs))).
Proof. intros -> -> -> -> -> Hlen. by apply (copy_n_regular _ HR). Qed.

Lemma uninitialized_copy_n_regular_at src first count dst d_first w
    xs spre spost dpre dmid dpost :
  src = spre ++ (Some <$> xs) ++ spost → first = length spre →
  count = length xs →
  dst = dpre ++ dmid ++ dpost → d_first = length dpre →
  length dmid = length xs →
  ∃ u, uninitialized_copy_n ops src first count dst d_first w
       = Normal (length dpre + length xs)
           (dpre ++ (Some <$> xs) ++ dpost,
            (u, w.2 ++ (CopyConstructed <$> xs))).
Proof.
  intros -> -> -> -> -> Hlen.
  by apply (uninitialized_copy_loop_regular _ HR).
Qed.

Lemma RawMemory_sized_zero w :
  RawMemory_sized SIZE_MAX ops 0 w = Normal (mkRawMemory [] 0) w.
Proof.
  unfold RawMemory_sized, Allocate.
  by rewrite bool_decide_eq_false_2 by lia.
Qed.

Lemma Vector_copy_vector_of ys j w :
  length ys * sizeof ops ≤ SIZE_MAX →
  (ys ≠ [] → granted SIZE_MAX ops (length ys) w) →
  ∃ u, Vector_copy SIZE_MAX ops (vector_of ys j) w
       = Normal (vector_of ys 0) (u, w.2 ++ (CopyConstructed <$> ys)).
Proof.
  intros Hle Hg. unfold Vector_copy.
  cbn [vector_of size_ data_ buffer_].
  assert (∃ u, RawMemory_sized SIZE_MAX ops (length ys) w
               = Normal (mkRawMemory (replicate (length ys) None)
                           (length ys)) (u, w.2)) as [u ->].
  { destruct (decide (length ys = 0)) as [H0|Hne].
    - exists w.1. rewrite H0, RawMemory_sized_zero. by destruct w.
    - apply RawMemory_sized_granted; [done|done|].
      apply Hg. by intros ->. }
  cbn [buffer_ capacity_].
  match goal with
  | |- context [uninitialized_copy_n ops ?src ?f ?c ?dst ?d ?w] =>
      destruct (uninitialized_copy_n_regular_at src f c dst d w ys []
                  (replicate j None) [] (replicate (length ys) None) [])
        as [u1 ->]; [done|done|done|by rewrite app_nil_r|done|len|]
  end.
  exists u1. f_equal. apply Vector_eq; [|len|done].
  unfold cells. by csimpl.
Qed.

Lemma assign_from_vector_of xs k ys j w :
  length ys * sizeof ops ≤ SIZE_MAX →
  (length xs + k < length ys → granted SIZE_MAX ops (length ys) w) →
  ∃ u, assign_from SIZE_MAX ops (vector_of xs k) (vector_of ys j) w
       = Normal ()
           (vector_of ys
              (if bool_decide (length xs + k < length ys) then 0
               else length xs + k - length ys),
            (u, w.2 ++
               (if bool_decide (length xs + k < length ys)
                then (CopyConstructed <$> ys) ++ (Destroyed <$> xs)
                else (CopyAssigned <$> take (length xs) ys) ++
                     (Destroyed <$> drop (length ys) xs) ++
                     (CopyConstructed <$> drop (length xs) ys)))).
Proof.
  intros Hle Hg. unfold assign_from.
  cbn [vector_of size_ data_ capacity_ buffer_].
  case_bool_decide as Hcap.
  - change (mkVector (mkRawMemory (cells ys j) _) _) with (vector_of ys j).
    destruct (Vector_copy_vector_of ys j w) as [u1 ->]; [done|auto|].
    unfold Swap, RawMemory_Swap, Vector_destroy.
    cbn [vector_of size_ data_ capacity_ buffer_].
    match goal with
    | |- context [destroy_n ops ?b ?f ?c ?w] =>
        destruct (destroy_n_live_at b f c w xs [] (replicate k None))
          as [u2 ->]; [done..|]
    end.
    exists u2. do 3 f_equal. cbn [snd]. by rewrite <- app_assoc.
  - case_bool_decide as Hlt.
    + match goal with
      | |- context [copy_n ops ?src ?f ?c ?dst ?r ?w] =>
          destruct (copy_n_regular_at src f c dst r w ys [] (replicate j None)
                      [] (take (length ys) xs)
                      ((Some <$> drop (length ys) xs) ++ replicate k None))
            as [u1 ->]; [done|done|done| |done|len|]
      end.
      { unfold cells. by rewrite <- (take_drop (length ys) xs) at 1;
          rewrite fmap_app, <- app_assoc. }
      match goal with
      | |- context [destroy_n ops ?b ?f ?c ?w] =>
          destruct (destroy_n_live_at b f c w (drop (length ys) xs)
                      (Some <$> ys) (replicate k None))
            as [u2 ->]; [done|len|len|]
      end.
      exists u2. f_equal. f_equal.
      * unfold with_size, with_buffer. cbn [vector_of size_ data_ capacity_].
        apply Vector_eq; [|lia|done].
        unfold cells. rewrite <- replicate_add. do 2 f_equal. len.
      * cbn [snd]. rewrite take_ge, (drop_ge ys) by lia.
        by rewrite <- !app_assoc, app_nil_r.
    + match goal with
      | |- context [copy_n ops ?src ?f ?c ?dst ?r ?w] =>
          destruct (copy_n_regular_at src f c dst r w (take (length xs) ys)
                      [] ((Some <$> drop (length xs) ys) ++ replicate j None)
                      [] xs (replicate k None))
            as [u1 ->]; [|done|len|done|done|len|]
      end.
      { unfold cells. by rewrite <- (take_drop (length xs) ys) at 1;
          rewrite fmap_app, <- app_assoc. }
      match goal with
      | |- context [uninitialized_copy_n ops ?src ?f ?c ?dst ?d ?w] =>
          destruct (uninitialized_copy_n_regular_at src f c dst d w
                      (drop (length xs) ys) (Some <$> take (length xs) ys)
                      (replicate j None) (Some <$> take (length xs) ys)
                      (replicate (length ys - length xs) None)
                      (replicate (length xs + k - length ys) None))
            as [u2 ->]; [|len|len| |len|len|]
      end.
      { unfold cells. by rewrite <- (take_drop (length xs) ys) at 1;
          rewrite fmap_app, <- app_assoc. }
      { csimpl. rewrite <- replicate_add. do 2 f_equal. lia. }
      exists u2. f_equal. f_equal.
      * unfold with_size, with_buffer. cbn [vector_of size_ data_ capacity_].
        apply Vector_eq; [|lia|done].
        unfold cells. rewrite app_assoc, <- fmap_app, take_drop. done.
      * cbn [snd]. rewrite (drop_ge xs) by lia.
        by rewrite <- !app_assoc.
Qed.

Lemma push_all_growth xs : ∀ ys k w,
  new_bounded SIZE_MAX ops →
  plentiful ops (growth (length ys + length xs)) →
  length ys + k = growth (length ys) →
  ∃ k' w',
    push_all SIZE_MAX ops xs (vector_of ys k) w
    = ((λ i, (i, growth i)) <$> seq (S (length ys)) (length xs),
       Normal () (vector_of (ys ++ xs) k', w')) ∧
    length (ys ++ xs) + k' = growth (length (ys ++ xs)).
Proof.
  induction xs as [|x xs IH]; intros ys k w Hnb Hpl Hk.
  - exists k, w. by rewrite app_nil_r.
  - cbn [push_all]. unfold PushBack.
    assert (fits SIZE_MAX ops (length ys + k)) as Hf.
    { rewrite Hk. unfold fits.
      apply (plentiful_granted _ (1 `max` growth (length ys)) w Hnb Hpl).
      pose proof (growth_mono (length ys) (length ys + length (x :: xs))
                    ltac:(lia)).
      pose proof (growth_ge (length ys + length (x :: xs))).
      simpl in *. lia. }
    assert (k = 0 → granted SIZE_MAX ops (1 `max` (2 * length ys)) w) as Hg.
    { intros ->. apply (plentiful_granted _ _ w Hnb Hpl).
      etrans; [|apply (growth_mono (S (length ys))); simpl; lia].
      rewrite growth_S, bool_decide_eq_false_2 by lia. lia. }
    destruct (EmplaceBack_vector_of ys k (by_copy ops x) x w)
      as [w1 ->]; [done|done|apply builds_by_copy|done|].
    cbn [discard].
    set (k1 := if bool_decide (k = 0)
               then 1 `max` (2 * length ys) - S (length ys) else k - 1).
    assert (length (ys ++ [x]) + k1 = growth (length (ys ++ [x]))) as Hk1.
    { rewrite length_app. simpl. rewrite Nat.add_1_r, growth_S. unfold k1.
      case_bool_decide as Hk0; case_bool_decide; lia. }
    destruct (IH (ys ++ [x]) k1 w1) as (k' & w' & Hrun & Hk');
      [done| |done|].
    { by rewrite length_app, <- Nat.add_assoc. }
    rewrite Hrun. exists k', w'.
    rewrite <- !app_assoc in *. cbn [app] in *.
    split; [|done]. f_equal. rewrite length_cons. cbn [seq]. csimpl.
    unfold Size, Capacity, RawMemory_Capacity, vector_of.
    cbn [size_ data_ capacity_]. rewrite Hk1.
    replace (length (ys ++ [x])) with (S (length ys)) by len. done.
Qed.

Lemma EmplaceBack_appends ctor x v w :
  new_bounded SIZE_MAX ops →
  valid SIZE_MAX ops v →
  builds ctor x →
  (Size v = Capacity v → granted SIZE_MAX ops (1 `max` (2 * Capacity v)) w) →
  ∃ v' w',
    EmplaceBack SIZE_MAX ops ctor v w = Normal (Size v) (v', w') ∧
    valid SIZE_MAX ops v' ∧
    elements v' = elements v ++ [x] ∧
    Size v' = S (Size v) ∧
    Capacity v' = if bool_decide (Size v < Capacity v) then Capacity v
                  else 1 `max` (2 * Capacity v).
Proof.
  intros Hnb Hv Hx Hg.
  pose proof (Size_elements v Hv) as Hsize.
  destruct (valid_canonical_fits v Hv) as [Heq Hf].
  assert (Capacity v = length (elements v) + (Capacity v - Size v)) as Hcap
    by (destruct Hv as (? & _); unfold Capacity, RawMemory_Capacity,
          Size in *; lia).
  revert Hsize Heq Hf Hcap.
  generalize (elements v) (Capacity v - Size v).
  intros xs k Hsize Heq Hf Hcap.
  pose proof (proj1 (fits_bound _ Hf)) as Hb.
  assert (k = 0 → granted SIZE_MAX ops (1 `max` (2 * length xs)) w) as Hg'.
  { intros ->. rewrite Hcap, Hsize, Nat.add_0_r in Hg. by apply Hg. }
  destruct (EmplaceBack_vector_of xs k ctor x w) as [w' Hrun]; [done..|].
  rewrite Hsize, Hcap.
  eexists _, _. rewrite Heq at 1. split; [exact Hrun|].
  split.
  { apply valid_vector_of. rewrite length_app. simpl.
    case_bool_decide as Hk; [|eapply fits_le; [exact Hf|lia]].
    subst k.
    destruct (granted_growth (length xs + 0) (1 `max` (2 * length xs)) w
                Hnb Hf ltac:(lia) ltac:(lia) (Hg' eq_refl))
      as (_ & Hfn & _).
    eapply fits_le; [exact Hfn|lia]. }
  rewrite elements_vector_of.
  unfold Size, Capacity, RawMemory_Capacity, vector_of.
  cbn [size_ data_ capacity_]. rewrite length_app. simpl.
  split; [done|split; [lia|]].
  case_bool_decide as Hk; case_bool_decide; lia.
Qed.

End regular_methods.

(** ** Relocation by copy, for any element type *)

Section copy_mode.

Hypothesis Hmode : relocate_by_move ops = false.

Lemma uninitialized_copy_n_spec src first count dst d_first w
    xs spre spost dpre dpost :
  src = spre ++ (Some <$> xs) ++ spost → first = length spre →
  count = length xs →
  dst = dpre ++ replicate (length xs) None ++ dpost →
  d_first = length dpre →
  match uninitialized_copy_n ops src first count dst d_first w with
  | Normal r (dst', w') =>
      r = length dpre + length xs ∧
      ∃ ys, length ys = length xs ∧
        dst' = dpre ++ (Some <$> ys) ++ dpost ∧
        w'.2 = w.2 ++ (CopyConstructed <$> ys)
  | Throws e (dst', w') =>
      dst' = dst ∧
      ∃ ys, length ys < length xs ∧
        w'.2 = w.2 ++ (CopyConstructed <$> ys) ++ (Destroyed <$> ys)
  | Undefined => False
  end.
Proof.
  intros -> -> -> -> ->. unfold uninitialized_copy_n.
  pose proof (uninitialized_copy_loop_spec xs spre spost dpre []
                (replicate (length xs) None) dpost w
                ltac:(by rewrite length_replicate)) as Hspec.
  csimpl in Hspec. rewrite Nat.add_0_r in Hspec.
  destruct (uninitialized_copy_loop ops _ _ _ _ _ _ _)
    as [r [dst' w']|e [dst' w']|]; [done| |done].
  destruct Hspec as (ys & Hys & -> & Htr). split; [|by exists ys].
  rewrite drop_replicate, (app_assoc (replicate _ _)), <- replicate_add.
  do 3 f_equal. lia.
Qed.

Lemma ReallocatePartial_copy_spec src first count dst d_first w
    xs spre spost dpre dpost :
  src = spre ++ (Some <$> xs) ++ spost → first = length spre →
  count = length xs →
  dst = dpre ++ replicate (length xs) None ++ dpost →
  d_first = length dpre →
  match ReallocatePartial ops src first count dst d_first w with
  | Normal _ (src', dst', w') =>
      src' = src ∧
      ∃ ys, length ys = length xs ∧
        dst' = dpre ++ (Some <$> ys) ++ dpost ∧
        w'.2 = w.2 ++ (CopyConstructed <$> ys)
  | Throws e (src', dst', w') =>
      src' = src ∧ dst' = dst ∧
      ∃ ys, length ys < length xs ∧
        w'.2 = w.2 ++ (CopyConstructed <$> ys) ++ (Destroyed <$> ys)
  | Undefined => False
  end.
Proof.
  intros Hsrc Hfirst Hcount Hdst Hd. unfold ReallocatePartial.
  rewrite Hmode.
  pose proof (uninitialized_copy_n_spec src first count dst d_first w
                xs spre spost dpre dpost Hsrc Hfirst Hcount Hdst Hd) as Hspec.
  destruct (uninitialized_copy_n ops _ _ _ _ _ _)
    as [r [dst' w']|e [dst' w']|]; [|done..].
  by destruct Hspec as (_ & Hspec).
Qed.

Lemma ReallocateData_copy_spec xs k dpost nc w :
  match ReallocateData ops (vector_of xs k)
          (mkRawMemory (replicate (length xs) None ++ dpost) nc) w with
  | Normal _ (v', _, w') =>
      ∃ ys, length ys = length xs ∧
        v' = mkVector (mkRawMemory ((Some <$> ys) ++ dpost) nc) (length xs) ∧
        w'.2 = w.2 ++ (CopyConstructed <$> ys) ++ (Destroyed <$> xs)
  | Throws e (v', _, w') =>
      v' = vector_of xs k ∧
      ∃ ys, length ys < length xs ∧
        w'.2 = w.2 ++ (CopyConstructed <$> ys) ++ (Destroyed <$> ys)
  | Undefined => False
  end.
Proof.
  unfold ReallocateData. rewrite Hmode.
  cbn [vector_of size_ data_ capacity_ buffer_].
  pose proof (uninitialized_copy_n_spec (cells xs k) 0 (length xs)
                (replicate (length xs) None ++ dpost) 0 w
                xs [] (replicate k None) [] dpost
                eq_refl eq_refl eq_refl eq_refl eq_refl) as Hspec.
  destruct (uninitialized_copy_n ops _ _ _ _ _ _)
    as [r [dst' w']|e [dst' w']|]; [| |done].
  - destruct Hspec as (_ & ys & Hys & -> & Htr).
    destruct (destroy_n_live xs [] (replicate k None) w') as [u Hd].
    csimpl in Hd. unfold cells. rewrite Hd. cbn [RawMemory_Swap].
    exists ys. split; [done|]. split; [done|].
    cbn [snd]. by rewrite Htr, <- app_assoc.
  - destruct Hspec as (_ & Hspec). done.
Qed.

Lemma with_buffer_id v : with_buffer v (buffer_ (data_ v)) = v.
Proof. by destruct v as [[] ?]. Qed.

(** What [Allocate] does, whatever it is asked for: the request is
    refused, or the block has the slots its bytes make up. *)
Lemma Allocate_block n w :
  (∃ u, Allocate SIZE_MAX ops n w = Throws bad_alloc (u, w.2) ∧
        n ≠ 0 ∧ ¬ granted SIZE_MAX ops n w) ∨
  (∃ u, Allocate SIZE_MAX ops n w
        = Normal (replicate (wrap SIZE_MAX (n * sizeof ops) `div` sizeof ops)
                    None) (u, w.2) ∧
        (n ≠ 0 → granted SIZE_MAX ops n w)).
Proof.
  unfold Allocate, granted. case_bool_decide as Hn; cbv zeta.
  - destruct (operator_new ops _ w.1) as [[] u]; [right|left];
      exists u; simpl.
    + by split.
    + split; [done|]. split; [done|]. by intros ?.
  - right. exists w.1. assert (n = 0) as -> by lia.
    split; [|done]. destruct w. simpl. unfold wrap.
    by rewrite Nat.Div0.mod_0_l, Nat.Div0.div_0_l.
Qed.

(** What it does when the bytes of [n] elements are a value of
    [size_t]. *)
Lemma Allocate_cases n w :
  n * sizeof ops ≤ SIZE_MAX →
  (∃ u, Allocate SIZE_MAX ops n w = Throws bad_alloc (u, w.2)) ∨
  (∃ u, Allocate SIZE_MAX ops n w = Normal (replicate n None) (u, w.2) ∧
        (n ≠ 0 → granted SIZE_MAX ops n w)).
Proof.
  intros Hle. destruct (wrap_request n Hle) as [Hw Hd].
  destruct (Allocate_block n w) as [(u & Ha & _)|(u & Ha & Hg)];
    [left; by exists u|right].
  exists u. rewrite Hw, Hd in Ha. done.
Qed.



Lemma RawMemory_sized_inv n w new_data w1 :
  n * sizeof ops ≤ SIZE_MAX →
  RawMemory_sized SIZE_MAX ops n w = Normal new_data w1 →
  new_data = mkRawMemory (replicate n None) n ∧
  (n ≠ 0 → granted SIZE_MAX ops n w).
Proof.
  intros Hle. unfold RawMemory_sized.
  destruct (Allocate_cases n w Hle) as [[u ->]|(u & -> & Hg)]; [done|].
  by intros [= <- _].
Qed.

Lemma RawMemory_sized_cases n w :
  n * sizeof ops ≤ SIZE_MAX →
  (∃ u, RawMemory_sized SIZE_MAX ops n w = Throws bad_alloc (u, w.2)) ∨
  (∃ u, RawMemory_sized SIZE_MAX ops n w
        = Normal (mkRawMemory (replicate n None) n) (u, w.2) ∧
        (n ≠ 0 → granted SIZE_MAX ops n w)).
Proof.
  intros Hle. unfold RawMemory_sized.
  destruct (Allocate_cases n w Hle) as [[u ->]|(u & -> & Hg)];
    [left|right]; by exists u.
Qed.

(** The storage [RawMemory(n)] makes, whatever [n] is: raw slots, no
    more than [n] and no more than a [size_t] counts, under a capacity
    of [n]. *)
Lemma RawMemory_sized_block n w new_data w1 :
  RawMemory_sized SIZE_MAX ops n w = Normal new_data w1 →
  ∃ slots, new_data = mkRawMemory (replicate slots None) n ∧
           slots ≤ n ∧ slots ≤ SIZE_MAX ∧ w1.2 = w.2.
Proof.
  unfold RawMemory_sized.
  destruct (Allocate_block n w) as [(u & -> & _)|(u & -> & _)]; [done|].
  intros [= <- <-]. eexists. split; [done|].
  destruct (block_slots n). done.
Qed.

Lemma construct_at_inv b i ctor w nb w2 :
  construct_at b i ctor w = Normal () (nb, w2) →
  i < length b ∧ ∃ x, nb = <[i := Some x]> b ∧ live nb i = Some x.
Proof.
  unfold construct_at, in_range. case_bool_decide as Hi; [|done].
  destruct (ctor w.1) as [[e|x] u]; [done|]. intros [= <- _].
  split; [done|]. exists x. split; [done|].
  unfold live. by rewrite list_lookup_insert_eq.
Qed.

(** The reallocating path of [Emplace], step by step, on a full vector
    holding [xs1 ++ xs2] with the new element going before [xs2]. *)
Lemma Emplace_realloc_unfold xs1 xs2 ctor w :
  xs2 ≠ [] →
  2 * length (xs1 ++ xs2) ≤ SIZE_MAX →
  Emplace SIZE_MAX ops (length xs1) ctor (vector_of (xs1 ++ xs2) 0) w
  = match RawMemory_sized SIZE_MAX ops (2 * length (xs1 ++ xs2)) w with
    | Normal new_data w1 =>
        match construct_at (buffer_ new_data) (length xs1) ctor w1 with
        | Normal _ (nb, w2) =>
            match ReallocatePartial ops (cells (xs1 ++ xs2) 0) 0 (length xs1)
                    nb 0 w2 with
            | Normal _ (b1, nb1, w3) =>
                match ReallocatePartial ops b1 (length xs1) (length xs2) nb1
                        (length xs1 + 1) w3 with
                | Normal _ (b2, nb2, w4) =>
                    match destroy_n ops b2 0 (length (xs1 ++ xs2)) w4 with
                    | Normal _ (b3, w5) =>
                        Normal (length xs1)
                          (mkVector (mkRawMemory nb2 (capacity_ new_data))
                             (S (length (xs1 ++ xs2))), w5)
                    | Throws e (b3, w5) =>
                        Throws e (with_buffer (vector_of (xs1 ++ xs2) 0) b3, w5)
                    | Undefined => Undefined
                    end
                | Throws e (b2, nb2, w4) =>
                    match destroy_n ops nb2 0 (S (length xs1)) w4 with
                    | Normal _ (_, w5) | Throws _ (_, w5) =>
                        Throws e (with_buffer (vector_of (xs1 ++ xs2) 0) b2, w5)
                    | Undefined => Undefined
                    end
                | Undefined => Undefined
                end
            | Throws e (b1, nb1, w3) =>
                if bool_decide (length xs1 < capacity_ new_data) then
                  match destroy_at ops nb1 (length xs1) w3 with
                  | Normal _ (_, w4) | Throws _ (_, w4) =>
                      Throws e (with_buffer (vector_of (xs1 ++ xs2) 0) b1, w4)
                  | Undefined => Undefined
                  end
                else Undefined
            | Undefined => Undefined
            end
        | Throws e (_, w2) => Throws e (vector_of (xs1 ++ xs2) 0, w2)
        | Undefined => Undefined
        end
    | Throws e w1 => Throws e (vector_of (xs1 ++ xs2) 0, w1)
    | Undefined => Undefined
    end.
Proof.
  intros Hne Hb.
  assert (0 < length xs2) by (destruct xs2; [done|simpl; lia]).
  assert (length (xs1 ++ xs2) = length xs1 + length xs2) as Hn by len.
  unfold Emplace, Capacity, RawMemory_Capacity.
  cbn [vector_of size_ data_ capacity_ buffer_].
  rewrite !bool_decide_eq_false_2 by lia.
  rewrite wrap_small by lia. rewrite wrap_sub_small by lia.
  rewrite wrap_small by lia. rewrite wrap_small by lia.
  replace ((length (xs1 ++ xs2) + 0) * 2) with (2 * length (xs1 ++ xs2))
    by lia.
  replace (length (xs1 ++ xs2) - length xs1) with (length xs2) by lia.
  replace (length (xs1 ++ xs2) + 1) with (S (length (xs1 ++ xs2))) by lia.
  replace (length xs1 + 1) with (S (length xs1)) by lia.
  done.
Qed.

Lemma construct_at_fresh nc pos ctor w nb w2 :
  construct_at (replicate nc None) pos ctor w = Normal () (nb, w2) →
  pos < nc ∧
  ∃ x, nb = replicate pos None ++ Some x :: replicate (nc - S pos) None ∧
       live nb pos = Some x.
Proof.
  intros Hc. apply construct_at_inv in Hc as (Hpos & x & -> & Hlive).
  rewrite length_replicate in Hpos. split; [done|]. exists x.
  split; [|done].
  rewrite (replicate_split_S None pos nc) by done.
  by rewrite insert_at by len.
Qed.

Lemma cells_full_split xs1 xs2 :
  cells (xs1 ++ xs2) 0 = [] ++ (Some <$> xs1) ++ (Some <$> xs2) ++ [].
Proof. unfold cells. by rewrite fmap_app, <- app_assoc. Qed.

Lemma Emplace_realloc_copy_spec xs1 xs2 ctor w :
  xs2 ≠ [] →
  fits SIZE_MAX ops (length (xs1 ++ xs2)) →
  match Emplace SIZE_MAX ops (length xs1) ctor (vector_of (xs1 ++ xs2) 0) w
  with
  | Normal r (v', w') => True
  | Throws e (v', w') => v' = vector_of (xs1 ++ xs2) 0
  | Undefined => False
  end.
Proof.
  intros Hne Hf. pose proof (proj1 (fits_bound _ Hf)) as Hb.
  rewrite Emplace_realloc_unfold by done.
  assert (0 < length xs2) by (destruct xs2; [done|simpl; lia]).
  assert (length (xs1 ++ xs2) = length xs1 + length xs2) as Hn by len.
  set (n := length (xs1 ++ xs2)) in *.
  pose proof (fits_request n (2 * n) Hf ltac:(lia)) as Hreq.
  destruct (RawMemory_sized SIZE_MAX ops (2 * n) w)
    as [new_data w1|e w1|] eqn:Hnew; [|done|].
  2: { unfold RawMemory_sized in Hnew.
       by destruct (Allocate_cases (2 * n) w Hreq)
         as [[u Ha]|(u & Ha & _)]; rewrite Ha in Hnew. }
  apply (RawMemory_sized_inv _ _ _ _ Hreq) in Hnew as [-> _].
  cbn [buffer_ capacity_].
  destruct (construct_at _ _ _ _) as [[] [nb w2]|e [nb w2]|] eqn:Hctor;
    [|done|].
  2: { unfold construct_at in Hctor.
       rewrite (replicate_split_S None (length xs1) (2 * n)) in Hctor by lia.
       rewrite in_range_at in Hctor by len.
       by destruct (ctor w1.1) as [[] ?]. }
  apply construct_at_fresh in Hctor as (Hpos & x & -> & Hlive).
  pose proof (ReallocatePartial_copy_spec (cells (xs1 ++ xs2) 0) 0
                (length xs1)
                (replicate (length xs1) None ++
                 Some x :: replicate (2 * n - S (length xs1)) None) 0 w2
                xs1 [] ((Some <$> xs2) ++ []) []
                (Some x :: replicate (2 * n - S (length xs1)) None)
                (cells_full_split xs1 xs2) eq_refl eq_refl eq_refl eq_refl)
    as Hpre.
  destruct (ReallocatePartial ops (cells (xs1 ++ xs2) 0) _ _ _ _ _)
    as [[] [[b1 nb1] w3]|e [[b1 nb1] w3]|]; [| |done].
  - destruct Hpre as (-> & ys1 & Hys1 & -> & _).
    pose proof (ReallocatePartial_copy_spec (cells (xs1 ++ xs2) 0)
                  (length xs1) (length xs2)
                  ([] ++ (Some <$> ys1) ++
                   Some x :: replicate (2 * n - S (length xs1)) None)
                  (length xs1 + 1) w3
                  xs2 (Some <$> xs1) [] ((Some <$> ys1) ++ [Some x])
                  (replicate (2 * n - S n) None)) as Hsuf.
    destruct (ReallocatePartial ops (cells (xs1 ++ xs2) 0) (length xs1) _ _ _ _)
      as [[] [[b2 nb2] w4]|e [[b2 nb2] w4]|].
    + destruct Hsuf as (-> & _);
        [by rewrite cells_full_split|len|done| |len|].
      { csimpl. rewrite <- app_assoc. csimpl. do 2 f_equal.
        rewrite <- replicate_add. f_equal. lia. }
      destruct (destroy_n_live_at (cells (xs1 ++ xs2) 0) 0 n w4 (xs1 ++ xs2)
                  [] []) as [u ->]; [by unfold cells|done|done|]. done.
    + destruct Hsuf as (-> & -> & _);
        [by rewrite cells_full_split|len|done| |len|].
      { csimpl. rewrite <- app_assoc. csimpl. do 2 f_equal.
        rewrite <- replicate_add. f_equal. lia. }
      match goal with
      | |- context [destroy_n ops ?b ?f ?c ?w] =>
          destruct (destroy_n_live_at b f c w (ys1 ++ [x]) []
                      (replicate (2 * n - S (length xs1)) None))
            as [u ->]; [|done|len|]
      end.
      { csimpl. by rewrite fmap_app, <- app_assoc. }
      apply with_buffer_id.
    + destruct Hsuf; [by rewrite cells_full_split|len|done| |len].
      csimpl. rewrite <- app_assoc. csimpl. do 2 f_equal.
      rewrite <- replicate_add. f_equal. lia.
  - destruct Hpre as (-> & -> & _).
    rewrite bool_decide_eq_true_2 by lia.
    unfold destroy_at. rewrite Hlive.
    apply with_buffer_id.
Qed.

Lemma Emplace_realloc_handlers xs1 xs2 ctor w :
  xs2 ≠ [] →
  fits SIZE_MAX ops (length (xs1 ++ xs2)) →
  let v := vector_of (xs1 ++ xs2) 0 in
  let pos := length xs1 in
  ∀ new_data w1 nb w2 target,
    RawMemory_sized SIZE_MAX ops (2 * Capacity v) w = Normal new_data w1 →
    construct_at (buffer_ new_data) pos ctor w1 = Normal () (nb, w2) →
    live nb pos = Some target →
    (∀ e b1 nb1 w3,
       ReallocatePartial ops (buffer_ (data_ v)) 0 pos nb 0 w2
       = Throws e (b1, nb1, w3) →
       nb1 = replicate pos None ++
             Some target :: replicate (2 * Capacity v - S pos) None ∧
       Emplace SIZE_MAX ops pos ctor v w
       = Throws e (v, destroy_local ops target w3)) ∧
    (∀ b1 nb1 w3,
       ReallocatePartial ops (buffer_ (data_ v)) 0 pos nb 0 w2
       = Normal () (b1, nb1, w3) →
       (∀ e b2 nb2 w4,
          ReallocatePartial ops b1 pos (Size v - pos) nb1 (pos + 1) w3
          = Throws e (b2, nb2, w4) →
          ∃ ys u,
            length ys = pos ∧
            nb2 = (Some <$> ys ++ [target]) ++
                  replicate (2 * Capacity v - S pos) None ∧
            Emplace SIZE_MAX ops pos ctor v w
            = Throws e (v, (u, w4.2 ++ (Destroyed <$> ys ++ [target])))) ∧
       (∀ b2 nb2 w4,
          ReallocatePartial ops b1 pos (Size v - pos) nb1 (pos + 1) w3
          = Normal () (b2, nb2, w4) →
          ∃ u,
            Emplace SIZE_MAX ops pos ctor v w
            = Normal pos
                (mkVector (mkRawMemory nb2 (2 * Capacity v)) (S (Size v)),
                 (u, w4.2 ++ (Destroyed <$> elements v))))).
Proof.
  intros Hne Hf v pos new_data w1 nb w2 target. subst v pos.
  pose proof (proj1 (fits_bound _ Hf)) as Hb.
  rewrite elements_vector_of.
  unfold Size, Capacity, RawMemory_Capacity.
  cbn [vector_of size_ data_ capacity_ buffer_].
  rewrite Emplace_realloc_unfold by done.
  assert (0 < length xs2) by (destruct xs2; [done|simpl; lia]).
  assert (length (xs1 ++ xs2) = length xs1 + length xs2) as Hn by len.
  rewrite Nat.add_0_r.
  replace (length (xs1 ++ xs2) - length xs1) with (length xs2) by lia.
  set (n := length (xs1 ++ xs2)) in *.
  pose proof (fits_request n (2 * n) Hf ltac:(lia)) as Hreq.
  intros Hnew Hctor Hlive. rewrite Hnew.
  apply (RawMemory_sized_inv _ _ _ _ Hreq) in Hnew as [-> _].
  cbn [buffer_ capacity_] in *.
  rewrite Hctor.
  apply construct_at_fresh in Hctor as (Hpos & x & -> & Hlive').
  assert (x = target) as -> by congruence.
  pose proof (ReallocatePartial_copy_spec (cells (xs1 ++ xs2) 0) 0
                (length xs1)
                (replicate (length xs1) None ++
                 Some target :: replicate (2 * n - S (length xs1)) None) 0 w2
                xs1 [] ((Some <$> xs2) ++ []) []
                (Some target :: replicate (2 * n - S (length xs1)) None)
                (cells_full_split xs1 xs2) eq_refl eq_refl eq_refl eq_refl)
    as Hpre.
  split.
  - intros e b1 nb1 w3 Hrun. rewrite Hrun in *.
    destruct Hpre as (-> & -> & _). split; [done|].
    rewrite bool_decide_eq_true_2 by lia.
    unfold destroy_at. rewrite Hlive.
    by rewrite with_buffer_id.
  - intros b1 nb1 w3 Hrun. rewrite Hrun in *.
    destruct Hpre as (-> & ys1 & Hys1 & -> & _).
    pose proof (ReallocatePartial_copy_spec (cells (xs1 ++ xs2) 0)
                  (length xs1) (length xs2)
                  ([] ++ (Some <$> ys1) ++
                   Some target :: replicate (2 * n - S (length xs1)) None)
                  (length xs1 + 1) w3
                  xs2 (Some <$> xs1) [] ((Some <$> ys1) ++ [Some target])
                  (replicate (2 * n - S n) None)) as Hsuf.
    assert ([] ++ (Some <$> ys1) ++
            Some target :: replicate (2 * n - S (length xs1)) None
            = ((Some <$> ys1) ++ [Some target]) ++
              replicate (length xs2) None ++ replicate (2 * n - S n) None)
      as Hshape.
    { csimpl. rewrite <- app_assoc. csimpl. do 2 f_equal.
      rewrite <- replicate_add. f_equal. lia. }
    specialize (Hsuf ltac:(by rewrite cells_full_split) ltac:(len) eq_refl
                  Hshape ltac:(len)).
    split.
    + intros e b2 nb2 w4 Hrun2. rewrite Hrun2 in *.
      destruct Hsuf as (-> & -> & _).
      match goal with
      | |- context [destroy_n ops ?b ?f ?c ?w] =>
          destruct (destroy_n_live_at b f c w (ys1 ++ [target]) []
                      (replicate (2 * n - S (length xs1)) None))
            as [u ->]; [|done|len|]
      end.
      { csimpl. by rewrite fmap_app, <- app_assoc. }
      exists ys1, u. split; [done|]. split.
      * csimpl. by rewrite fmap_app, <- app_assoc.
      * by rewrite with_buffer_id.
    + intros b2 nb2 w4 Hrun2. rewrite Hrun2 in *.
      destruct Hsuf as (-> & _).
      destruct (destroy_n_live_at (cells (xs1 ++ xs2) 0) 0 n w4 (xs1 ++ xs2)
                  [] []) as [u ->]; [by unfold cells|done|done|].
      by exists u.
Qed.

(** The reallocating path of [Emplace] when the elements are relocated
    by copy: the two handlers and the commit. *)
Lemma Emplace_realloc_by_copy pos ctor v w :
  valid SIZE_MAX ops v →
  Size v = Capacity v →
  pos < Size v →
  Emplace SIZE_MAX ops pos ctor v w ≠ Undefined ∧
  (∀ e v' w',
     Emplace SIZE_MAX ops pos ctor v w = Throws e (v', w') → v' = v) ∧
  (∀ new_data w1 nb w2 target,
     RawMemory_sized SIZE_MAX ops (2 * Capacity v) w = Normal new_data w1 →
     construct_at (buffer_ new_data) pos ctor w1 = Normal () (nb, w2) →
     live nb pos = Some target →
     (∀ e b1 nb1 w3,
        ReallocatePartial ops (buffer_ (data_ v)) 0 pos nb 0 w2
        = Throws e (b1, nb1, w3) →
        nb1 = replicate pos None ++
              Some target :: replicate (2 * Capacity v - S pos) None ∧
        Emplace SIZE_MAX ops pos ctor v w
        = Throws e (v, destroy_local ops target w3)) ∧
     (∀ b1 nb1 w3,
        ReallocatePartial ops (buffer_ (data_ v)) 0 pos nb 0 w2
        = Normal () (b1, nb1, w3) →
        (∀ e b2 nb2 w4,
           ReallocatePartial ops b1 pos (Size v - pos) nb1 (pos + 1) w3
           = Throws e (b2, nb2, w4) →
           ∃ ys u,
             length ys = pos ∧
             nb2 = (Some <$> ys ++ [target]) ++
                   replicate (2 * Capacity v - S pos) None ∧
             Emplace SIZE_MAX ops pos ctor v w
             = Throws e (v, (u, w4.2 ++ (Destroyed <$> ys ++ [target])))) ∧
        (∀ b2 nb2 w4,
           ReallocatePartial ops b1 pos (Size v - pos) nb1 (pos + 1) w3
           = Normal () (b2, nb2, w4) →
           ∃ u,
             Emplace SIZE_MAX ops pos ctor v w
             = Normal pos
                 (mkVector (mkRawMemory nb2 (2 * Capacity v)) (S (Size v)),
                  (u, w4.2 ++ (Destroyed <$> elements v)))))).
Proof.
  intros Hv Hfull Hpos.
  pose proof (Size_elements v Hv) as Hsize.
  destruct (valid_canonical_fits v Hv) as [Heq Hb].
  replace (Capacity v - Size v) with 0 in Heq, Hb by lia.
  rewrite Hsize in Hpos. rewrite Nat.add_0_r in Hb.
  remember (elements v) as xs eqn:Hxs in Heq, Hb, Hpos.
  clear Hxs Hsize Hfull Hv. subst v.
  assert (xs = take pos xs ++ drop pos xs) as Hxs by (by rewrite take_drop).
  assert (length (take pos xs) = pos) as Hlen by len.
  assert (drop pos xs ≠ []) as Hdrop.
  { intros Hnil. apply (f_equal length) in Hnil.
    rewrite length_drop in Hnil. simpl in Hnil. lia. }
  revert Hdrop Hxs Hlen.
  generalize (take pos xs) (drop pos xs). intros xs1 xs2 Hdrop -> <-.
  pose proof (Emplace_realloc_copy_spec xs1 xs2 ctor w Hdrop Hb) as Hspec.
  split; [|split].
  - intros Hu. by rewrite Hu in Hspec.
  - intros e v' w' Hrun. by rewrite Hrun in Hspec.
  - by apply Emplace_realloc_handlers.
Qed.

End copy_mode.

(** ** Relocation by a move constructor that does not throw *)

Section nothrow_mode.

Hypothesis Hmove : relocate_by_move ops = true.
Hypothesis Hnothrow : nothrow_move ops.

Lemma uninitialized_move_loop_nothrow xs :
  ∀ spre spost dpre dmid dpost d_first w,
  length dmid = length xs →
  ∃ ls ys u, length ls = length xs ∧ length ys = length xs ∧
    uninitialized_move_loop ops (spre ++ (Some <$> xs) ++ spost)
      (length spre) (length xs) (dpre ++ dmid ++ dpost) d_first
      (length dpre) w
    = Normal (length dpre + length xs)
        (spre ++ (Some <$> ls) ++ spost, dpre ++ (Some <$> ys) ++ dpost,
         (u, w.2 ++ (MoveConstructed <$> ys))).
Proof.
  induction xs as [|x xs IH];
    intros spre spost dpre dmid dpost d_first w Hlen; csimpl.
  - destruct dmid; [|done]. exists [], [], w.1.
    rewrite Nat.add_0_r, app_nil_r. by destruct w.
  - destruct dmid as [|s dmid]; [done|]. csimpl.
    rewrite in_range_middle, live_middle.
    destruct (Hnothrow x w.1) as (y & x' & u1 & ->).
    rewrite !insert_middle.
    rewrite (snoc_length spre (Some x')), (snoc_app spre (Some x')).
    rewrite (snoc_length dpre (Some y)), (snoc_app dpre (Some y)).
    destruct (IH (spre ++ [Some x']) spost (dpre ++ [Some y]) dmid dpost
                d_first (log (MoveConstructed y) u1 w))
      as (ls & ys & u & Hls & Hys & ->); [by simplify_eq/=|].
    exists (x' :: ls), (y :: ys), u.
    split; [simpl; lia|]. split; [simpl; lia|].
    rewrite length_app. csimpl. rewrite <- !app_assoc.
    f_equal. lia.
Qed.

Lemma ReallocatePartial_nothrow src first count dst d_first w
    xs spre spost dpre dmid dpost :
  src = spre ++ (Some <$> xs) ++ spost → first = length spre →
  count = length xs →
  dst = dpre ++ dmid ++ dpost → d_first = length dpre →
  length dmid = length xs →
  ∃ ls ys u, length ls = length xs ∧ length ys = length xs ∧
    ReallocatePartial ops src first count dst d_first w
    = Normal () (spre ++ (Some <$> ls) ++ spost,
                 dpre ++ (Some <$> ys) ++ dpost,
                 (u, w.2 ++ (MoveConstructed <$> ys))).
Proof.
  intros -> -> -> -> -> Hlen.
  unfold ReallocatePartial, uninitialized_move_n. rewrite Hmove.
  destruct (uninitialized_move_loop_nothrow xs spre spost dpre dmid dpost
              (length dpre) w Hlen) as (ls & ys & u & Hls & Hys & ->).
  by exists ls, ys, u.
Qed.

(** Both relocations of the reallocating path return, and so does the
    destruction of what is left of the old elements. *)
Lemma Emplace_realloc_relocations xs1 xs2 x nc w2 :
  length (xs1 ++ xs2) < nc →
  ∃ b1 nb1 w3 b2 nb2 w4 u ds,
    ReallocatePartial ops (cells (xs1 ++ xs2) 0) 0 (length xs1)
      (replicate (length xs1) None ++
       Some x :: replicate (nc - S (length xs1)) None) 0 w2
    = Normal () (b1, nb1, w3) ∧
    ReallocatePartial ops b1 (length xs1) (length xs2) nb1
      (length xs1 + 1) w3
    = Normal () (b2, nb2, w4) ∧
    length ds = length (xs1 ++ xs2) ∧
    destroy_n ops b2 0 (length (xs1 ++ xs2)) w4
    = Normal () (replicate (length ds) None,
                 (u, w4.2 ++ (Destroyed <$> ds))).
Proof.
  intros Hnc.
  assert (length (xs1 ++ xs2) = length xs1 + length xs2) as Hn by len.
  destruct (ReallocatePartial_nothrow (cells (xs1 ++ xs2) 0) 0 (length xs1)
              (replicate (length xs1) None ++
               Some x :: replicate (nc - S (length xs1)) None) 0 w2
              xs1 [] ((Some <$> xs2) ++ []) []
              (replicate (length xs1) None)
              (Some x :: replicate (nc - S (length xs1)) None))
    as (ls1 & ys1 & u1 & Hls1 & Hys1 & Hrun1);
    [apply cells_full_split|done|done|done|done|len|].
  destruct (ReallocatePartial_nothrow
              ([] ++ (Some <$> ls1) ++ (Some <$> xs2) ++ [])
              (length xs1) (length xs2)
              ([] ++ (Some <$> ys1) ++
               Some x :: replicate (nc - S (length xs1)) None)
              (length xs1 + 1)
              (u1, w2.2 ++ (MoveConstructed <$> ys1))
              xs2 (Some <$> ls1) [] ((Some <$> ys1) ++ [Some x])
              (replicate (length xs2) None)
              (replicate (nc - S (length (xs1 ++ xs2))) None))
    as (ls2 & ys2 & u2 & Hls2 & Hys2 & Hrun2); [done|len|done| |len|len|].
  { csimpl. rewrite <- app_assoc. csimpl. do 2 f_equal.
    rewrite <- replicate_add. f_equal. lia. }
  destruct (destroy_n_live_at
              ((Some <$> ls1) ++ (Some <$> ls2) ++ []) 0
              (length (xs1 ++ xs2))
              (u2, (u1, w2.2 ++ (MoveConstructed <$> ys1)).2 ++
                     (MoveConstructed <$> ys2))
              (ls1 ++ ls2) [] [])
    as [u3 Hrun3]; [by csimpl; rewrite fmap_app, <- app_assoc|done|len|].
  eexists _, _, _, _, _, _, u3, (ls1 ++ ls2).
  split; [exact Hrun1|]. split; [exact Hrun2|]. split; [len|].
  rewrite Hrun3. csimpl. by rewrite app_nil_r.
Qed.

Lemma Emplace_realloc_by_move xs1 xs2 ctor w :
  xs2 ≠ [] →
  fits SIZE_MAX ops (length (xs1 ++ xs2)) →
  let v := vector_of (xs1 ++ xs2) 0 in
  let pos := length xs1 in
  Emplace SIZE_MAX ops pos ctor v w ≠ Undefined ∧
  (∀ e v' w',
     Emplace SIZE_MAX ops pos ctor v w = Throws e (v', w') → v' = v) ∧
  (∀ new_data w1 nb w2,
     RawMemory_sized SIZE_MAX ops (2 * Capacity v) w = Normal new_data w1 →
     construct_at (buffer_ new_data) pos ctor w1 = Normal () (nb, w2) →
     (∀ e b1 nb1 w3,
        ReallocatePartial ops (buffer_ (data_ v)) 0 pos nb 0 w2
        ≠ Throws e (b1, nb1, w3)) ∧
     (∀ b1 nb1 w3,
        ReallocatePartial ops (buffer_ (data_ v)) 0 pos nb 0 w2
        = Normal () (b1, nb1, w3) →
        (∀ e b2 nb2 w4,
           ReallocatePartial ops b1 pos (Size v - pos) nb1 (pos + 1) w3
           ≠ Throws e (b2, nb2, w4)) ∧
        (∀ b2 nb2 w4,
           ReallocatePartial ops b1 pos (Size v - pos) nb1 (pos + 1) w3
           = Normal () (b2, nb2, w4) →
           ∃ u ds,
             length ds = Size v ∧
             Emplace SIZE_MAX ops pos ctor v w
             = Normal pos
                 (mkVector (mkRawMemory nb2 (2 * Capacity v)) (S (Size v)),
                  (u, w4.2 ++ (Destroyed <$> ds)))))).
Proof.
  intros Hne Hf v pos. subst v pos.
  pose proof (proj1 (fits_bound _ Hf)) as Hb.
  unfold Size, Capacity, RawMemory_Capacity.
  cbn [vector_of size_ data_ capacity_ buffer_].
  rewrite Emplace_realloc_unfold by done.
  assert (0 < length xs2) by (destruct xs2; [done|simpl; lia]).
  assert (length (xs1 ++ xs2) = length xs1 + length xs2) as Hn by len.
  rewrite Nat.add_0_r.
  replace (length (xs1 ++ xs2) - length xs1) with (length xs2) by lia.
  set (n := length (xs1 ++ xs2)) in *.
  pose proof (fits_request n (2 * n) Hf ltac:(lia)) as Hreq.
  destruct (RawMemory_sized_cases (2 * n) w Hreq)
    as [[u0 Hnew]|(u0 & Hnew & _)]; rewrite Hnew.
  { split; [done|]. split; [by intros e v' w' [= _ <- _]|].
    intros new_data w1 nb w2 Hnew'. done. }
  cbn [buffer_ capacity_].
  destruct (construct_at (replicate (2 * n) None) (length xs1) ctor
              (u0, w.2)) as [[] [nb w2]|e [nb w2]|] eqn:Hctor.
  2: { split; [done|]. split; [by intros e' v' w' [= _ <- _]|].
       intros new_data w1 nb' w2' [= <- <-]. cbn [buffer_].
       change (n + (n + 0)) with (2 * n). by rewrite Hctor. }
  2: { unfold construct_at in Hctor.
       rewrite (replicate_split_S None (length xs1) (2 * n)) in Hctor by lia.
       rewrite in_range_at in Hctor by len.
       by destruct (ctor (u0, w.2).1) as [[] ?]. }
  pose proof Hctor as Hfresh.
  apply construct_at_fresh in Hfresh as (Hpos & x & -> & Hlive).
  destruct (Emplace_realloc_relocations xs1 xs2 x (2 * n) w2 ltac:(lia))
    as (b1 & nb1 & w3 & b2 & nb2 & w4 & u & ds & Hrun1 & Hrun2 & Hds & Hrun3).
  rewrite Hrun1, Hrun2. fold n in Hrun3, Hds. rewrite Hrun3.
  split; [done|]. split; [done|].
  intros new_data w1 nb' w2' [= <- <-]. cbn [buffer_ capacity_].
  change (n + (n + 0)) with (2 * n).
  intros Heq. rewrite Hctor in Heq. injection Heq as <- <-.
  change (n + (n + 0)) with (2 * n). rewrite Hrun1. split; [done|].
  intros b1' nb1' w3' Heq. injection Heq as <- <- <-.
  rewrite Hrun2. split; [done|].
  intros b2' nb2' w4' Heq. injection Heq as <- <- <-. by exists u, ds.
Qed.

End nothrow_mode.

(** C3, for every element type but one that cannot be copied and whose
    move constructor throws: [Emplace] at a position [pos] in
    [begin(), end()) of a full, valid vector whose elements are relocated
    by copy, or by a move constructor that does not throw.  The call never
    misbehaves, and whenever it throws, the vector is exactly as it was.
    With the new storage acquired and the new element [target] built in
    its slot [pos]:
    - if relocating the prefix throws, the new storage holds only [target],
      the handler destroys [target] and nothing else, and the exception
      leaves the call;
    - if relocating the suffix throws, the new storage holds the relocated
      prefix and [target], the handler destroys exactly these, and the
      exception leaves the call;
    - if both relocations return, what they left of the old elements (the
      elements themselves after a copy) is destroyed, and the vector takes
      the new storage and one more element.
    A move constructor that does not throw makes the first two cases
    empty. *)
Theorem Emplace_realloc_strong_guarantee pos ctor v w :
  relocate_by_move ops = false ∨ nothrow_move ops →
  valid SIZE_MAX ops v →
  Size v = Capacity v →
  pos < Size v →
  Emplace SIZE_MAX ops pos ctor v w ≠ Undefined ∧
  (∀ e v' w',
     Emplace SIZE_MAX ops pos ctor v w = Throws e (v', w') → v' = v) ∧
  (∀ new_data w1 nb w2 target,
     RawMemory_sized SIZE_MAX ops (2 * Capacity v) w = Normal new_data w1 →
     construct_at (buffer_ new_data) pos ctor w1 = Normal () (nb, w2) →
     live nb pos = Some target →
     (∀ e b1 nb1 w3,
        ReallocatePartial ops (buffer_ (data_ v)) 0 pos nb 0 w2
        = Throws e (b1, nb1, w3) →
        nb1 = replicate pos None ++
              Some target :: replicate (2 * Capacity v - S pos) None ∧
        Emplace SIZE_MAX ops pos ctor v w
        = Throws e (v, destroy_local ops target w3)) ∧
     (∀ b1 nb1 w3,
        ReallocatePartial ops (buffer_ (data_ v)) 0 pos nb 0 w2
        = Normal () (b1, nb1, w3) →
        (∀ e b2 nb2 w4,
           ReallocatePartial ops b1 pos (Size v - pos) nb1 (pos + 1) w3
           = Throws e (b2, nb2, w4) →
           ∃ ys u,
             length ys = pos ∧
             nb2 = (Some <$> ys ++ [target]) ++
                   replicate (2 * Capacity v - S pos) None ∧
             Emplace SIZE_MAX ops pos ctor v w
             = Throws e (v, (u, w4.2 ++ (Destroyed <$> ys ++ [target])))) ∧
        (∀ b2 nb2 w4,
           ReallocatePartial ops b1 pos (Size v - pos) nb1 (pos + 1) w3
           = Normal () (b2, nb2, w4) →
           ∃ u ds,
             length ds = Size v ∧
             (relocate_by_move ops = false → ds = elements v) ∧
             Emplace SIZE_MAX ops pos ctor v w
             = Normal pos
                 (mkVector (mkRawMemory nb2 (2 * Capacity v)) (S (Size v)),
                  (u, w4.2 ++ (Destroyed <$> ds)))))).
Proof.
  intros Hmode Hv Hfull Hpos.
  destruct (relocate_by_move ops) eqn:Hrel.
  - destruct Hmode as [Hmode|Hnothrow]; [done|].
    pose proof (Size_elements v Hv) as Hsize.
    destruct (valid_canonical_fits v Hv) as [Heq Hf].
    replace (Capacity v - Size v) with 0 in Heq, Hf by lia.
    rewrite Hsize in Hpos. rewrite Nat.add_0_r in Hf.
    remember (elements v) as xs eqn:Hxs in Heq, Hf, Hpos.
    clear Hxs Hsize Hfull Hv. subst v.
    assert (xs = take pos xs ++ drop pos xs) as Hxs
      by (by rewrite take_drop).
    assert (length (take pos xs) = pos) as Hlen by len.
    assert (drop pos xs ≠ []) as Hdrop.
    { intros Hnil. apply (f_equal length) in Hnil.
      rewrite length_drop in Hnil. simpl in Hnil. lia. }
    revert Hdrop Hxs Hlen.
    generalize (take pos xs) (drop pos xs). intros xs1 xs2 Hdrop -> <-.
    destruct (Emplace_realloc_by_move Hrel Hnothrow xs1 xs2 ctor w Hdrop Hf)
      as (Hdef & Hthrows & Hsteps).
    split; [done|]. split; [done|].
    intros new_data w1 nb w2 target Hnew Hctor _.
    destruct (Hsteps new_data w1 nb w2 Hnew Hctor) as [Hpre Hsuf].
    split; [intros e b1 nb1 w3 Hrun; by destruct (Hpre e b1 nb1 w3)|].
    intros b1 nb1 w3 Hrun1. destruct (Hsuf b1 nb1 w3 Hrun1) as [Hno Hall].
    split; [intros e b2 nb2 w4 Hrun; by destruct (Hno e b2 nb2 w4)|].
    intros b2 nb2 w4 Hrun2.
    destruct (Hall b2 nb2 w4 Hrun2) as (u & ds & Hds & Hrun).
    exists u, ds. by split; [|split].
  - destruct (Emplace_realloc_by_copy Hrel pos ctor v w Hv Hfull Hpos)
      as (Hdef & Hthrows & Hsteps).
    split; [done|]. split; [done|].
    intros new_data w1 nb w2 target Hnew Hctor Hlive.
    destruct (Hsteps new_data w1 nb w2 target Hnew Hctor Hlive)
      as [Hpre Hsuf].
    split; [done|]. intros b1 nb1 w3 Hrun1.
    destruct (Hsuf b1 nb1 w3 Hrun1) as [Hthrow Hall].
    split; [done|]. intros b2 nb2 w4 Hrun2.
    destruct (Hall b2 nb2 w4 Hrun2) as (u & Hrun).
    exists u, (elements v). split; [by rewrite (Size_elements v Hv)|].
    by split.
Qed.



(** ** What the algorithms keep, for any element type *)

Lemma live_lt b i : is_Some (live b i) → i < length b.
Proof.
  unfold live. intros [x Hx]. apply lookup_lt_is_Some.
  destruct (b !! i); [by eexists|done].
Qed.

Lemma live_insert_eq b i x : i < length b → live (<[i := Some x]> b) i = Some x.
Proof. intros Hi. unfold live. by rewrite list_lookup_insert_eq. Qed.

Lemma live_insert_ne b i j s : i ≠ j → live (<[i := s]> b) j = live b j.
Proof. intros Hne. unfold live. by rewrite list_lookup_insert_ne. Qed.

Lemma covers_refl b : covers b b.
Proof. by split. Qed.

Lemma covers_trans b1 b2 b3 : covers b1 b2 → covers b2 b3 → covers b1 b3.
Proof. intros [Hl1 H1] [Hl2 H2]. split; [congruence|]. auto. Qed.

Lemma covers_insert b i x : covers b (<[i := Some x]> b).
Proof.
  split; [by rewrite length_insert|]. intros j Hj.
  destruct (decide (i = j)) as [->|Hne].
  - rewrite live_insert_eq; [done|]. by apply live_lt.
  - by rewrite live_insert_ne.
Qed.

Lemma same_outside_refl lo hi b : same_outside lo hi b b.
Proof. by split. Qed.

Lemma same_outside_trans lo hi b1 b2 b3 :
  same_outside lo hi b1 b2 → same_outside lo hi b2 b3 →
  same_outside lo hi b1 b3.
Proof.
  intros [Hl1 H1] [Hl2 H2]. split; [congruence|].
  intros i Hi. by rewrite H2, H1.
Qed.

Lemma same_outside_weaken lo hi lo' hi' b b' :
  lo' ≤ lo → hi ≤ hi' → same_outside lo hi b b' → same_outside lo' hi' b b'.
Proof. intros ?? [Hl H]. split; [done|]. intros i Hi. apply H. lia. Qed.

Lemma same_outside_insert lo hi b i s :
  lo ≤ i → i < hi → same_outside lo hi b (<[i := s]> b).
Proof.
  intros ??. split; [by rewrite length_insert|].
  intros j Hj. apply list_lookup_insert_ne. lia.
Qed.

Lemma same_outside_live lo hi b b' i :
  same_outside lo hi b b' → i < lo ∨ hi ≤ i → live b' i = live b i.
Proof. intros [_ H] Hi. unfold live. by rewrite H. Qed.

Lemma destroy_at_inv b i w :
  match destroy_at ops b i w with
  | Normal _ (b', _) => b' = <[i := None]> b ∧ i < length b
  | Throws _ _ => False
  | Undefined => True
  end.
Proof.
  unfold destroy_at. destruct (live b i) eqn:Hl; [|done].
  split; [done|]. apply live_lt. by rewrite Hl.
Qed.

Lemma destroy_n_inv n : ∀ b first w,
  match destroy_n ops b first n w with
  | Normal _ (b', _) => same_outside first (first + n) b b'
  | Throws _ _ => False
  | Undefined => True
  end.
Proof.
  induction n as [|n IH]; intros b first w; cbn [destroy_n].
  - apply same_outside_refl.
  - pose proof (destroy_at_inv b first w) as Hat.
    destruct (destroy_at ops b first w) as [[] [b1 w1]|e [b1 w1]|];
      [|done..].
    destruct Hat as [-> Hlt]. specialize (IH (<[first := None]> b) (S first) w1).
    destruct (destroy_n ops _ _ n w1) as [[] [b' w']|e [b' w']|]; [|done..].
    eapply same_outside_trans.
    + apply (same_outside_insert first (first + S n) b first None); lia.
    + eapply same_outside_weaken; [| |exact IH]; lia.
Qed.

Lemma rollback_inv {R} e dst d_first current w :
  d_first ≤ current →
  match rollback ops (R := R) e dst d_first current w with
  | Normal _ _ => False
  | Throws _ (b', _) => same_outside d_first current dst b'
  | Undefined => True
  end.
Proof.
  intros Hle. unfold rollback.
  pose proof (destroy_n_inv (current - d_first) dst d_first w) as Hd.
  destruct (destroy_n ops dst d_first _ w) as [[] [b' w']|e' [b' w']|];
    [|done..].
  eapply same_outside_weaken; [| |exact Hd]; lia.
Qed.

Lemma uninitialized_copy_loop_inv count : ∀ src first dst d_first current w,
  d_first ≤ current →
  match uninitialized_copy_loop ops src first count dst d_first current w with
  | Normal r (dst', _) =>
      r = current + count ∧ (0 < count → current + count ≤ length dst) ∧
      same_outside current (current + count) dst dst' ∧
      ∀ i, current ≤ i → i < current + count → is_Some (live dst' i)
  | Throws _ (dst', _) => same_outside d_first (current + count) dst dst'
  | Undefined => True
  end.
Proof.
  induction count as [|count IH]; intros src first dst d_first current w Hle;
    cbn [uninitialized_copy_loop].
  - rewrite Nat.add_0_r. split; [done|]. split; [lia|]. split.
    + apply same_outside_refl.
    + intros; lia.
  - unfold in_range. case_bool_decide as Hin; [|done].
    destruct (live src first) as [x|]; [|done].
    destruct (copy_ctor ops x w.1) as [[e|y] u].
    + pose proof (rollback_inv (R := nat) e dst d_first current (u, w.2) Hle)
        as Hr.
      destruct (rollback ops e dst d_first current (u, w.2))
        as [r [b' w']|e' [b' w']|]; [done| |done].
      eapply same_outside_weaken; [| |exact Hr]; lia.
    + specialize (IH src (S first) (<[current := Some y]> dst) d_first
                    (S current) (log (CopyConstructed y) u w) ltac:(lia)).
      destruct (uninitialized_copy_loop ops _ _ count _ _ _ _)
        as [r [dst' w']|e [dst' w']|]; [| |done].
      * destruct IH as (-> & Hb & Hs & Hl).
        split; [lia|]. split; [|split].
        -- intros _. destruct count; [lia|].
           specialize (Hb ltac:(lia)). rewrite length_insert in Hb. lia.
        -- eapply same_outside_trans.
           ++ apply (same_outside_insert current (current + S count) dst
                       current (Some y)); lia.
           ++ eapply same_outside_weaken; [| |exact Hs]; lia.
        -- intros i Hi1 Hi2. destruct (decide (i = current)) as [->|Hne].
           ++ rewrite (same_outside_live _ _ _ _ _ Hs) by lia.
              by rewrite live_insert_eq.
           ++ apply Hl; lia.
      * eapply same_outside_trans.
        -- apply (same_outside_insert d_first (current + S count) dst
                    current (Some y)); lia.
        -- eapply same_outside_weaken; [| |exact IH]; lia.
Qed.

Lemma uninitialized_move_loop_inv count : ∀ src first dst d_first current w,
  d_first ≤ current →
  match uninitialized_move_loop ops src first count dst d_first current w with
  | Normal r (src', dst', _) =>
      covers src src' ∧
      r = current + count ∧ (0 < count → current + count ≤ length dst) ∧
      same_outside current (current + count) dst dst' ∧
      ∀ i, current ≤ i → i < current + count → is_Some (live dst' i)
  | Throws _ (src', dst', _) =>
      covers src src' ∧ same_outside d_first (current + count) dst dst'
  | Undefined => True
  end.
Proof.
  induction count as [|count IH]; intros src first dst d_first current w Hle;
    cbn [uninitialized_move_loop].
  - rewrite Nat.add_0_r. split; [apply covers_refl|].
    split; [done|]. split; [lia|]. split.
    + apply same_outside_refl.
    + intros; lia.
  - unfold in_range. case_bool_decide as Hin; [|done].
    destruct (live src first) as [x|]; [|done].
    destruct (move_ctor ops x w.1) as [[[e|y] x'] u].
    + pose proof (rollback_inv (R := unit) e dst d_first current (u, w.2) Hle)
        as Hr.
      destruct (rollback ops e dst d_first current (u, w.2))
        as [r [b' w']|e' [b' w']|]; [done| |done].
      split; [apply covers_insert|].
      eapply same_outside_weaken; [| |exact Hr]; lia.
    + specialize (IH (<[first := Some x']> src) (S first)
                    (<[current := Some y]> dst) d_first
                    (S current) (log (MoveConstructed y) u w) ltac:(lia)).
      destruct (uninitialized_move_loop ops _ _ count _ _ _ _)
        as [r [[src' dst'] w']|e [[src' dst'] w']|]; [| |done].
      * destruct IH as (Hc & -> & Hb & Hs & Hl).
        split; [by eapply covers_trans; [apply covers_insert|]|].
        split; [lia|]. split; [|split].
        -- intros _. destruct count; [lia|].
           specialize (Hb ltac:(lia)). rewrite length_insert in Hb. lia.
        -- eapply same_outside_trans.
           ++ apply (same_outside_insert current (current + S count) dst
                       current (Some y)); lia.
           ++ eapply same_outside_weaken; [| |exact Hs]; lia.
        -- intros i Hi1 Hi2. destruct (decide (i = current)) as [->|Hne].
           ++ rewrite (same_outside_live _ _ _ _ _ Hs) by lia.
              by rewrite live_insert_eq.
           ++ apply Hl; lia.
      * destruct IH as [Hc Hs].
        split; [by eapply covers_trans; [apply covers_insert|]|].
        eapply same_outside_trans.
        -- apply (same_outside_insert d_first (current + S count) dst
                    current (Some y)); lia.
        -- eapply same_outside_weaken; [| |exact Hs]; lia.
Qed.


Lemma copy_n_inv count : ∀ src first dst res w,
  match copy_n ops src first count dst res w with
  | Normal r (dst', _) => r = res + count ∧ covers dst dst'
  | Throws _ (dst', _) => covers dst dst'
  | Undefined => True
  end.
Proof.
  induction count as [|count IH]; intros src first dst res w; cbn [copy_n].
  - split; [lia|apply covers_refl].
  - destruct (live dst res) as [d|]; [|done].
    destruct (live src first) as [x|]; [|done].
    destruct (copy_assign ops d x w.1) as [[[e|] d'] u].
    + apply covers_insert.
    + specialize (IH src (S first) (<[res := Some d']> dst) (S res)
                    (log (CopyAssigned d') u w)).
      destruct (copy_n ops _ _ count _ _ _) as [r [dst' w']|e [dst' w']|];
        [| |done].
      * destruct IH as [-> Hc]. split; [lia|].
        by eapply covers_trans; [apply covers_insert|].
      * by eapply covers_trans; [apply covers_insert|].
Qed.

Lemma move_assign_slot_inv b to from w :
  match move_assign_slot ops b to from w with
  | Normal _ (b', _) | Throws _ (b', _) => covers b b'
  | Undefined => True
  end.
Proof.
  unfold move_assign_slot.
  destruct (live b to) as [d|]; [|done].
  destruct (live b from) as [x|]; [|done].
  destruct (move_assign ops d x w.1) as [[[[e|] d'] x'] u];
    (eapply covers_trans; [apply covers_insert|apply covers_insert]).
Qed.

Lemma move_range_inv count : ∀ b first d_first w,
  match move_range ops b first count d_first w with
  | Normal _ (b', _) | Throws _ (b', _) => covers b b'
  | Undefined => True
  end.
Proof.
  induction count as [|count IH]; intros b first d_first w;
    cbn [move_range]; [apply covers_refl|].
  pose proof (move_assign_slot_inv b d_first first w) as Hs.
  destruct (move_assign_slot ops b d_first first w)
    as [[] [b1 w1]|e [b1 w1]|]; [|done..].
  specialize (IH b1 (S first) (S d_first) w1).
  destruct (move_range ops b1 _ count _ w1) as [[] [b' w']|e [b' w']|];
    [| |done]; by eapply covers_trans.
Qed.

Lemma move_backward_inv count : ∀ b last d_last w,
  match move_backward ops b count last d_last w with
  | Normal _ (b', _) | Throws _ (b', _) => covers b b'
  | Undefined => True
  end.
Proof.
  induction count as [|count IH]; intros b last d_last w;
    cbn [move_backward]; [apply covers_refl|].
  destruct last as [|last]; [done|]. destruct d_last as [|d_last]; [done|].
  pose proof (move_assign_slot_inv b d_last last w) as Hs.
  destruct (move_assign_slot ops b d_last last w)
    as [[] [b1 w1]|e [b1 w1]|]; [|done..].
  specialize (IH b1 last d_last w1).
  destruct (move_backward ops b1 count _ _ w1) as [[] [b' w']|e [b' w']|];
    [| |done]; by eapply covers_trans.
Qed.



Lemma construct_at_throws_inv b i ctor w e nb w2 :
  construct_at b i ctor w = Throws e (nb, w2) → nb = b.
Proof.
  unfold construct_at. destruct (in_range b i); [|done].
  destruct (ctor w.1) as [[e'|x] u]; [|done]. by intros [= _ <- _].
Qed.

Lemma move_construct_slot_inv b to from w :
  match move_construct_slot ops b to from w with
  | Normal _ (b', _) => covers b b' ∧ is_Some (live b' to) ∧ to < length b
  | Throws _ (b', _) => covers b b'
  | Undefined => True
  end.
Proof.
  unfold move_construct_slot, in_range. case_bool_decide as Hin; [|done].
  destruct (live b from) as [x|]; [|done].
  destruct (move_ctor ops x w.1) as [[[e|y] x'] u]; [apply covers_insert|].
  split; [|split; [|done]].
  - eapply covers_trans; apply covers_insert.
  - rewrite live_insert_eq; [done|]. by rewrite length_insert.
Qed.


Lemma ReallocatePartial_inv src from count dst to w :
  match ReallocatePartial ops src from count dst to w with
  | Normal _ (src', dst', _) =>
      covers src src' ∧ (0 < count → to + count ≤ length dst) ∧
      same_outside to (to + count) dst dst' ∧
      ∀ i, to ≤ i → i < to + count → is_Some (live dst' i)
  | Throws _ (src', _, _) => covers src src'
  | Undefined => True
  end.
Proof.
  unfold ReallocatePartial, uninitialized_move_n, uninitialized_copy_n.
  destruct (relocate_by_move ops).
  - pose proof (uninitialized_move_loop_inv count src from dst to to w
                  ltac:(done)) as Hm.
    destruct (uninitialized_move_loop ops _ _ _ _ _ _ _)
      as [r [[src' dst'] w']|e [[src' dst'] w']|]; [| |done].
    + by destruct Hm as (? & _ & ? & ? & ?).
    + by destruct Hm.
  - pose proof (uninitialized_copy_loop_inv count src from dst to to w
                  ltac:(done)) as Hm.
    destruct (uninitialized_copy_loop ops _ _ _ _ _ _ _)
      as [r [dst' w']|e [dst' w']|]; [| |done].
    + destruct Hm as (_ & ? & ? & ?). split; [apply covers_refl|done].
    + apply covers_refl.
Qed.

Lemma well_formed_with_buffer v b :
  well_formed SIZE_MAX ops v → covers (buffer_ (data_ v)) b →
  well_formed SIZE_MAX ops (with_buffer v b).
Proof.
  intros (Hn & Hl & Hb & Hlive) [Hlen Hc]. unfold with_buffer.
  split; [done|]. split; [simpl; congruence|]. split; [done|].
  intros i Hi. apply Hc, Hlive, Hi.
Qed.

Lemma ReallocateData_inv v nb nc w :
  match ReallocateData ops v (mkRawMemory nb nc) w with
  | Normal _ (v', _, _) =>
      size_ v' = size_ v ∧ capacity_ (data_ v') = nc ∧
      (0 < size_ v → size_ v ≤ length nb) ∧
      same_outside 0 (size_ v) nb (buffer_ (data_ v')) ∧
      ∀ i, i < size_ v → is_Some (live (buffer_ (data_ v')) i)
  | Throws _ (v', _, _) =>
      ∃ b, v' = with_buffer v b ∧ covers (buffer_ (data_ v)) b
  | Undefined => True
  end.
Proof.
  unfold ReallocateData, uninitialized_move_n, uninitialized_copy_n.
  cbn [buffer_ capacity_].
  destruct (relocate_by_move ops).
  - pose proof (uninitialized_move_loop_inv (size_ v) (buffer_ (data_ v)) 0
                  nb 0 0 w ltac:(done)) as Hm.
    destruct (uninitialized_move_loop ops _ _ _ _ _ _ _)
      as [r [[src' dst'] w']|e [[src' dst'] w']|]; [| |done].
    + destruct Hm as (Hc & _ & Hb & Hs & Hl).
      pose proof (destroy_n_inv (size_ v) src' 0 w') as Hd.
      destruct (destroy_n ops src' 0 (size_ v) w')
        as [[] [b2 w2]|e [b2 w2]|]; [|done..].
      cbn [RawMemory_Swap size_ data_ capacity_ buffer_].
      split; [done|]. split; [done|]. split; [done|]. split; [done|].
      intros i Hi. apply Hl; lia.
    + destruct Hm as [Hc _]. by eexists.
  - pose proof (uninitialized_copy_loop_inv (size_ v) (buffer_ (data_ v)) 0
                  nb 0 0 w ltac:(done)) as Hm.
    destruct (uninitialized_copy_loop ops _ _ _ _ _ _ _)
      as [r [dst' w']|e [dst' w']|]; [| |done].
    + destruct Hm as (_ & Hb & Hs & Hl).
      pose proof (destroy_n_inv (size_ v) (buffer_ (data_ v)) 0 w') as Hd.
      destruct (destroy_n ops (buffer_ (data_ v)) 0 (size_ v) w')
        as [[] [b2 w2]|e [b2 w2]|]; [|done..].
      cbn [RawMemory_Swap size_ data_ capacity_ buffer_].
      split; [done|]. split; [done|]. split; [done|]. split; [done|].
      intros i Hi. apply Hl; lia.
    + eexists. split; [done|]. apply covers_refl.
Qed.

Lemma covers_live b b' i :
  covers b b' → is_Some (live b i) → is_Some (live b' i).
Proof. intros [_ H]. apply H. Qed.

Lemma covers_length b b' : covers b b' → length b' = length b.
Proof. by intros [? _]. Qed.


(** ** Well-formed vectors and new storage *)

Section well_formed.

Hypothesis Hnb : new_bounded SIZE_MAX ops.

Lemma well_formed_intro b c n :
  n ≤ c → length b = c → fits SIZE_MAX ops c →
  (∀ i, i < n → is_Some (live b i)) →
  well_formed SIZE_MAX ops (mkVector (mkRawMemory b c) n).
Proof. by intros; repeat split. Qed.

Lemma RawMemory_sized_Normal n w new_data w1 :
  n * sizeof ops ≤ SIZE_MAX →
  RawMemory_sized SIZE_MAX ops n w = Normal new_data w1 →
  new_data = mkRawMemory (replicate n None) n ∧
  (n ≠ 0 → fits SIZE_MAX ops n).
Proof.
  intros Hle Hnew. apply (RawMemory_sized_inv _ _ _ _ Hle) in Hnew as [-> Hg].
  split; [done|]. intros Hn. apply (granted_fits n w); auto.
Qed.

Lemma Reserve_inv n v w :
  n * sizeof ops ≤ SIZE_MAX →
  well_formed SIZE_MAX ops v →
  match Reserve SIZE_MAX ops n v w with
  | Normal _ (v', _) =>
      well_formed SIZE_MAX ops v' ∧ size_ v' = size_ v ∧
      n ≤ capacity_ (data_ v')
  | Throws _ (v', _) => well_formed SIZE_MAX ops v'
  | Undefined => True
  end.
Proof.
  intros Hle Hv. pose proof Hv as (Hn & Hl & Hb & Hlive).
  unfold Reserve, Capacity, RawMemory_Capacity.
  case_bool_decide as Hcap.
  { split; [done|]. split; [done|lia]. }
  destruct (RawMemory_sized SIZE_MAX ops n w) as [new_data w1|e w1|]
    eqn:Hnew; [|done..].
  apply (RawMemory_sized_Normal _ _ _ _ Hle) in Hnew as [-> Hnc].
  pose proof (ReallocateData_inv v (replicate n None) n w1) as Hr.
  destruct (ReallocateData ops v _ w1) as [[] [[v1 nd] w2]|e [[v1 nd] w2]|];
    [| |done].
  - destruct Hr as (Hs1 & Hc1 & _ & Hsame & Hl1).
    destruct v1 as [[b1 c1] n1]. cbn [size_ data_ capacity_ buffer_] in *.
    subst c1 n1.
    split; [|split; [done|lia]].
    apply well_formed_intro; [lia| |apply Hnc; lia|done].
    destruct Hsame as [-> _]. by rewrite length_replicate.
  - destruct Hr as (b & -> & Hc). by apply well_formed_with_buffer.
Qed.

End well_formed.

(** ** The public operations keep a vector sound *)





Lemma well_formed_sound v : well_formed SIZE_MAX ops v → sound SIZE_MAX v.
Proof.
  intros (Hn & Hl & Hb & Hlive). apply fits_bound in Hb.
  split; [done|]. split; [lia|done].
Qed.


















(** ** Appends from an empty vector *)

(** C4, with the capacities the code yields: [N] appends to a default-constructed vector of
    regular elements, with the memory system granting the storage asked
    for, all return; after the [k]-th append the size is [k] and the
    capacity is [growth k], the smallest power of two that is at least [k]:
    1, 2, 4, 4, 8, 8, 8, 8, ...  An append to a full vector reallocates to
    [max(1, 2 * capacity)]. *)
Theorem appends_follow_growth_policy default_value xs w :
  Regular ops default_value →
  new_bounded SIZE_MAX ops →
  plentiful ops (growth (length xs)) →
  (∃ v' w',
     push_all SIZE_MAX ops xs Vector_default w
     = ((λ k, (k, growth k)) <$> seq 1 (length xs), Normal () (v', w')) ∧
     elements v' = xs) ∧
  (∀ k, 0 < k → growth k = 2 ^ Nat.log2_up k) ∧
  (∀ v x w0,
     valid SIZE_MAX ops v → Size v = Capacity v →
     granted SIZE_MAX ops (1 `max` (2 * Capacity v)) w0 →
     ∃ v' w1,
       PushBack SIZE_MAX ops x v w0 = Normal () (v', w1) ∧
       Size v' = S (Size v) ∧
       Capacity v' = 1 `max` (2 * Capacity v)).
Proof.
  intros HR Hnb Hpl. split; [|split].
  - destruct (push_all_growth _ HR xs [] 0 w) as (k' & w' & Hrun & _);
      [done|done|done|].
    exists (vector_of xs k'), w'. split; [exact Hrun|].
    apply elements_vector_of.
  - apply growth_pow2.
  - intros v x w0 Hv Hfull Hg.
    destruct (EmplaceBack_appends _ HR (by_copy ops x) x v w0)
      as (v' & w1 & Hrun & _ & _ & Hsize & Hcap);
      [done|done|by apply (builds_by_copy _ HR)|done|].
    exists v', w1. unfold PushBack. rewrite Hrun.
    split; [done|]. split; [done|].
    by rewrite Hcap, bool_decide_eq_false_2 by lia.
Qed.

(** ** Copy assignment *)

Lemma Vector_destroy_never_throws v w e w' :
  Vector_destroy ops v w ≠ Throws e w'.
Proof.
  unfold Vector_destroy.
  destruct (destroy_n ops (buffer_ (data_ v)) 0 (size_ v) w)
    as [[] [b w1]|e1 [b w1]|] eqn:Hd; [done| |done].
  by apply destroy_n_never_throws in Hd.
Qed.

Lemma assign_from_strong l r w e l' w' :
  capacity_ (data_ l) < size_ r →
  assign_from SIZE_MAX ops l r w = Throws e (l', w') → l' = l.
Proof.
  intros Hcap. unfold assign_from. rewrite bool_decide_eq_true_2 by done.
  destruct (Vector_copy SIZE_MAX ops r w) as [rhs_copy w1|e1 w1|]; [| |done].
  - destruct (Swap l rhs_copy) as [this' rhs_copy'].
    destruct (Vector_destroy ops rhs_copy' w1) as [[] w2|e2 w2|] eqn:Hd;
      [done| |done].
    by apply Vector_destroy_never_throws in Hd.
  - by intros [= _ -> _].
Qed.

(** C5: copy assignment [lhs = rhs] between two distinct vectors, held at
    addresses [this] and [rhs] of a store.
    - Whatever the element type, when [rhs.size > lhs.capacity] and the
      assignment throws, [lhs] is untouched.
    - For regular elements the assignment returns, [lhs] then holds the
      elements of [rhs] in storage of its own and [rhs] is unchanged.  When
      [rhs.size > lhs.capacity] the elements are copy-constructed into
      fresh storage of exactly [rhs.size] slots and the old elements of
      [lhs] are destroyed; otherwise the storage of [lhs] is kept, the
      overlapping prefix is copy-assigned, and the excess tail of [lhs] is
      destroyed or the remaining elements of [rhs] are copy-constructed
      into the unused slots. *)
Theorem copy_assignment_three_cases this rhs (σ : gmap nat Vector) l r w :
  this ≠ rhs →
  σ !! this = Some l →
  σ !! rhs = Some r →
  (Capacity l < Size r →
   ∀ e σ' w',
     Vector_copy_assign SIZE_MAX ops this rhs σ w = Throws e (σ', w') → σ' = σ) ∧
  (∀ default_value,
     Regular ops default_value →
     valid SIZE_MAX ops l → valid SIZE_MAX ops r →
     (Capacity l < Size r → granted SIZE_MAX ops (Size r) w) →
     ∃ l' w',
       Vector_copy_assign SIZE_MAX ops this rhs σ w
       = Normal () (<[this := l']> σ, w') ∧
       valid SIZE_MAX ops l' ∧
       elements l' = elements r ∧
       <[this := l']> σ !! rhs = Some r ∧
       if bool_decide (Capacity l < Size r) then
         Capacity l' = Size r ∧
         w'.2 = w.2 ++ (CopyConstructed <$> elements r) ++
                (Destroyed <$> elements l)
       else
         Capacity l' = Capacity l ∧
         w'.2 = w.2 ++ (CopyAssigned <$> take (Size l) (elements r)) ++
                (Destroyed <$> drop (Size r) (elements l)) ++
                (CopyConstructed <$> drop (Size l) (elements r))).
Proof.
  intros Hne Hl Hr. unfold Vector_copy_assign.
  rewrite bool_decide_eq_true_2, Hl, Hr by done. split.
  - intros Hcap e σ' w'.
    destruct (assign_from SIZE_MAX ops l r w) as [[] [l1 w1]|e1 [l1 w1]|] eqn:Hrun;
      [done| |done].
    intros [= _ <- _]. apply assign_from_strong in Hrun as ->; [|done].
    by apply insert_id.
  - intros default_value HR Hvl Hvr Hg.
    pose proof (Size_elements l Hvl) as Hsl.
    pose proof (Size_elements r Hvr) as Hsr.
    destruct (valid_canonical_fits l Hvl) as [Heql Hbl].
    destruct (valid_canonical_fits r Hvr) as [Heqr Hbr].
    assert (Capacity l = length (elements l) + (Capacity l - Size l))
      as Hcl by (destruct Hvl as (? & _); unfold Capacity,
                   RawMemory_Capacity, Size in *; lia).
    assert (Size r ≤ Capacity r) as Hcr by (by destruct Hvr as (? & _)).
    rewrite Hsl, Hsr, Hcl.
    revert Hsl Hsr Heql Heqr Hbl Hbr Hcl Hcr.
    generalize (elements l) (Capacity l - Size l) (elements r)
      (Capacity r - Size r).
    intros xs k ys j Hsl Hsr Heql Heqr Hbl Hbr Hcl Hcr.
    destruct (assign_from_vector_of _ HR xs k ys j w) as [u Hrun].
    { apply (fits_request (length ys + j)); [done|lia]. }
    { intros Hlt. rewrite Hsr, Hcl in Hg. by apply Hg. }
    eexists _, _. rewrite Heql at 1. rewrite Heqr at 1. rewrite Hrun.
    split; [done|]. rewrite elements_vector_of.
    split; [|split; [done|split; [by rewrite lookup_insert_ne|]]].
    { apply valid_vector_of.
      case_bool_decide;
        [eapply fits_le; [exact Hbr|lia]|eapply fits_le; [exact Hbl|lia]]. }
    unfold Capacity, RawMemory_Capacity, vector_of. cbn [snd data_ capacity_].
    case_bool_decide; (split; [lia|done]).
Qed.

(** C10: the self-assignment [v = v] does nothing: the store, and so the
    size, capacity and elements of [v], is unchanged, and so is the world,
    so that no element is copied, assigned or destroyed. *)
Theorem self_assignment_is_noop this (σ : gmap nat Vector) w :
  Vector_copy_assign SIZE_MAX ops this this σ w = Normal () (σ, w).
Proof.
  unfold Vector_copy_assign. by rewrite bool_decide_eq_false_2 by naive_solver.
Qed.


(** * Further properties of the member functions *)

(** ** The storage of a well-formed vector *)

Lemma all_live_fmap b :
  (∀ i, i < length b → is_Some (live b i)) → b = Some <$> omap id b.
Proof.
  induction b as [|s b IH]; intros Hlive; [done|].
  destruct (Hlive 0 ltac:(simpl; lia)) as [x Hx].
  unfold live in Hx. simpl in Hx. subst s. csimpl. f_equal.
  apply IH. intros i Hi. apply (Hlive (S i)). simpl. lia.
Qed.

Lemma well_formed_split v :
  well_formed SIZE_MAX ops v →
  ∃ rest, buffer_ (data_ v) = (Some <$> elements v) ++ rest ∧
          length (elements v) = size_ v ∧
          size_ v + length rest = capacity_ (data_ v).
Proof.
  intros (Hn & Hlen & _ & Hlive).
  assert (take (size_ v) (buffer_ (data_ v)) = Some <$> elements v) as Htake.
  { apply all_live_fmap. intros i Hi. rewrite length_take in Hi.
    unfold live. rewrite lookup_take_lt by lia. apply Hlive. lia. }
  exists (drop (size_ v) (buffer_ (data_ v))). split; [|split].
  - by rewrite <- Htake, take_drop.
  - rewrite <- (length_fmap Some), <- Htake, length_take. lia.
  - rewrite length_drop. lia.
Qed.

Lemma valid_well_formed v : valid SIZE_MAX ops v → well_formed SIZE_MAX ops v.
Proof.
  intros (Hn & Hc & Hl & Hb). unfold well_formed.
  split; [done|]. split; [|split; [done|]].
  - rewrite Hb. unfold cells. len.
  - intros i Hi. rewrite Hb. unfold live, cells.
    rewrite lookup_app_l by len. rewrite list_lookup_fmap.
    destruct (lookup_lt_is_Some_2 (elements v) i ltac:(lia)) as [x ->].
    by eexists.
Qed.

(** ** The destructor *)

(** X1: the destructor of a well-formed vector returns, having destroyed
    the elements in [begin(), end()), each once, from the first to the
    last, and nothing else. *)
Theorem Vector_destroy_destroys_elements v w :
  well_formed SIZE_MAX ops v →
  length (elements v) = Size v ∧
  ∃ u, Vector_destroy ops v w
       = Normal () (u, w.2 ++ (Destroyed <$> elements v)).
Proof.
  intros Hwf. destruct (well_formed_split v Hwf) as (rest & Hb & Hl & _).
  split; [done|]. unfold Vector_destroy. rewrite Hb, <- Hl.
  destruct (destroy_n_live (elements v) [] rest w) as [u Hd].
  simpl in Hd. rewrite Hd. by exists u.
Qed.

(** ** [PopBack] *)

Lemma PopBack_spec v w :
  well_formed SIZE_MAX ops v →
  0 < Size v →
  ∃ v' u x,
    PopBack SIZE_MAX ops v w = Normal () (v', (u, w.2 ++ [Destroyed x])) ∧
    elements v = elements v' ++ [x] ∧
    S (Size v') = Size v ∧
    Capacity v' = Capacity v ∧
    well_formed SIZE_MAX ops v'.
Proof.
  intros Hwf Hpos.
  destruct (well_formed_split v Hwf) as (rest & Hb & Hl & Hrest).
  pose proof Hwf as (Hn & Hlen & Hmax & Hlive).
  pose proof (proj1 (fits_bound _ Hmax)) as Hbound.
  unfold Size, Capacity, RawMemory_Capacity in *.
  assert (∃ l x0, elements v = l ++ [x0]) as (l & x0 & Hel).
  { revert Hl. generalize (elements v). intros l0 Hl.
    induction l0 as [|x0 l _] using rev_ind; [simpl in Hl; lia|eauto]. }
  rewrite Hel in *. rewrite length_app in Hl. simpl in Hl.
  unfold PopBack. replace (size_ v) with (S (length l)) by lia.
  unfold destroy_at. rewrite Hb, fmap_app, <- app_assoc. csimpl.
  rewrite live_at, insert_at by len.
  rewrite wrap_sub_small by lia. rewrite Nat.sub_1_r. simpl.
  eexists _, _, x0. split; [reflexivity|].
  assert (elements (with_size (with_buffer v ((Some <$> l) ++ None :: rest))
                      (length l)) = l) as Hel'.
  { unfold elements, with_size, with_buffer. cbn [size_ data_ buffer_].
    rewrite <- (length_fmap Some l) at 1.
    by rewrite take_app_length, omap_id_Some. }
  rewrite Hel'. split; [done|]. split; [simpl; lia|]. split; [done|].
  unfold with_size, with_buffer. apply well_formed_intro; [lia|len|done|].
  intros i Hi. unfold live. rewrite lookup_app_l by len.
  rewrite list_lookup_fmap.
  destruct (lookup_lt_is_Some_2 l i Hi) as [y ->]. by eexists.
Qed.

(** X2: [PopBack] on a well-formed, non-empty vector returns, whatever the
    element type: the last element is destroyed and nothing else happens;
    the other elements, in order, are what is left, in the same storage. *)
Theorem PopBack_removes_last v w :
  well_formed SIZE_MAX ops v →
  0 < Size v →
  ∃ v' u x,
    PopBack SIZE_MAX ops v w = Normal () (v', (u, w.2 ++ [Destroyed x])) ∧
    elements v = elements v' ++ [x] ∧
    S (Size v') = Size v ∧
    Capacity v' = Capacity v ∧
    well_formed SIZE_MAX ops v'.
Proof. apply PopBack_spec. Qed.

(** X3: erasing the last element is [PopBack]: no element is moved. *)
Theorem Erase_last_is_PopBack v w :
  0 < Size v →
  discard (Erase SIZE_MAX ops (Size v - 1) v w) = PopBack SIZE_MAX ops v w.
Proof.
  unfold Size, Erase, PopBack. intros Hpos.
  rewrite bool_decide_eq_true_2 by lia.
  replace (size_ v - (size_ v - 1 + 1)) with 0 by lia. simpl.
  destruct (size_ v) as [|last]; [lia|].
  by destruct (destroy_at ops (buffer_ (data_ v)) last w)
    as [[] [b w1]|e [b w1]|].
Qed.

(** ** What a call leaves of the size and the capacity *)

Lemma ReallocateData_shape v new_data w :
  match ReallocateData ops v new_data w with
  | Normal _ (v', _, _) =>
      size_ v' = size_ v ∧ capacity_ (data_ v') = capacity_ new_data
  | Throws _ (v', _, _) =>
      size_ v' = size_ v ∧ capacity_ (data_ v') = capacity_ (data_ v)
  | Undefined => True
  end.
Proof.
  unfold ReallocateData, RawMemory_Swap, with_buffer.
  repeat case_match; simplify_eq/=; done.
Qed.

Lemma EmplaceBack_shape ctor v w :
  match EmplaceBack SIZE_MAX ops ctor v w with
  | Normal _ (v', _) =>
      size_ v' = wrap SIZE_MAX (size_ v + 1) ∧
      (capacity_ (data_ v') = capacity_ (data_ v) ∨
       ¬ size_ v < capacity_ (data_ v) ∧
       capacity_ (data_ v') =
         if bool_decide (size_ v = 0) then 1
         else wrap SIZE_MAX (capacity_ (data_ v) * 2))
  | Throws _ (v', _) =>
      size_ v' = size_ v ∧ capacity_ (data_ v') = capacity_ (data_ v)
  | Undefined => True
  end.
Proof.
  unfold EmplaceBack, Capacity, RawMemory_Capacity.
  generalize (if bool_decide (size_ v = 0) then 1
              else wrap SIZE_MAX (capacity_ (data_ v) * 2)).
  intros new_capacity. case_bool_decide as Hfull.
  - destruct (construct_at _ _ _ _) as [[] [b w1]|e [b w1]|]; [|done|done].
    unfold with_size, with_buffer. cbn [size_ data_ capacity_].
    case_bool_decide; [|done]. cbn [size_ data_ capacity_]. auto.
  - destruct (RawMemory_sized SIZE_MAX ops new_capacity w) as [new_data w1|e w1|] eqn:Hnew;
      [|done|done].
    apply RawMemory_sized_block in Hnew as (slots & -> & _). cbn [buffer_ capacity_].
    destruct (construct_at _ _ _ _) as [[] [nb w2]|e [nb w2]|]; [|done|done].
    pose proof (ReallocateData_shape v (mkRawMemory nb new_capacity) w2)
      as Hshape.
    destruct (ReallocateData _ _ _ _) as [[] [[v1 nd] w3]|e [[v1 nd] w3]|];
      [|done|done].
    destruct Hshape as [Hs Hc]. unfold with_size. cbn [size_ data_ capacity_].
    case_bool_decide; [|done]. cbn [size_ data_ capacity_] in *.
    rewrite Hs, Hc. auto.
Qed.

Lemma Emplace_shape pos ctor v w :
  match Emplace SIZE_MAX ops pos ctor v w with
  | Normal _ (v', _) =>
      size_ v' = wrap SIZE_MAX (size_ v + 1) ∧
      (capacity_ (data_ v') = capacity_ (data_ v) ∨
       ¬ size_ v < capacity_ (data_ v) ∧
       capacity_ (data_ v') =
         if bool_decide (size_ v = 0) then 1
         else wrap SIZE_MAX (capacity_ (data_ v) * 2))
  | Throws _ (v', _) =>
      size_ v' = size_ v ∧ capacity_ (data_ v') = capacity_ (data_ v)
  | Undefined => True
  end.
Proof.
  unfold Emplace. case_bool_decide as Hend; [apply EmplaceBack_shape|].
  unfold Capacity, RawMemory_Capacity.
  generalize (if bool_decide (size_ v = 0) then 1
              else wrap SIZE_MAX (capacity_ (data_ v) * 2)).
  intros new_capacity. case_bool_decide as Hfull.
  - unfold with_size, with_buffer.
    repeat case_match; simplify_eq/=; auto.
  - destruct (RawMemory_sized SIZE_MAX ops new_capacity w) as [new_data w1|e w1|] eqn:Hnew;
      [|done|done].
    apply RawMemory_sized_block in Hnew as (slots & -> & _).
    unfold RawMemory_Swap, with_size, with_buffer.
    repeat case_match; simplify_eq/=; auto.
Qed.

Lemma Reserve_shape n v w :
  match Reserve SIZE_MAX ops n v w with
  | Normal _ (v', _) =>
      size_ v' = size_ v ∧
      capacity_ (data_ v') =
        if bool_decide (n ≤ capacity_ (data_ v)) then capacity_ (data_ v)
        else n
  | Throws _ (v', _) =>
      size_ v' = size_ v ∧ capacity_ (data_ v') = capacity_ (data_ v)
  | Undefined => True
  end.
Proof.
  unfold Reserve, Capacity, RawMemory_Capacity. case_bool_decide; [done|].
  destruct (RawMemory_sized SIZE_MAX ops n w) as [new_data w1|e w1|] eqn:Hnew;
    [|done|done].
  apply RawMemory_sized_block in Hnew as (slots & -> & _).
  pose proof (ReallocateData_shape v (mkRawMemory (replicate slots None) n)
                w1) as Hshape.
  by destruct (ReallocateData _ _ _ _) as [[] [[v1 nd] w3]|e [[v1 nd] w3]|].
Qed.

Lemma Resize_shape n v w :
  match Resize SIZE_MAX ops n v w with
  | Normal _ (v', _) =>
      size_ v' = n ∧ capacity_ (data_ v) ≤ capacity_ (data_ v')
  | Throws _ (v', _) =>
      size_ v' = size_ v ∧ capacity_ (data_ v) ≤ capacity_ (data_ v')
  | Undefined => True
  end.
Proof.
  unfold Resize. case_bool_decide as Hsame; [by subst|].
  case_bool_decide as Hless.
  - unfold with_size, with_buffer.
    by destruct (destroy_n _ _ _ _ _) as [[] [b w1]|e [b w1]|].
  - pose proof (Reserve_shape n v w) as Hshape.
    destruct (Reserve SIZE_MAX ops n v w) as [[] [v1 w1]|e [v1 w1]|]; [| |done].
    + destruct Hshape as [Hs Hc].
      assert (capacity_ (data_ v) ≤ capacity_ (data_ v1))
        by (rewrite Hc; case_bool_decide; lia).
      unfold with_size, with_buffer.
      by destruct (uninitialized_value_construct_n _ _ _ _ _)
        as [[] [b w2]|e [b w2]|].
    + destruct Hshape as [Hs Hc]. split; [done|lia].
Qed.

Lemma Vector_copy_shape other w :
  match Vector_copy SIZE_MAX ops other w with
  | Normal v' _ =>
      size_ v' = size_ other ∧ capacity_ (data_ v') = size_ other
  | _ => True
  end.
Proof.
  unfold Vector_copy.
  destruct (RawMemory_sized SIZE_MAX ops (size_ other) w) as [new_data w1|e w1|] eqn:Hnew;
    [|done|done].
  apply RawMemory_sized_block in Hnew as (slots & -> & _).
  by destruct (uninitialized_copy_n _ _ _ _ _ _ _) as [r [b w2]|e [b w2]|].
Qed.

Lemma assign_from_shape this rhs w :
  match assign_from SIZE_MAX ops this rhs w with
  | Normal _ (v', _) =>
      size_ v' = size_ rhs ∧
      capacity_ (data_ v') =
        if bool_decide (capacity_ (data_ this) < size_ rhs) then size_ rhs
        else capacity_ (data_ this)
  | Throws _ (v', _) =>
      size_ v' = size_ this ∧ capacity_ (data_ v') = capacity_ (data_ this)
  | Undefined => True
  end.
Proof.
  unfold assign_from. case_bool_decide as Hcap.
  - pose proof (Vector_copy_shape rhs w) as Hshape.
    destruct (Vector_copy SIZE_MAX ops rhs w) as [rhs_copy w1|e w1|]; [|done|done].
    destruct this as [[b c] n], rhs_copy as [[b' c'] n']. simpl in *.
    destruct (Vector_destroy ops _ w1) as [[] w2|e w2|] eqn:Hd; [done| |done].
    by apply Vector_destroy_never_throws in Hd.
  - unfold with_size, with_buffer.
    repeat case_match; simplify_eq/=; auto.
Qed.

Lemma PopBack_shape v w :
  match PopBack SIZE_MAX ops v w with
  | Normal _ (v', _) =>
      size_ v' = wrap_sub SIZE_MAX (size_ v) 1 ∧
      capacity_ (data_ v') = capacity_ (data_ v)
  | Throws _ _ => False
  | Undefined => True
  end.
Proof.
  unfold PopBack, destroy_at. repeat case_match; simplify_eq/=; auto.
Qed.

Lemma Erase_shape pos v w :
  match Erase SIZE_MAX ops pos v w with
  | Normal _ (v', _) =>
      size_ v' = wrap_sub SIZE_MAX (size_ v) 1 ∧
      capacity_ (data_ v') = capacity_ (data_ v)
  | Throws _ (v', _) =>
      size_ v' = size_ v ∧ capacity_ (data_ v') = capacity_ (data_ v)
  | Undefined => True
  end.
Proof.
  unfold Erase, destroy_at, with_size, with_buffer.
  repeat case_match; simplify_eq/=; auto.
Qed.

(** X5: a call of a member function that lets an exception out leaves the
    size as it was, whatever the element type and whichever operation of
    it threw. *)
Theorem throwing_call_keeps_size op v w e v' w' :
  member_call SIZE_MAX ops op →
  op v w = Throws e (v', w') →
  Size v' = Size v.
Proof.
  unfold Size. intros Hop Hrun. destruct Hop.
  - pose proof (PopBack_shape v w) as H. by rewrite Hrun in H.
  - pose proof (EmplaceBack_shape ctor v w) as H.
    destruct (EmplaceBack _ _ _ _ _) as [r [v1 w1]|e1 [v1 w1]|];
      simplify_eq/=. tauto.
  - pose proof (EmplaceBack_shape (by_copy ops x) v w) as H.
    unfold PushBack in Hrun.
    destruct (EmplaceBack _ _ _ _ _) as [r [v1 w1]|e1 [v1 w1]|];
      simplify_eq/=. tauto.
  - pose proof (EmplaceBack_shape (by_move ops x) v w) as H.
    unfold PushBack_rvalue in Hrun.
    destruct (EmplaceBack _ _ _ _ _) as [r [v1 w1]|e1 [v1 w1]|];
      simplify_eq/=. tauto.
  - pose proof (Emplace_shape pos ctor v w) as H.
    destruct (Emplace _ _ _ _ _ _) as [r [v1 w1]|e1 [v1 w1]|];
      simplify_eq/=. tauto.
  - pose proof (Emplace_shape pos (by_copy ops x) v w) as H.
    unfold Insert in Hrun.
    destruct (Emplace _ _ _ _ _ _) as [r [v1 w1]|e1 [v1 w1]|];
      simplify_eq/=. tauto.
  - pose proof (Emplace_shape pos (by_move ops x) v w) as H.
    unfold Insert_rvalue in Hrun.
    destruct (Emplace _ _ _ _ _ _) as [r [v1 w1]|e1 [v1 w1]|];
      simplify_eq/=. tauto.
  - pose proof (Erase_shape pos v w) as H.
    destruct (Erase _ _ _ _ _) as [r [v1 w1]|e1 [v1 w1]|];
      simplify_eq/=. tauto.
  - pose proof (Reserve_shape n v w) as H. rewrite Hrun in H. tauto.
  - pose proof (Resize_shape n v w) as H. rewrite Hrun in H. tauto.
  - pose proof (assign_from_shape v rhs w) as H. rewrite Hrun in H. tauto.
Qed.

(** X6: no call of a member function on a well-formed vector leaves it
    with less capacity than it had, whether the call returns or throws. *)
Theorem capacity_never_shrinks op v w v' :
  well_formed SIZE_MAX ops v →
  member_call SIZE_MAX ops op →
  left_by (op v w) v' →
  Capacity v ≤ Capacity v'.
Proof.
  unfold Capacity, RawMemory_Capacity.
  intros (Hn & _ & Hmax & _) Hop Hleft.
  apply fits_bound in Hmax as [Hmax _].
  assert (∀ c, (c = capacity_ (data_ v) ∨
                ¬ size_ v < capacity_ (data_ v) ∧
                c = if bool_decide (size_ v = 0) then 1
                    else wrap SIZE_MAX (capacity_ (data_ v) * 2)) →
               capacity_ (data_ v) ≤ c) as Hgrow.
  { intros c [->|[Hfull ->]]; [done|]. case_bool_decide; [lia|].
    rewrite wrap_small by lia. lia. }
  destruct Hop.
  - pose proof (PopBack_shape v w) as H.
    destruct (PopBack _ _ _ _) as [r [v1 w1]|e1 [v1 w1]|];
      simplify_eq/=; first [done | lia].
  - pose proof (EmplaceBack_shape ctor v w) as H.
    destruct (EmplaceBack _ _ _ _ _) as [r [v1 w1]|e1 [v1 w1]|];
      simplify_eq/=; first [done | lia | apply Hgrow; tauto].
  - pose proof (EmplaceBack_shape (by_copy ops x) v w) as H.
    unfold PushBack in Hleft.
    destruct (EmplaceBack _ _ _ _ _) as [r [v1 w1]|e1 [v1 w1]|];
      simplify_eq/=; first [done | lia | apply Hgrow; tauto].
  - pose proof (EmplaceBack_shape (by_move ops x) v w) as H.
    unfold PushBack_rvalue in Hleft.
    destruct (EmplaceBack _ _ _ _ _) as [r [v1 w1]|e1 [v1 w1]|];
      simplify_eq/=; first [done | lia | apply Hgrow; tauto].
  - pose proof (Emplace_shape pos ctor v w) as H.
    destruct (Emplace _ _ _ _ _ _) as [r [v1 w1]|e1 [v1 w1]|];
      simplify_eq/=; first [done | lia | apply Hgrow; tauto].
  - pose proof (Emplace_shape pos (by_copy ops x) v w) as H.
    unfold Insert in Hleft.
    destruct (Emplace _ _ _ _ _ _) as [r [v1 w1]|e1 [v1 w1]|];
      simplify_eq/=; first [done | lia | apply Hgrow; tauto].
  - pose proof (Emplace_shape pos (by_move ops x) v w) as H.
    unfold Insert_rvalue in Hleft.
    destruct (Emplace _ _ _ _ _ _) as [r [v1 w1]|e1 [v1 w1]|];
      simplify_eq/=; first [done | lia | apply Hgrow; tauto].
  - pose proof (Erase_shape pos v w) as H.
    destruct (Erase _ _ _ _ _) as [r [v1 w1]|e1 [v1 w1]|];
      simplify_eq/=; first [done | lia].
  - pose proof (Reserve_shape n v w) as H.
    destruct (Reserve _ _ _ _) as [r [v1 w1]|e1 [v1 w1]|];
      simplify_eq/=;
      first [done | lia | destruct H as [_ ->]; clear Hgrow; case_bool_decide; lia].
  - pose proof (Resize_shape n v w) as H.
    destruct (Resize _ _ _ _) as [r [v1 w1]|e1 [v1 w1]|];
      simplify_eq/=; first [done | lia].
  - pose proof (assign_from_shape v rhs w) as H.
    destruct (assign_from _ _ _ _) as [r [v1 w1]|e1 [v1 w1]|];
      simplify_eq/=;
      first [done | lia | destruct H as [_ ->]; clear Hgrow; case_bool_decide; lia].
Qed.

(** ** Failures before any element is touched *)

Lemma RawMemory_sized_refused n w :
  n ≠ 0 → ¬ granted SIZE_MAX ops n w →
  ∃ u, RawMemory_sized SIZE_MAX ops n w = Throws bad_alloc (u, w.2).
Proof.
  intros Hn Hg. unfold RawMemory_sized.
  destruct (Allocate_block n w) as [(u & -> & _)|(u & _ & H)];
    [by exists u|]. destruct Hg. by apply H.
Qed.

Lemma new_capacity_max v :
  well_formed SIZE_MAX ops v → ¬ size_ v < capacity_ (data_ v) →
  (if bool_decide (size_ v = 0) then 1
   else wrap SIZE_MAX (capacity_ (data_ v) * 2))
  = 1 `max` (2 * capacity_ (data_ v)).
Proof.
  intros (Hn & _ & Hmax & _) Hfull. apply fits_bound in Hmax as [Hmax _].
  case_bool_decide; [lia|]. rewrite wrap_small by lia. lia.
Qed.

(** A well-formed vector asks for no more than a [size_t] counts the
    bytes of when it grows. *)
Lemma well_formed_request v :
  well_formed SIZE_MAX ops v →
  (1 `max` (2 * capacity_ (data_ v))) * sizeof ops ≤ SIZE_MAX.
Proof.
  intros (_ & _ & Hmax & _). by apply (fits_request (capacity_ (data_ v))).
Qed.

(** X7: when the memory system refuses the storage a call asks for, the
    call throws [bad_alloc] and the vector is exactly as it was; no
    element has been constructed, assigned or destroyed.  This holds for
    [Reserve] and [Resize] beyond the capacity and for [EmplaceBack] and
    [Emplace] on a full vector, whatever the element type. *)
Theorem refused_allocation_leaves_vector v w :
  well_formed SIZE_MAX ops v →
  (∀ n, Capacity v < n → ¬ granted SIZE_MAX ops n w →
     ∃ u, Reserve SIZE_MAX ops n v w = Throws bad_alloc (v, (u, w.2)) ∧
          Resize SIZE_MAX ops n v w = Throws bad_alloc (v, (u, w.2))) ∧
  (Size v = Capacity v → ¬ granted SIZE_MAX ops (1 `max` (2 * Capacity v)) w →
     ∀ ctor,
       ∃ u, EmplaceBack SIZE_MAX ops ctor v w
            = Throws bad_alloc (v, (u, w.2)) ∧
            ∀ pos, Emplace SIZE_MAX ops pos ctor v w
                   = Throws bad_alloc (v, (u, w.2))).
Proof.
  intros Hwf. pose proof Hwf as (Hn & _ & Hmax & _).
  apply fits_bound in Hmax as [Hmax _].
  unfold Size, Capacity, RawMemory_Capacity. split.
  - intros n Hcap Hg.
    destruct (RawMemory_sized_refused n w ltac:(lia) Hg) as [u Hnew].
    exists u.
    assert (Reserve SIZE_MAX ops n v w = Throws bad_alloc (v, (u, w.2))) as HR.
    { unfold Reserve, Capacity, RawMemory_Capacity.
      rewrite bool_decide_eq_false_2 by lia. by rewrite Hnew. }
    split; [done|]. unfold Resize.
    rewrite (bool_decide_eq_false_2 (n = size_ v)) by lia.
    rewrite (bool_decide_eq_false_2 (n < size_ v)) by lia.
    by rewrite HR.
  - intros Hfull Hg ctor.
    destruct (RawMemory_sized_refused (1 `max` (2 * capacity_ (data_ v))) w
                ltac:(lia) Hg) as [u Hnew].
    exists u.
    assert (EmplaceBack SIZE_MAX ops ctor v w
            = Throws bad_alloc (v, (u, w.2))) as HE.
    { unfold EmplaceBack, Capacity, RawMemory_Capacity.
      rewrite (bool_decide_eq_false_2 (size_ v < _)) by lia.
      rewrite new_capacity_max by (done || lia). by rewrite Hnew. }
    split; [done|]. intros pos. unfold Emplace.
    case_bool_decide; [done|]. unfold Capacity, RawMemory_Capacity.
    rewrite (bool_decide_eq_false_2 (size_ v < _)) by lia.
    rewrite new_capacity_max by (done || lia). by rewrite Hnew.
Qed.

(** X8: when the constructor of the new element throws, [EmplaceBack] and
    [Emplace] throw and the vector is exactly as it was, with or without
    spare capacity and whatever the element type; no element of the vector
    has been copied, moved or destroyed. *)
Theorem failed_construction_leaves_vector ctor v w :
  well_formed SIZE_MAX ops v →
  (∀ u, ∃ e u', ctor u = (inl e, u')) →
  (∃ e u, EmplaceBack SIZE_MAX ops ctor v w = Throws e (v, (u, w.2))) ∧
  (∀ pos, pos ≤ Size v →
     ∃ e u, Emplace SIZE_MAX ops pos ctor v w = Throws e (v, (u, w.2))).
Proof.
  intros Hwf Hctor. pose proof Hwf as (Hn & Hlen & Hmax & _).
  apply fits_bound in Hmax as [Hmax _].
  unfold Size.
  assert (∀ pos, pos ≤ size_ v → ¬ size_ v < capacity_ (data_ v) →
    ∃ e u,
      match RawMemory_sized SIZE_MAX ops (1 `max` (2 * capacity_ (data_ v))) w with
      | Normal new_data w1 =>
          match construct_at (buffer_ new_data) pos ctor w1 with
          | Normal _ _ => Undefined
          | Throws e (_, w2) => Throws e (v, w2)
          | Undefined => Undefined
          end
      | Throws e w1 => Throws e (v, w1)
      | Undefined => Undefined
      end = Throws (R := nat) e (v, (u, w.2))) as Hrealloc.
  { intros pos Hpos Hfull.
    destruct (RawMemory_sized_cases (1 `max` (2 * capacity_ (data_ v))) w
                (well_formed_request v Hwf))
      as [[u ->]|(u & -> & _)]; [by eexists _, _|].
    unfold construct_at, in_range. cbn [buffer_].
    rewrite bool_decide_eq_true_2 by (rewrite length_replicate; lia).
    destruct (Hctor u) as (e & u' & Hc). simpl. rewrite Hc.
    by eexists _, _. }
  assert (∃ e u, EmplaceBack SIZE_MAX ops ctor v w = Throws e (v, (u, w.2)))
    as HE.
  { unfold EmplaceBack, Capacity, RawMemory_Capacity.
    case_bool_decide as Hfull.
    - unfold construct_at, in_range. rewrite bool_decide_eq_true_2 by lia.
      destruct (Hctor w.1) as (e & u' & ->). by eexists _, _.
    - rewrite new_capacity_max by done.
      destruct (Hrealloc (size_ v) ltac:(lia) Hfull) as (e & u & Hrun).
      exists e, u. revert Hrun.
      destruct (RawMemory_sized _ _ _) as [new_data w1|e1 w1|]; [|done|done].
      by destruct (construct_at _ _ _ _) as [[] [nb w2]|e2 [nb w2]|]. }
  split; [done|]. intros pos Hpos. unfold Emplace.
  case_bool_decide; [done|]. unfold Capacity, RawMemory_Capacity.
  case_bool_decide as Hfull.
  - destruct (Hctor w.1) as (e & u' & ->). by eexists _, _.
  - rewrite new_capacity_max by done.
    destruct (Hrealloc pos Hpos Hfull) as (e & u & Hrun).
    exists e, u. revert Hrun.
    destruct (RawMemory_sized _ _ _) as [new_data w1|e1 w1|]; [|done|done].
    by destruct (construct_at _ _ _ _) as [[] [nb w2]|e2 [nb w2]|].
Qed.

(** ** Regular element types: construction, [Reserve] and round trips *)

Section regular_more.

Context (default_value : T) (HR : Regular ops default_value).

(** X9: for a regular element type and a number [n] of elements whose
    bytes a [size_t] counts, [Vector(n)] returns a vector of [n] elements,
    each the default value, value-initialised one after the other, in
    storage of exactly [n] slots; for [n = 0] it asks for no storage. *)
Theorem Vector_sized_default_values n w :
  n * sizeof ops ≤ SIZE_MAX →
  (n ≠ 0 → granted SIZE_MAX ops n w) →
  ∃ v' u,
    Vector_sized SIZE_MAX ops n w
    = Normal v' (u, w.2 ++ replicate n (Constructed default_value)) ∧
    elements v' = replicate n default_value ∧
    Size v' = n ∧
    Capacity v' = n ∧
    (n = 0 → v' = Vector_default).
Proof.
  intros Hle Hg. unfold Vector_sized.
  assert (∃ u, RawMemory_sized SIZE_MAX ops n w
               = Normal (mkRawMemory (replicate n None) n) (u, w.2))
    as [u ->].
  { destruct (decide (n = 0)) as [->|Hn].
    - exists w.1. rewrite RawMemory_sized_zero. by destruct w.
    - by apply RawMemory_sized_granted; [| |apply Hg]. }
  cbn [buffer_ capacity_].
  destruct (uninitialized_value_construct_n_at _ HR (replicate n None) 0 n
              (u, w.2) [] (replicate n None) [])
    as [u1 ->]; [by rewrite app_nil_r|done|len|].
  exists (vector_of (replicate n default_value) 0), u1.
  split; [|split; [|split; [|split]]].
  - f_equal. apply Vector_eq; [|len|len].
    unfold cells. csimpl. by rewrite fmap_replicate.
  - apply elements_vector_of.
  - unfold Size, vector_of. simpl. len.
  - unfold Capacity, RawMemory_Capacity, vector_of. simpl. len.
  - by intros ->.
Qed.

(** X10: for a regular element type, copy construction from a valid
    vector returns a valid vector with the same elements, copy-constructed
    in order, and leaves out the spare capacity: the capacity of the copy
    is the size of the source. *)
Theorem Vector_copy_same_elements other w :
  valid SIZE_MAX ops other →
  (Size other ≠ 0 → granted SIZE_MAX ops (Size other) w) →
  ∃ v' u,
    Vector_copy SIZE_MAX ops other w
    = Normal v' (u, w.2 ++ (CopyConstructed <$> elements other)) ∧
    valid SIZE_MAX ops v' ∧
    elements v' = elements other ∧
    Size v' = Size other ∧
    Capacity v' = Size other.
Proof.
  intros Hv Hg. pose proof (Size_elements other Hv) as Hsize.
  destruct (valid_canonical_fits other Hv) as [Heq Hb].
  revert Hsize Heq Hb. generalize (elements other) (Capacity other - Size other).
  intros ys j Hsize Heq Hb.
  destruct (Vector_copy_vector_of _ HR ys j w) as [u Hrun].
  { apply (fits_request (length ys + j)); [done|lia]. }
  { intros Hys. rewrite Hsize in Hg. apply Hg. by destruct ys. }
  exists (vector_of ys 0), u. rewrite Heq at 1. split; [done|].
  split; [apply valid_vector_of; eapply fits_le; [exact Hb|lia]|].
  split; [apply elements_vector_of|].
  rewrite Hsize. unfold Size, Capacity, RawMemory_Capacity, vector_of.
  simpl. split; lia.
Qed.

(** X11: for a regular element type, [Reserve(n)] on a valid vector
    returns a valid vector with the same elements and the capacity
    [max(capacity, n)]; with [n] within the capacity it does nothing at
    all.  Beyond the capacity, the bytes of [n] elements have to be a
    value of [size_t] and the memory system has to grant them. *)
Theorem Reserve_keeps_elements n v w :
  new_bounded SIZE_MAX ops →
  valid SIZE_MAX ops v →
  (Capacity v < n →
   n * sizeof ops ≤ SIZE_MAX ∧ granted SIZE_MAX ops n w) →
  ∃ v' w',
    Reserve SIZE_MAX ops n v w = Normal () (v', w') ∧
    valid SIZE_MAX ops v' ∧
    elements v' = elements v ∧
    Size v' = Size v ∧
    Capacity v' = Capacity v `max` n ∧
    (n ≤ Capacity v → v' = v ∧ w' = w).
Proof.
  intros Hnb Hv Hg. pose proof (Size_elements v Hv) as Hsize.
  destruct (valid_canonical v Hv) as [Heq Hb].
  assert (Capacity v = length (elements v) + (Capacity v - Size v)) as Hcap
    by (destruct Hv as (? & _); unfold Capacity, RawMemory_Capacity,
          Size in *; lia).
  destruct (decide (n ≤ Capacity v)) as [Hle|Hgt].
  { exists v, w. unfold Reserve. rewrite bool_decide_eq_true_2 by done.
    do 4 (split; [done|]). split; [lia|done]. }
  destruct (Hg ltac:(lia)) as [Hreq Hgr].
  pose proof (granted_fits n w Hnb ltac:(lia) Hreq Hgr) as Hfn.
  revert Hsize Heq Hb Hcap. generalize (elements v) (Capacity v - Size v).
  intros xs k Hsize Heq Hb Hcap.
  destruct (Reserve_vector_of _ HR xs k n w) as [w' Hrun].
  { by intros _. }
  rewrite bool_decide_eq_false_2 in Hrun by lia.
  eexists _, w'. rewrite Heq at 1. split; [exact Hrun|].
  split; [apply valid_vector_of; eapply fits_le; [exact Hfn|lia]|].
  split; [apply elements_vector_of|].
  rewrite Hsize, Hcap. unfold Size, Capacity, RawMemory_Capacity, vector_of.
  simpl. repeat split; lia.
Qed.

(** X12: for a regular element type, [PushBack(x)] followed by [PopBack()]
    gives back the elements the vector had; the capacity may have grown. *)
Theorem PushBack_PopBack_round_trip x v w :
  new_bounded SIZE_MAX ops →
  valid SIZE_MAX ops v →
  (Size v = Capacity v → granted SIZE_MAX ops (1 `max` (2 * Capacity v)) w) →
  ∃ v1 w1 v2 w2,
    PushBack SIZE_MAX ops x v w = Normal () (v1, w1) ∧
    PopBack SIZE_MAX ops v1 w1 = Normal () (v2, w2) ∧
    elements v2 = elements v ∧
    Size v2 = Size v ∧
    Capacity v ≤ Capacity v2.
Proof.
  intros Hnb Hv Hg.
  destruct (EmplaceBack_appends _ HR (by_copy ops x) x v w)
    as (v1 & w1 & Hrun & Hv1 & Hel1 & Hs1 & Hc1);
    [done|done|by apply (builds_by_copy _ HR)|done|].
  destruct (PopBack_spec v1 w1 (valid_well_formed v1 Hv1) ltac:(lia))
    as (v2 & u & y & Hpop & Hel2 & Hs2 & Hc2 & _).
  exists v1, w1, v2, (u, w1.2 ++ [Destroyed y]).
  unfold PushBack. rewrite Hrun. split; [done|]. split; [done|].
  rewrite Hel1 in Hel2. apply app_inj_tail in Hel2 as [Hel2 _].
  split; [done|]. split; [lia|]. rewrite Hc2, Hc1.
  case_bool_decide; lia.
Qed.

(** X13: for a regular element type, [Insert(pos, x)] followed by
    [Erase(pos)] gives back the elements the vector had. *)
Theorem Insert_Erase_round_trip pos x v w :
  new_bounded SIZE_MAX ops →
  valid SIZE_MAX ops v →
  pos ≤ Size v →
  (Size v = Capacity v → granted SIZE_MAX ops (1 `max` (2 * Capacity v)) w) →
  ∃ v1 w1 v2 w2,
    Insert SIZE_MAX ops pos x v w = Normal pos (v1, w1) ∧
    Erase SIZE_MAX ops pos v1 w1 = Normal pos (v2, w2) ∧
    elements v2 = elements v ∧
    Size v2 = Size v.
Proof.
  intros Hnb Hv Hpos Hg. pose proof (Size_elements v Hv) as Hsize.
  destruct (valid_canonical_fits v Hv) as [Heq Hf].
  assert (Capacity v = length (elements v) + (Capacity v - Size v)) as Hcap
    by (destruct Hv as (? & _); unfold Capacity, RawMemory_Capacity,
          Size in *; lia).
  revert Hsize Heq Hf Hcap. generalize (elements v) (Capacity v - Size v).
  intros xs k Hsize Heq Hf Hcap.
  pose proof (proj1 (fits_bound _ Hf)) as Hb.
  assert (k = 0 → granted SIZE_MAX ops (1 `max` (2 * length xs)) w) as Hg'.
  { intros ->. rewrite Hcap, Hsize, Nat.add_0_r in Hg. by apply Hg. }
  destruct (Emplace_vector_of _ HR xs k pos (by_copy ops x) x w)
    as [w1 Hins]; [done|done|by apply (builds_by_copy _ HR)|lia|done|].
  set (k1 := if bool_decide (k = 0)
             then 1 `max` (2 * length xs) - S (length xs) else k - 1) in *.
  assert (2 * (length (take pos xs ++ x :: drop pos xs) + k1) ≤ SIZE_MAX)
    as Hb1.
  { unfold k1. rewrite length_app, length_cons, length_take, length_drop.
    case_bool_decide as Hk; [|lia]. subst k.
    destruct (granted_growth (length xs + 0) (1 `max` (2 * length xs)) w
                Hnb Hf ltac:(lia) ltac:(lia) (Hg' eq_refl))
      as (_ & _ & Hbn).
    lia. }
  destruct (Erase_vector_of _ HR (take pos xs) x (drop pos xs) k1 w1 Hb1)
    as (l & u & Hers).
  rewrite length_take, Nat.min_l in Hers by lia.
  rewrite take_drop in Hers.
  eexists _, w1, _, _. unfold Insert. rewrite Heq at 1.
  split; [exact Hins|]. split; [exact Hers|].
  rewrite elements_vector_of. split; [done|].
  rewrite Hsize. unfold Size, vector_of. done.
Qed.

End regular_more.

(** ** How many elements a call relocates *)

Lemma relocations_app (tr1 tr2 : list (@event T)) :
  relocations (tr1 ++ tr2) = relocations tr1 + relocations tr2.
Proof.
  induction tr1 as [|ev tr1 IH]; [done|]. destruct ev; simpl; lia.
Qed.

Lemma destroy_n_relocations n : ∀ b first w,
  match destroy_n ops b first n w with
  | Normal _ (_, w') => relocations w'.2 = relocations w.2
  | _ => True
  end.
Proof.
  induction n as [|n IH]; intros b first w; simpl; [done|].
  unfold destroy_at. destruct (live b first) as [x|]; [|done].
  specialize (IH (<[first := None]> b) (S first)
                (log (Destroyed x) (dtor ops x w.1) w)).
  destruct (destroy_n _ _ _ _ _) as [[] [b' w']|e [b' w']|]; [|done|done].
  rewrite IH. unfold log. simpl. rewrite relocations_app. simpl. lia.
Qed.

Lemma construct_at_relocations b i ctor w :
  match construct_at b i ctor w with
  | Normal _ (_, w') => relocations w'.2 = relocations w.2
  | _ => True
  end.
Proof.
  unfold construct_at. destruct (in_range b i); [|done].
  destruct (ctor w.1) as [[e|x] u]; [done|].
  unfold log. simpl. rewrite relocations_app. simpl. lia.
Qed.

Lemma uninitialized_move_loop_relocations count :
  ∀ src first dst d_first current w,
  match uninitialized_move_loop ops src first count dst d_first current w with
  | Normal _ (_, _, w') => relocations w'.2 = relocations w.2 + count
  | _ => True
  end.
Proof.
  induction count as [|count IH]; intros src first dst d_first current w;
    simpl; [lia|].
  destruct (in_range dst current); [|done].
  destruct (live src first) as [x|]; [|done].
  destruct (move_ctor ops x w.1) as [[[e|y] x'] u].
  { by destruct (rollback _ _ _ _ _ _) as [[] [b' w']|e' [b' w']|]. }
  specialize (IH (<[first := Some x']> src) (S first)
                (<[current := Some y]> dst) d_first (S current)
                (log (MoveConstructed y) u w)).
  destruct (uninitialized_move_loop _ _ _ _ _ _ _ _)
    as [r [[s' d'] w']|e [[s' d'] w']|]; [|done|done].
  rewrite IH. unfold log. simpl. rewrite relocations_app. simpl. lia.
Qed.

Lemma uninitialized_copy_loop_relocations count :
  ∀ src first dst d_first current w,
  match uninitialized_copy_loop ops src first count dst d_first current w with
  | Normal _ (_, w') => relocations w'.2 = relocations w.2 + count
  | _ => True
  end.
Proof.
  induction count as [|count IH]; intros src first dst d_first current w;
    simpl; [lia|].
  destruct (in_range dst current); [|done].
  destruct (live src first) as [x|]; [|done].
  destruct (copy_ctor ops x w.1) as [[e|y] u].
  { unfold rollback.
    by destruct (destroy_n _ _ _ _ _) as [[] [b' w']|e' [b' w']|]. }
  specialize (IH src (S first) (<[current := Some y]> dst) d_first
                (S current) (log (CopyConstructed y) u w)).
  destruct (uninitialized_copy_loop _ _ _ _ _ _ _ _)
    as [r [d' w']|e [d' w']|]; [|done|done].
  rewrite IH. unfold log. simpl. rewrite relocations_app. simpl. lia.
Qed.

Lemma ReallocateData_relocations v new_data w :
  match ReallocateData ops v new_data w with
  | Normal _ (_, _, w') => relocations w'.2 = relocations w.2 + size_ v
  | _ => True
  end.
Proof.
  unfold ReallocateData, uninitialized_move_n, uninitialized_copy_n.
  destruct (relocate_by_move ops).
  - pose proof (uninitialized_move_loop_relocations (size_ v)
                  (buffer_ (data_ v)) 0 (buffer_ new_data) 0 0 w) as Hm.
    destruct (uninitialized_move_loop _ _ _ _ _ _ _ _)
      as [r [[b nb] w1]|e [[b nb] w1]|]; [|done|done].
    pose proof (destroy_n_relocations (size_ v) b 0 w1) as Hd.
    destruct (destroy_n _ _ _ _ _) as [[] [b' w2]|e [b' w2]|]; [|done|done].
    simpl. lia.
  - pose proof (uninitialized_copy_loop_relocations (size_ v)
                  (buffer_ (data_ v)) 0 (buffer_ new_data) 0 0 w) as Hm.
    destruct (uninitialized_copy_loop _ _ _ _ _ _ _ _)
      as [r [nb w1]|e [nb w1]|]; [|done|done].
    pose proof (destroy_n_relocations (size_ v) (buffer_ (data_ v)) 0 w1)
      as Hd.
    destruct (destroy_n _ _ _ _ _) as [[] [b' w2]|e [b' w2]|]; [|done|done].
    simpl. lia.
Qed.

Lemma EmplaceBack_relocations ctor v w :
  match EmplaceBack SIZE_MAX ops ctor v w with
  | Normal _ (_, w') =>
      relocations w'.2 =
        relocations w.2 +
        if bool_decide (Size v < Capacity v) then 0 else Size v
  | _ => True
  end.
Proof.
  unfold EmplaceBack, Size.
  generalize (if bool_decide (size_ v = 0) then 1
              else wrap SIZE_MAX (Capacity v * 2)).
  intros new_capacity. case_bool_decide as Hfull.
  - pose proof (construct_at_relocations (buffer_ (data_ v)) (size_ v)
                  ctor w) as Hc.
    destruct (construct_at _ _ _ _) as [[] [b w1]|e [b w1]|]; [|done|done].
    case_bool_decide; [|done]. lia.
  - destruct (RawMemory_sized SIZE_MAX ops new_capacity w) as [new_data w1|e w1|] eqn:Hnew;
      [|done|done].
    assert (w1.2 = w.2) as Hw1.
    { by apply RawMemory_sized_block in Hnew as (slots & _ & _ & _ & Hw1). }
    pose proof (construct_at_relocations (buffer_ new_data) (size_ v)
                  ctor w1) as Hc.
    destruct (construct_at _ _ _ _) as [[] [nb w2]|e [nb w2]|]; [|done|done].
    pose proof (ReallocateData_relocations v
                  (mkRawMemory nb (capacity_ new_data)) w2) as Hr.
    destruct (ReallocateData _ _ _ _) as [[] [[v1 nd] w3]|e [[v1 nd] w3]|];
      [|done|done].
    case_bool_decide; [|done]. rewrite Hr, Hc, Hw1. done.
Qed.

(** X14: an append that returns has relocated no element if it found
    spare capacity, and each element of the vector exactly once if it
    found the vector full, whatever the element type. *)
Theorem append_relocates_only_when_full ctor v w r v' w' :
  EmplaceBack SIZE_MAX ops ctor v w = Normal r (v', w') →
  relocations w'.2 =
    relocations w.2 + if bool_decide (Size v < Capacity v) then 0 else Size v.
Proof.
  intros Hrun. pose proof (EmplaceBack_relocations ctor v w) as H.
  by rewrite Hrun in H.
Qed.

Lemma growth_lt_double k : 0 < k → growth k < 2 * k.
Proof.
  induction k as [|k IH]; [lia|]. intros _. rewrite growth_S.
  destruct (decide (k = 0)) as [->|Hk]; [vm_compute; lia|].
  pose proof (growth_ge k). case_bool_decide; lia.
Qed.

Section amortised.

Context (default_value : T) (HR : Regular ops default_value).

Lemma push_all_relocations xs : ∀ ys k w,
  new_bounded SIZE_MAX ops →
  plentiful ops (growth (length ys + length xs)) →
  length ys + k = growth (length ys) →
  ∃ v' w',
    (push_all SIZE_MAX ops xs (vector_of ys k) w).2 = Normal () (v', w') ∧
    relocations w'.2 + (growth (length ys) - 1)
    = relocations w.2 + (growth (length (ys ++ xs)) - 1).
Proof.
  induction xs as [|x xs IH]; intros ys k w Hnb Hpl Hk.
  - exists (vector_of ys k), w. by rewrite app_nil_r.
  - cbn [push_all]. unfold PushBack.
    assert (fits SIZE_MAX ops (length ys + k)) as Hf.
    { rewrite Hk. unfold fits.
      apply (plentiful_granted _ (1 `max` growth (length ys)) w Hnb Hpl).
      pose proof (growth_mono (length ys) (length ys + length (x :: xs))
                    ltac:(lia)).
      pose proof (growth_ge (length ys + length (x :: xs))).
      simpl in *. lia. }
    assert (k = 0 → granted SIZE_MAX ops (1 `max` (2 * length ys)) w) as Hg.
    { intros ->. apply (plentiful_granted _ _ w Hnb Hpl).
      etrans; [|apply (growth_mono (S (length ys))); simpl; lia].
      rewrite growth_S, bool_decide_eq_false_2 by lia. lia. }
    destruct (EmplaceBack_vector_of _ HR ys k (by_copy ops x) x w)
      as [w1 Hrun]; [done|done|by apply (builds_by_copy _ HR)|done|].
    rewrite Hrun. cbn [discard].
    set (k1 := if bool_decide (k = 0)
               then 1 `max` (2 * length ys) - S (length ys) else k - 1) in *.
    assert (length (ys ++ [x]) + k1 = growth (length (ys ++ [x]))) as Hk1.
    { rewrite length_app. simpl. rewrite Nat.add_1_r, growth_S. unfold k1.
      case_bool_decide as Hk0; case_bool_decide; lia. }
    destruct (IH (ys ++ [x]) k1 w1) as (v' & w' & Hrest & Hcount);
      [done| |done|].
    { by rewrite length_app, <- Nat.add_assoc. }
    destruct (push_all SIZE_MAX ops xs (vector_of (ys ++ [x]) k1) w1)
      as [seen res]. simpl in Hrest. subst res.
    exists v', w'. split; [done|].
    rewrite <- app_assoc in Hcount. cbn [app] in Hcount.
    pose proof (EmplaceBack_relocations (by_copy ops x) (vector_of ys k) w)
      as Hrel.
    rewrite Hrun in Hrel.
    unfold Size, Capacity, RawMemory_Capacity, vector_of in Hrel.
    cbn [size_ data_ capacity_] in Hrel.
    pose proof (growth_ge (length ys)).
    rewrite <- Hk1 in Hcount. unfold k1 in Hcount.
    rewrite length_app in Hcount. simpl in Hcount.
    revert Hrel Hcount. repeat case_bool_decide; lia.
Qed.

(** X15: for a regular element type, [N] appends to an empty vector
    return, having relocated [growth N - 1] elements between them: fewer
    than [2 N], so a constant number per append on average. *)
Theorem appends_relocate_linearly xs w :
  new_bounded SIZE_MAX ops →
  plentiful ops (growth (length xs)) →
  ∃ v' w',
    (push_all SIZE_MAX ops xs Vector_default w).2 = Normal () (v', w') ∧
    relocations w'.2 = relocations w.2 + (growth (length xs) - 1) ∧
    relocations w'.2 ≤ relocations w.2 + 2 * length xs.
Proof.
  intros Hnb Hpl.
  destruct (push_all_relocations xs [] 0 w) as (v' & w' & Hrun & Hcount);
    [done|done|done|].
  exists v', w'. split; [exact Hrun|]. simpl in Hcount.
  split; [lia|]. destruct xs as [|x xs]; [simpl in *; lia|].
  pose proof (growth_lt_double (length (x :: xs)) ltac:(simpl; lia)). lia.
Qed.

End amortised.

(** ** Constructors that fail part-way *)

Lemma uninitialized_value_construct_loop_spec n :
  ∀ pre built mid post w,
  length mid = n →
  match uninitialized_value_construct_loop ops
          (pre ++ (Some <$> built) ++ mid ++ post) (length pre)
          (length pre + length built) n w with
  | Normal _ (b', w') =>
      ∃ ys, length ys = n ∧
        b' = pre ++ (Some <$> built ++ ys) ++ post ∧
        w'.2 = w.2 ++ (Constructed <$> ys)
  | Throws e (b', w') =>
      ∃ ys, length ys < n ∧
        b' = pre ++ replicate (length built + length ys) None ++
             drop (length ys) mid ++ post ∧
        w'.2 = w.2 ++ (Constructed <$> ys) ++ (Destroyed <$> built ++ ys)
  | Undefined => False
  end.
Proof.
  induction n as [|n IH]; intros pre built mid post w Hlen.
  - destruct mid; [|done]. cbn [uninitialized_value_construct_loop].
    exists []. by rewrite !app_nil_r.
  - destruct mid as [|s mid]; [done|].
    cbn [uninitialized_value_construct_loop]. csimpl.
    rewrite (app_assoc pre). rewrite in_range_at by len.
    destruct (default_ctor ops w.1) as [[e|y] u] eqn:Hctor.
    + unfold rollback.
      replace (length pre + length built - length pre) with (length built)
        by lia.
      rewrite <- (app_assoc pre).
      destruct (destroy_n_live built pre (s :: mid ++ post) (u, w.2))
        as [u' ->].
      exists []. split; [simpl; lia|]. csimpl.
      by rewrite Nat.add_0_r, app_nil_r.
    + rewrite insert_at by len.
      specialize (IH pre (built ++ [y]) mid post
                    (log (Constructed y) u w) ltac:(by simplify_eq/=)).
      replace ((pre ++ (Some <$> built)) ++ Some y :: mid ++ post)
        with (pre ++ (Some <$> built ++ [y]) ++ mid ++ post)
        by (by rewrite fmap_app, <- !app_assoc).
      replace (S (length pre + length built))
        with (length pre + length (built ++ [y])) by len.
      destruct (uninitialized_value_construct_loop ops _ _ _ _ _)
        as [[] [b' w']|e [b' w']|]; [| |done].
      * destruct IH as (ys & Hys & -> & Htr).
        exists (y :: ys). split; [simpl; lia|].
        rewrite Htr. cbn [log snd]. by rewrite <- !app_assoc.
      * destruct IH as (ys & Hys & -> & Htr).
        exists (y :: ys). split; [simpl; lia|].
        rewrite Htr. cbn [log snd]. rewrite <- !app_assoc. csimpl.
        split; [|done]. do 3 f_equal. len.
Qed.

(** X16: for a number [n] of elements whose bytes a [size_t] counts,
    [Vector(n)] never misbehaves, whatever the element type.  If it
    returns, the vector has [n] elements in storage of [n] slots, built
    one after the other.  If it throws, because the storage is refused or
    a constructor throws, every element it had built has been destroyed. *)
Theorem Vector_sized_builds_all_or_nothing n w :
  n * sizeof ops ≤ SIZE_MAX →
  match Vector_sized SIZE_MAX ops n w with
  | Normal v' w' =>
      ∃ ys, length ys = n ∧ elements v' = ys ∧
        Size v' = n ∧ Capacity v' = n ∧
        w'.2 = w.2 ++ (Constructed <$> ys)
  | Throws e w' =>
      ∃ ys, length ys < n ∧
        w'.2 = w.2 ++ (Constructed <$> ys) ++ (Destroyed <$> ys)
  | Undefined => False
  end.
Proof.
  intros Hle. unfold Vector_sized.
  destruct (RawMemory_sized_cases n w Hle) as [[u Hr]|(u & -> & Hg)].
  - rewrite Hr. exists []. split; [|by rewrite !app_nil_r].
    simpl. destruct n; [|lia].
    by rewrite RawMemory_sized_zero in Hr.
  - cbn [buffer_ capacity_]. unfold uninitialized_value_construct_n.
    pose proof (uninitialized_value_construct_loop_spec n [] []
                  (replicate n None) [] (u, w.2) ltac:(len)) as Hspec.
    simpl in Hspec. rewrite app_nil_r in Hspec.
    destruct (uninitialized_value_construct_loop _ _ _ _ _ _)
      as [[] [b' w']|e [b' w']|]; [| |done].
    + destruct Hspec as (ys & Hys & -> & Htr). exists ys.
      rewrite app_nil_r. split; [done|]. split.
      { unfold elements. cbn [size_ data_ buffer_].
        rewrite <- Hys, <- (length_fmap Some ys), firstn_all.
        apply omap_id_Some. }
      done.
    + destruct Hspec as (ys & Hys & _ & Htr). by exists ys.
Qed.

(** X17: copy construction from a valid vector never misbehaves, whatever
    the element type.  If it returns, the copy has as many elements as the
    source, copy-constructed in order, in storage of exactly that many
    slots.  If it throws, every copy it had made has been destroyed. *)
Theorem Vector_copy_builds_all_or_nothing other w :
  valid SIZE_MAX ops other →
  match Vector_copy SIZE_MAX ops other w with
  | Normal v' w' =>
      ∃ ys, length ys = Size other ∧ elements v' = ys ∧
        Size v' = Size other ∧ Capacity v' = Size other ∧
        w'.2 = w.2 ++ (CopyConstructed <$> ys)
  | Throws e w' =>
      ∃ ys, length ys < Size other ∧
        w'.2 = w.2 ++ (CopyConstructed <$> ys) ++ (Destroyed <$> ys)
  | Undefined => False
  end.
Proof.
  intros Hv. pose proof (Size_elements other Hv) as Hsize.
  destruct (valid_canonical_fits other Hv) as [Heq Hf].
  revert Hsize Heq Hf.
  generalize (elements other) (Capacity other - Size other).
  intros xs k Hsize Heq Hf. rewrite Hsize. rewrite Heq. clear Heq Hsize Hv.
  unfold Vector_copy. cbn [vector_of size_ data_ buffer_].
  destruct (RawMemory_sized_cases (length xs) w
              (fits_request _ (length xs) Hf ltac:(lia)))
    as [[u Hr]|(u & -> & Hg)].
  - rewrite Hr. exists []. split; [|by rewrite !app_nil_r].
    simpl. destruct xs; [|simpl; lia].
    by rewrite RawMemory_sized_zero in Hr.
  - cbn [buffer_ capacity_].
    pose proof (uninitialized_copy_n_spec (cells xs k) 0 (length xs)
                  (replicate (length xs) None) 0 (u, w.2) xs []
                  (replicate k None) [] []
                  eq_refl eq_refl eq_refl ltac:(by rewrite app_nil_r) eq_refl)
      as Hspec.
    destruct (uninitialized_copy_n _ _ _ _ _ _ _)
      as [r [b' w']|e [b' w']|]; [| |done].
    + destruct Hspec as (_ & ys & Hys & -> & Htr). exists ys.
      rewrite app_nil_r. split; [done|]. split; [|done].
      unfold elements. cbn [size_ data_ buffer_].
      rewrite <- Hys, <- (length_fmap Some ys), firstn_all.
      apply omap_id_Some.
    + destruct Hspec as (_ & ys & Hys & Htr). by exists ys.
Qed.

(** ** [Reserve] when elements are relocated by copy *)

(** X18: when the elements are relocated by copy, [Reserve(n)] on a
    valid vector, for a number [n] of elements whose bytes a [size_t]
    counts, never misbehaves and has the strong guarantee: if it throws,
    the vector is exactly as it was, and every copy made in the new
    storage has been destroyed. *)
Theorem Reserve_strong_guarantee n v w :
  relocate_by_move ops = false →
  valid SIZE_MAX ops v →
  n * sizeof ops ≤ SIZE_MAX →
  match Reserve SIZE_MAX ops n v w with
  | Normal _ _ => True
  | Throws e (v', w') =>
      v' = v ∧
      ∃ ys, length ys ≤ Size v ∧
        w'.2 = w.2 ++ (CopyConstructed <$> ys) ++ (Destroyed <$> ys)
  | Undefined => False
  end.
Proof.
  intros Hmode Hv Hle. pose proof (Size_elements v Hv) as Hsize.
  destruct (valid_canonical v Hv) as [Heq _].
  assert (Capacity v = length (elements v) + (Capacity v - Size v)) as Hcap
    by (destruct Hv as (? & _); unfold Capacity, RawMemory_Capacity,
          Size in *; lia).
  revert Hsize Heq Hcap. generalize (elements v) (Capacity v - Size v).
  intros xs k Hsize Heq Hcap. rewrite Hsize. unfold Reserve. rewrite Hcap.
  case_bool_decide as Hn; [done|].
  destruct (RawMemory_sized_cases n w Hle) as [[u ->]|(u & -> & Hg)].
  { split; [done|]. exists []. split; [simpl; lia|by rewrite !app_nil_r]. }
  rewrite Heq.
  rewrite (replicate_split None (length xs) n) by lia.
  pose proof (ReallocateData_copy_spec Hmode xs k
                (replicate (n - length xs) None) n (u, w.2)) as Hspec.
  destruct (ReallocateData _ _ _ _) as [[] [[v1 nd] w3]|e [[v1 nd] w3]|];
    [done| |done].
  destruct Hspec as (-> & ys & Hys & Htr). split; [done|].
  exists ys. split; [lia|done].
Qed.

(** ** The slots a call in place can touch *)

Lemma same_outside_insert2 lo hi b i j (s t : option T) :
  lo ≤ i → i < hi → lo ≤ j → j < hi →
  same_outside lo hi b (<[i := s]> (<[j := t]> b)).
Proof.
  intros. eapply same_outside_trans; by apply same_outside_insert.
Qed.

Lemma move_assign_slot_same_outside lo hi b to from w :
  lo ≤ to → to < hi → lo ≤ from → from < hi →
  match move_assign_slot ops b to from w with
  | Normal _ (b', _) | Throws _ (b', _) => same_outside lo hi b b'
  | Undefined => True
  end.
Proof.
  intros. unfold move_assign_slot.
  destruct (live b to) as [d|]; [|done].
  destruct (live b from) as [x|]; [|done].
  destruct (move_assign ops d x w.1) as [[[[e|] d'] x'] u];
    by apply same_outside_insert2.
Qed.

Lemma move_range_same_outside count : ∀ b first d_first w lo hi,
  lo ≤ d_first → d_first ≤ first → first + count ≤ hi →
  match move_range ops b first count d_first w with
  | Normal _ (b', _) | Throws _ (b', _) => same_outside lo hi b b'
  | Undefined => True
  end.
Proof.
  induction count as [|count IH]; intros b first d_first w lo hi Hlo Hd Hhi;
    simpl; [apply same_outside_refl|].
  pose proof (move_assign_slot_same_outside lo hi b d_first first w
                ltac:(lia) ltac:(lia) ltac:(lia) ltac:(lia)) as Hslot.
  destruct (move_assign_slot ops b d_first first w)
    as [[] [b1 w1]|e [b1 w1]|]; [|done|done].
  specialize (IH b1 (S first) (S d_first) w1 lo hi
                ltac:(lia) ltac:(lia) ltac:(lia)).
  destruct (move_range ops b1 (S first) count (S d_first) w1)
    as [[] [b2 w2]|e [b2 w2]|]; [| |done];
    by eapply same_outside_trans.
Qed.

Lemma move_backward_same_outside count : ∀ b last d_last w lo hi,
  lo + count ≤ last → last ≤ d_last → d_last ≤ hi →
  match move_backward ops b count last d_last w with
  | Normal _ (b', _) | Throws _ (b', _) => same_outside lo hi b b'
  | Undefined => True
  end.
Proof.
  induction count as [|count IH]; intros b last d_last w lo hi Hlo Hd Hhi;
    simpl; [apply same_outside_refl|].
  destruct last as [|last']; [done|]. destruct d_last as [|d_last']; [done|].
  pose proof (move_assign_slot_same_outside lo hi b d_last' last' w
                ltac:(lia) ltac:(lia) ltac:(lia) ltac:(lia)) as Hslot.
  destruct (move_assign_slot ops b d_last' last' w)
    as [[] [b1 w1]|e [b1 w1]|]; [|done|done].
  specialize (IH b1 last' d_last' w1 lo hi
                ltac:(lia) ltac:(lia) ltac:(lia)).
  destruct (move_backward ops b1 count last' d_last' w1)
    as [[] [b2 w2]|e [b2 w2]|]; [| |done];
    by eapply same_outside_trans.
Qed.

Lemma Erase_same_outside pos v w :
  pos < size_ v →
  match Erase SIZE_MAX ops pos v w with
  | Normal _ (v', _) | Throws _ (v', _) =>
      same_outside pos (size_ v) (buffer_ (data_ v)) (buffer_ (data_ v'))
  | Undefined => True
  end.
Proof.
  intros Hpos. unfold Erase. case_bool_decide; [|done].
  pose proof (move_range_same_outside (size_ v - (pos + 1))
                (buffer_ (data_ v)) (pos + 1) pos w pos (size_ v)
                ltac:(lia) ltac:(lia) ltac:(lia)) as Hmove.
  destruct (move_range _ _ _ _ _ _) as [[] [b1 w1]|e [b1 w1]|];
    [|done|done].
  destruct (size_ v) as [|last] eqn:Hsize; [done|].
  pose proof (destroy_at_inv b1 last w1) as Hd.
  destruct (destroy_at ops b1 last w1) as [[] [b2 w2]|e [b2 w2]|];
    [|done|done].
  destruct Hd as [-> _]. cbn [with_size with_buffer data_ buffer_].
  eapply same_outside_trans; [done|].
  apply same_outside_insert; lia.
Qed.

Lemma Emplace_in_place_same_outside pos ctor v w :
  pos < size_ v → size_ v < Capacity v →
  match Emplace SIZE_MAX ops pos ctor v w with
  | Normal _ (v', _) | Throws _ (v', _) =>
      same_outside pos (S (size_ v)) (buffer_ (data_ v)) (buffer_ (data_ v'))
  | Undefined => True
  end.
Proof.
  intros Hpos Hcap. unfold Emplace.
  rewrite bool_decide_eq_false_2 by lia.
  rewrite bool_decide_eq_true_2 by done.
  destruct (ctor w.1) as [[e|copy] u]; [apply same_outside_refl|].
  destruct (size_ v) as [|last] eqn:Hsize; [done|].
  set (w1 := log (Constructed copy) u w). clearbody w1.
  assert (match move_construct_slot ops (buffer_ (data_ v)) (S last) last w1
          with
          | Normal _ (b', _) | Throws _ (b', _) =>
              same_outside pos (S (S last)) (buffer_ (data_ v)) b'
          | Undefined => True
          end) as Hc.
  { unfold move_construct_slot. destruct (in_range _ _); [|done].
    destruct (live _ _) as [x|]; [|done].
    destruct (move_ctor ops x w1.1) as [[[e|y] x'] u'].
    - apply same_outside_insert; lia.
    - apply same_outside_insert2; lia. }
  destruct (move_construct_slot _ _ _ _ _) as [[] [b1 w2]|e [b1 w2]|];
    [|done|done].
  rewrite bool_decide_eq_true_2 by lia.
  pose proof (move_backward_same_outside (last - pos) b1 last (S last) w2
                pos (S (S last)) ltac:(lia) ltac:(lia) ltac:(lia)) as Hb.
  destruct (move_backward _ _ _ _ _ _) as [[] [b2 w3]|e [b2 w3]|];
    [| |done].
  2: { cbn [with_buffer data_ buffer_]. by eapply same_outside_trans. }
  case_bool_decide; [|done].
  assert (match move_assign_from_local ops b2 pos copy w3 with
          | Normal _ (b', _, _) | Throws _ (b', _, _) =>
              same_outside pos (S (S last)) b2 b'
          | Undefined => True
          end) as Ha.
  { unfold move_assign_from_local. destruct (live _ _) as [d|]; [|done].
    destruct (move_assign ops d copy w3.1) as [[[[e|] d'] c'] u'];
      apply same_outside_insert; lia. }
  destruct (move_assign_from_local _ _ _ _ _)
    as [[] [[b3 c'] w4]|e [[b3 c'] w4]|]; [| |done];
    cbn [with_size with_buffer data_ buffer_];
    (eapply same_outside_trans; [|done]);
    by eapply same_outside_trans.
Qed.

Lemma subscript_same_outside v v' lo hi i :
  same_outside lo hi (buffer_ (data_ v)) (buffer_ (data_ v')) →
  i < lo → i < size_ v → i < size_ v' →
  subscript v' i = subscript v i.
Proof.
  intros Hsame Hi Hv Hv'. unfold subscript.
  rewrite !bool_decide_eq_true_2 by done.
  apply (same_outside_live _ _ _ _ _ Hsame). by left.
Qed.

(** X19: [Erase(pos)] never touches the elements before [pos], whether
    it returns or throws, whatever the element type. *)
Theorem Erase_keeps_prefix pos v w v' :
  well_formed SIZE_MAX ops v →
  pos < Size v →
  left_by (Erase SIZE_MAX ops pos v w) v' →
  ∀ i, i < pos → subscript v' i = subscript v i.
Proof.
  unfold Size. intros (Hn & _ & Hmax & _) Hpos Hleft i Hi.
  apply fits_bound in Hmax as [Hmax _].
  pose proof (Erase_same_outside pos v w Hpos) as Hsame.
  pose proof (Erase_shape pos v w) as Hshape.
  destruct (Erase _ _ _ _ _) as [r [v1 w1]|e [v1 w1]|];
    [| |by simpl in Hleft]; simplify_eq/=.
  - destruct Hshape as [Hs _]. rewrite wrap_sub_small in Hs by lia.
    apply (subscript_same_outside _ _ _ _ _ Hsame); lia.
  - destruct Hshape as [Hs _].
    apply (subscript_same_outside _ _ _ _ _ Hsame); lia.
Qed.

(** X20: an insertion before [pos] into a vector with spare capacity
    never touches the elements before [pos], whether it returns or
    throws, whatever the element type. *)
Theorem Emplace_in_place_keeps_prefix pos ctor v w v' :
  well_formed SIZE_MAX ops v →
  pos < Size v →
  Size v < Capacity v →
  left_by (Emplace SIZE_MAX ops pos ctor v w) v' →
  ∀ i, i < pos → subscript v' i = subscript v i.
Proof.
  unfold Size. intros (Hn & _ & Hmax & _) Hpos Hcap Hleft i Hi.
  apply fits_bound in Hmax as [Hmax _].
  pose proof (Emplace_in_place_same_outside pos ctor v w Hpos Hcap) as Hsame.
  pose proof (Emplace_shape pos ctor v w) as Hshape.
  unfold Capacity, RawMemory_Capacity in Hcap.
  destruct (Emplace _ _ _ _ _ _) as [r [v1 w1]|e [v1 w1]|];
    [| |by simpl in Hleft]; simplify_eq/=.
  - destruct Hshape as [Hs _]. rewrite wrap_small in Hs by lia.
    apply (subscript_same_outside _ _ _ _ _ Hsame); lia.
  - destruct Hshape as [Hs _].
    apply (subscript_same_outside _ _ _ _ _ Hsame); lia.
Qed.

(** X21: an append that finds spare capacity constructs the new element
    in the slot at index [size] and touches no other slot: the storage is
    the same, so references to the other elements stay good, and the
    reference returned is to the new element.  This holds whatever the
    element type. *)
Theorem append_in_place_keeps_storage ctor v w r v' w' :
  well_formed SIZE_MAX ops v →
  Size v < Capacity v →
  EmplaceBack SIZE_MAX ops ctor v w = Normal r (v', w') →
  ∃ x,
    buffer_ (data_ v') = <[Size v := Some x]> (buffer_ (data_ v)) ∧
    Capacity v' = Capacity v ∧
    Size v' = S (Size v) ∧
    r = Size v ∧
    subscript v' r = Some x ∧
    w'.2 = w.2 ++ [Constructed x].
Proof.
  unfold Size, Capacity, RawMemory_Capacity.
  intros (Hn & Hlen & Hmax & _) Hcap. apply fits_bound in Hmax as [Hmax _].
  unfold EmplaceBack, Capacity, RawMemory_Capacity.
  rewrite (bool_decide_eq_true_2 (size_ v < _)) by done.
  unfold construct_at, in_range. rewrite bool_decide_eq_true_2 by lia.
  destruct (ctor w.1) as [[e|x] u]; [done|].
  cbn [with_size with_buffer size_ data_ capacity_ buffer_].
  rewrite wrap_small by lia. rewrite wrap_sub_small by lia.
  rewrite bool_decide_eq_true_2 by lia. intros [= <- <- <-].
  exists x. unfold with_size, with_buffer, subscript.
  cbn [size_ data_ capacity_ buffer_].
  do 3 (split; [done || lia|]). split; [lia|]. split; [|done].
  rewrite bool_decide_eq_true_2 by lia.
  replace (size_ v + 1 - 1) with (size_ v) by lia.
  apply live_insert_eq. lia.
Qed.

(** ** Reading elements *)

(** X22: on a well-formed vector, [operator[]] at an index below the size
    reads the element at that place of [begin(), end()), and an index
    from the size on is out of bounds. *)
Theorem subscript_reads_elements v i :
  well_formed SIZE_MAX ops v →
  subscript v i = elements v !! i ∧
  (is_Some (subscript v i) ↔ i < Size v).
Proof.
  intros Hwf. destruct (well_formed_split v Hwf) as (rest & Hb & Hl & _).
  assert (subscript v i = elements v !! i) as Heq.
  { unfold subscript, live. rewrite Hb. case_bool_decide as Hi.
    - rewrite lookup_app_l by len. rewrite list_lookup_fmap.
      by destruct (elements v !! i).
    - symmetry. apply lookup_ge_None. lia. }
  split; [done|]. rewrite Heq, lookup_lt_is_Some. unfold Size. lia.
Qed.

(** ** The source of a move *)

(** X23: move construction hands the elements over: destroying the new
    vector destroys what destroying the original would have, and
    destroying the source afterwards destroys nothing. *)
Theorem move_hands_elements_over v w :
  Vector_destroy ops (Vector_move v).1 w = Vector_destroy ops v w ∧
  Vector_destroy ops (Vector_move v).2 w = Normal () w.
Proof. destruct v as [[b c] n]. split; [done|]. by destruct w. Qed.

(** ** Asking twice *)

(** X25: [Reserve] and [Resize] are idempotent: once [Reserve(n)] or
    [Resize(n)] has returned, the same call again does nothing at all,
    whatever the element type. *)
Theorem Reserve_Resize_idempotent n v w v' w' :
  (Reserve SIZE_MAX ops n v w = Normal () (v', w') →
   Reserve SIZE_MAX ops n v' w' = Normal () (v', w')) ∧
  (Resize SIZE_MAX ops n v w = Normal () (v', w') →
   Resize SIZE_MAX ops n v' w' = Normal () (v', w')).
Proof.
  split; intros Hrun.
  - pose proof (Reserve_shape n v w) as H. rewrite Hrun in H.
    destruct H as [_ Hc]. unfold Reserve, Capacity, RawMemory_Capacity.
    rewrite bool_decide_eq_true_2; [done|].
    rewrite Hc. case_bool_decide; lia.
  - pose proof (Resize_shape n v w) as H. rewrite Hrun in H.
    destruct H as [Hs _]. unfold Resize.
    by rewrite bool_decide_eq_true_2.
Qed.

(** ** What [Erase] costs *)

Section erase_cost.

Context (default_value : T) (HR : Regular ops default_value).

(** X26: for a regular element type, [Erase(pos)] move-assigns each
    element after [pos] once, from the first to the last, then destroys
    one object, the one left in the last slot, and does nothing else. *)
Theorem Erase_moves_tail_once pos v w :
  valid SIZE_MAX ops v →
  pos < Size v →
  ∃ v' u l,
    Erase SIZE_MAX ops pos v w
    = Normal pos
        (v', (u, w.2 ++ (MoveAssigned <$> drop (S pos) (elements v)) ++
                 [Destroyed l])) ∧
    elements v' = delete pos (elements v) ∧
    Capacity v' = Capacity v.
Proof.
  intros Hv Hpos. pose proof (Size_elements v Hv) as Hsize.
  destruct (valid_canonical v Hv) as [Heq Hb].
  assert (Capacity v = length (elements v) + (Capacity v - Size v)) as Hcap
    by (destruct Hv as (? & _); unfold Capacity, RawMemory_Capacity,
          Size in *; lia).
  revert Hsize Heq Hb Hcap. generalize (elements v) (Capacity v - Size v).
  intros xs k Hsize Heq Hb Hcap. rewrite Hcap, Heq. clear Heq Hcap Hv.
  rewrite Hsize in Hpos. clear Hsize.
  destruct (lookup_lt_is_Some_2 xs pos Hpos) as [d Hd].
  pose proof (take_drop_middle xs pos d Hd) as Hsplit.
  rewrite <- Hsplit in Hb.
  destruct (Erase_vector_of _ HR (take pos xs) d (drop (S pos) xs) k w Hb)
    as (l & u & Hrun).
  rewrite length_take, Nat.min_l in Hrun by lia.
  rewrite Hsplit in Hrun.
  eexists _, u, l. split; [exact Hrun|].
  rewrite elements_vector_of. split.
  - by rewrite delete_take_drop.
  - unfold Capacity, RawMemory_Capacity, vector_of.
    cbn [data_ capacity_]. rewrite <- Hsplit at 3.
    rewrite !length_app, length_cons. lia.
Qed.

End erase_cost.

(** ** No call within its precondition misbehaves *)

(** The slots [lo, hi) of [b] hold live objects. *)
Local Abbreviation live_on b lo hi :=
  (∀ i, lo ≤ i → i < hi → is_Some (live b i)).

Lemma live_on_covers b b' lo hi :
  covers b b' → live_on b lo hi → live_on b' lo hi.
Proof. intros Hc Hl i Hlo Hhi. by apply (covers_live _ _ _ Hc), Hl. Qed.

Lemma live_on_same_outside b b' lo hi lo' hi' :
  same_outside lo' hi' b b' → (hi ≤ lo' ∨ hi' ≤ lo) →
  live_on b lo hi → live_on b' lo hi.
Proof.
  intros Hs Hd Hl i Hlo Hhi.
  rewrite (same_outside_live _ _ _ _ _ Hs) by lia. by apply Hl.
Qed.

Lemma destroy_n_defined n : ∀ b first w,
  live_on b first (first + n) → defined (destroy_n ops b first n w).
Proof.
  induction n as [|n IH]; intros b first w Hl; simpl; [done|].
  unfold destroy_at. destruct (Hl first) as [x ->]; [lia..|].
  apply IH. intros i Hlo Hhi. rewrite live_insert_ne by lia.
  apply Hl; lia.
Qed.

Lemma rollback_defined {R} e dst d_first current w :
  d_first ≤ current → live_on dst d_first current →
  defined (rollback ops (R := R) e dst d_first current w).
Proof.
  intros Hle Hl. unfold rollback.
  pose proof (destroy_n_defined (current - d_first) dst d_first w) as Hd.
  destruct (destroy_n _ _ _ _ _) as [[] s|e' s|]; [done..|].
  apply Hd. intros i Hlo Hhi. apply Hl; lia.
Qed.

Lemma live_on_insert b lo hi i x :
  i < length b → live_on b lo hi → live_on (<[i := Some x]> b) lo hi.
Proof.
  intros Hi Hl j Hlo Hhi. destruct (decide (i = j)) as [<-|Hne].
  - by rewrite live_insert_eq.
  - rewrite live_insert_ne by done. by apply Hl.
Qed.

Lemma live_on_snoc b lo hi x :
  hi < length b → live_on b lo hi → live_on (<[hi := Some x]> b) lo (S hi).
Proof.
  intros Hi Hl j Hlo Hhi. destruct (decide (hi = j)) as [<-|Hne].
  - by rewrite live_insert_eq.
  - rewrite live_insert_ne by done. apply Hl; lia.
Qed.

Lemma uninitialized_copy_loop_defined count :
  ∀ src first dst d_first current w,
  d_first ≤ current →
  live_on src first (first + count) →
  current + count ≤ length dst →
  live_on dst d_first current →
  defined (uninitialized_copy_loop ops src first count dst d_first current w).
Proof.
  induction count as [|count IH];
    intros src first dst d_first current w Hle Hsrc Hlen Hdst; simpl; [done|].
  unfold in_range. rewrite bool_decide_eq_true_2 by lia.
  destruct (Hsrc first) as [x ->]; [lia..|].
  destruct (copy_ctor ops x w.1) as [[e|y] u].
  - by apply rollback_defined.
  - apply IH; [lia| |by rewrite length_insert; lia|].
    + intros i Hlo Hhi. apply Hsrc; lia.
    + apply live_on_snoc; [lia|done].
Qed.

Lemma uninitialized_move_loop_defined count :
  ∀ src first dst d_first current w,
  d_first ≤ current →
  live_on src first (first + count) →
  current + count ≤ length dst →
  live_on dst d_first current →
  defined (uninitialized_move_loop ops src first count dst d_first current w).
Proof.
  induction count as [|count IH];
    intros src first dst d_first current w Hle Hsrc Hlen Hdst; simpl; [done|].
  unfold in_range. rewrite bool_decide_eq_true_2 by lia.
  destruct (Hsrc first) as [x ->]; [lia..|].
  destruct (move_ctor ops x w.1) as [[[e|y] x'] u].
  - pose proof (rollback_defined (R := unit) e dst d_first current (u, w.2)
                  Hle Hdst) as Hr.
    by destruct (rollback _ _ _ _ _ _) as [[] [d' w']|e' [d' w']|].
  - apply IH; [lia| |by rewrite length_insert; lia|].
    + intros i Hlo Hhi. rewrite live_insert_ne by lia. apply Hsrc; lia.
    + apply live_on_snoc; [lia|done].
Qed.

Lemma uninitialized_value_construct_loop_defined count :
  ∀ b first current w,
  first ≤ current →
  current + count ≤ length b →
  live_on b first current →
  defined (uninitialized_value_construct_loop ops b first current count w).
Proof.
  induction count as [|count IH]; intros b first current w Hle Hlen Hl;
    simpl; [done|].
  unfold in_range. rewrite bool_decide_eq_true_2 by lia.
  destruct (default_ctor ops w.1) as [[e|y] u].
  - by apply rollback_defined.
  - apply IH; [lia|by rewrite length_insert; lia|].
    apply live_on_snoc; [lia|done].
Qed.

Lemma copy_n_defined count : ∀ src first dst res w,
  live_on src first (first + count) →
  live_on dst res (res + count) →
  defined (copy_n ops src first count dst res w).
Proof.
  induction count as [|count IH]; intros src first dst res w Hsrc Hdst;
    simpl; [done|].
  destruct (Hdst res) as [d Hd]; [lia..|].
  pose proof (live_lt _ _ (mk_is_Some _ _ Hd)) as Hres. rewrite Hd.
  destruct (Hsrc first) as [x ->]; [lia..|].
  destruct (copy_assign ops d x w.1) as [[[e|] d'] u]; [done|].
  apply IH.
  - intros i Hlo Hhi. apply Hsrc; lia.
  - intros i Hlo Hhi. rewrite live_insert_ne by lia. apply Hdst; lia.
Qed.

Lemma move_assign_slot_defined b to from w :
  is_Some (live b to) → is_Some (live b from) →
  defined (move_assign_slot ops b to from w).
Proof.
  intros [d Hd] [x Hx]. unfold move_assign_slot. rewrite Hd, Hx.
  by destruct (move_assign ops d x w.1) as [[[[e|] d'] x'] u].
Qed.

Lemma move_range_defined count : ∀ b first d_first w,
  d_first ≤ first →
  live_on b d_first (first + count) →
  defined (move_range ops b first count d_first w).
Proof.
  induction count as [|count IH]; intros b first d_first w Hle Hl;
    simpl; [done|].
  pose proof (move_assign_slot_defined b d_first first w
                ltac:(apply Hl; lia) ltac:(apply Hl; lia)) as Hd.
  pose proof (move_assign_slot_inv b d_first first w) as Hc.
  destruct (move_assign_slot ops b d_first first w)
    as [[] [b1 w1]|e [b1 w1]|]; [|done..].
  apply IH; [lia|]. apply (live_on_covers _ _ _ _ Hc).
  intros i Hlo Hhi. apply Hl; lia.
Qed.

Lemma move_backward_defined count : ∀ b last d_last w,
  count ≤ last → last ≤ d_last →
  live_on b (last - count) d_last →
  defined (move_backward ops b count last d_last w).
Proof.
  induction count as [|count IH]; intros b last d_last w Hc Hle Hl;
    simpl; [done|].
  destruct last as [|last']; [lia|]. destruct d_last as [|d_last']; [lia|].
  pose proof (move_assign_slot_defined b d_last' last' w
                ltac:(apply Hl; lia) ltac:(apply Hl; lia)) as Hd.
  pose proof (move_assign_slot_inv b d_last' last' w) as Hcov.
  destruct (move_assign_slot ops b d_last' last' w)
    as [[] [b1 w1]|e [b1 w1]|]; [|done..].
  apply IH; [lia..|]. apply (live_on_covers _ _ _ _ Hcov).
  intros i Hlo Hhi. apply Hl; lia.
Qed.

Lemma ReallocatePartial_defined src from count dst to w :
  live_on src from (from + count) →
  to + count ≤ length dst →
  defined (ReallocatePartial ops src from count dst to w).
Proof.
  intros Hsrc Hlen. unfold ReallocatePartial, uninitialized_move_n,
    uninitialized_copy_n.
  destruct (relocate_by_move ops).
  - pose proof (uninitialized_move_loop_defined count src from dst to to w
                  ltac:(lia) Hsrc Hlen ltac:(intros; lia)) as Hd.
    by destruct (uninitialized_move_loop _ _ _ _ _ _ _ _)
      as [r s|e s|].
  - pose proof (uninitialized_copy_loop_defined count src from dst to to w
                  ltac:(lia) Hsrc Hlen ltac:(intros; lia)) as Hd.
    by destruct (uninitialized_copy_loop _ _ _ _ _ _ _ _)
      as [r [d' w']|e [d' w']|].
Qed.

Lemma ReallocatePartial_throws_same_outside src from count dst to w :
  match ReallocatePartial ops src from count dst to w with
  | Throws _ (_, dst', _) => same_outside to (to + count) dst dst'
  | _ => True
  end.
Proof.
  unfold ReallocatePartial, uninitialized_move_n, uninitialized_copy_n.
  destruct (relocate_by_move ops).
  - pose proof (uninitialized_move_loop_inv count src from dst to to w
                  ltac:(lia)) as Hi.
    destruct (uninitialized_move_loop _ _ _ _ _ _ _ _)
      as [r [[s' d'] w']|e [[s' d'] w']|]; [done| |done].
    by destruct Hi.
  - pose proof (uninitialized_copy_loop_inv count src from dst to to w
                  ltac:(lia)) as Hi.
    by destruct (uninitialized_copy_loop _ _ _ _ _ _ _ _)
      as [r [d' w']|e [d' w']|].
Qed.

Lemma well_formed_live_on v :
  well_formed SIZE_MAX ops v → live_on (buffer_ (data_ v)) 0 (size_ v).
Proof. intros (_ & _ & _ & Hl) i _ Hi. by apply Hl. Qed.

Lemma ReallocateData_defined v nb nc w :
  well_formed SIZE_MAX ops v → size_ v ≤ length nb →
  defined (ReallocateData ops v (mkRawMemory nb nc) w).
Proof.
  intros Hwf Hlen. pose proof (well_formed_live_on v Hwf) as Hl.
  unfold ReallocateData, uninitialized_move_n, uninitialized_copy_n.
  cbn [buffer_ capacity_].
  destruct (relocate_by_move ops).
  - pose proof (uninitialized_move_loop_defined (size_ v)
                  (buffer_ (data_ v)) 0 nb 0 0 w ltac:(lia) Hl Hlen
                  ltac:(intros; lia)) as Hd.
    pose proof (uninitialized_move_loop_inv (size_ v) (buffer_ (data_ v)) 0
                  nb 0 0 w ltac:(lia)) as Hi.
    destruct (uninitialized_move_loop _ _ _ _ _ _ _ _)
      as [r [[b nb'] w1]|e [[b nb'] w1]|]; [|done..].
    destruct Hi as (Hcov & _).
    pose proof (destroy_n_defined (size_ v) b 0 w1
                  (live_on_covers _ _ _ _ Hcov Hl)) as Hd2.
    by destruct (destroy_n _ _ _ _ _) as [[] [b' w2]|e [b' w2]|].
  - pose proof (uninitialized_copy_loop_defined (size_ v)
                  (buffer_ (data_ v)) 0 nb 0 0 w ltac:(lia) Hl Hlen
                  ltac:(intros; lia)) as Hd.
    destruct (uninitialized_copy_loop _ _ _ _ _ _ _ _)
      as [r [nb' w1]|e [nb' w1]|]; [|done..].
    pose proof (destroy_n_defined (size_ v) (buffer_ (data_ v)) 0 w1 Hl)
      as Hd2.
    by destruct (destroy_n _ _ _ _ _) as [[] [b' w2]|e [b' w2]|].
Qed.

Lemma PopBack_defined v w :
  well_formed SIZE_MAX ops v → 0 < size_ v →
  defined (PopBack SIZE_MAX ops v w).
Proof.
  intros Hwf Hpos. destruct (PopBack_spec v w Hwf Hpos)
    as (v' & u & x & -> & _). done.
Qed.

Lemma Erase_defined pos v w :
  well_formed SIZE_MAX ops v → pos < size_ v →
  defined (Erase SIZE_MAX ops pos v w).
Proof.
  intros Hwf Hpos. pose proof (well_formed_live_on v Hwf) as Hl.
  unfold Erase. rewrite bool_decide_eq_true_2 by lia.
  pose proof (move_range_defined (size_ v - (pos + 1)) (buffer_ (data_ v))
                (pos + 1) pos w ltac:(lia)
                ltac:(intros i ? ?; apply Hl; lia)) as Hd.
  pose proof (move_range_inv (size_ v - (pos + 1)) (buffer_ (data_ v))
                (pos + 1) pos w) as Hcov.
  destruct (move_range _ _ _ _ _ _) as [[] [b1 w1]|e [b1 w1]|]; [|done..].
  destruct (size_ v) as [|last] eqn:Hsize; [lia|].
  unfold destroy_at.
  destruct (live_on_covers _ _ _ _ Hcov Hl last) as [x ->]; [lia..|done].
Qed.

Section defined_calls.

Hypothesis Hnb : new_bounded SIZE_MAX ops.

Lemma EmplaceBack_defined ctor v w :
  well_formed SIZE_MAX ops v → defined (EmplaceBack SIZE_MAX ops ctor v w).
Proof.
  intros Hwf. pose proof Hwf as (Hn & Hlen & Hmax & _).
  apply fits_bound in Hmax as [Hmax Htwo].
  pose proof (well_formed_request v Hwf) as Hreq.
  unfold EmplaceBack, Capacity, RawMemory_Capacity.
  destruct (decide (size_ v < capacity_ (data_ v))) as [Hcap|Hfull].
  - rewrite (bool_decide_eq_true_2 (size_ v < _)) by done.
    unfold construct_at, in_range. rewrite bool_decide_eq_true_2 by lia.
    destruct (ctor w.1) as [[e|x] u]; [done|].
    cbn [with_size with_buffer size_ data_ capacity_ buffer_].
    rewrite wrap_small by lia. rewrite wrap_sub_small by lia.
    by rewrite bool_decide_eq_true_2 by lia.
  - rewrite (bool_decide_eq_false_2 (size_ v < _)) by done.
    rewrite new_capacity_max by done.
    set (nc := 1 `max` (2 * capacity_ (data_ v))) in *.
    destruct (RawMemory_sized SIZE_MAX ops nc w) as [new_data w1|e w1|] eqn:Hnew;
      [|done|].
    2: { by destruct (RawMemory_sized_cases nc w Hreq)
           as [[u Hcase]|(u & Hcase & _)]; rewrite Hcase in Hnew. }
    apply (RawMemory_sized_inv _ _ _ _ Hreq) in Hnew as [-> _].
    cbn [buffer_ capacity_]. unfold construct_at, in_range.
    rewrite bool_decide_eq_true_2 by (rewrite length_replicate; lia).
    destruct (ctor w1.1) as [[e|x] u]; [done|].
    set (nb := <[size_ v := Some x]> (replicate nc None)).
    pose proof (ReallocateData_defined v nb nc
                  (log (Constructed x) u w1) Hwf
                  ltac:(unfold nb; rewrite length_insert, length_replicate;
                        lia)) as Hd.
    pose proof (ReallocateData_shape v (mkRawMemory nb nc)
                  (log (Constructed x) u w1)) as Hshape.
    destruct (ReallocateData _ _ _ _) as [[] [[v1 nd] w3]|e [[v1 nd] w3]|];
      [|done..].
    destruct Hshape as [Hs Hc]. cbn [capacity_] in Hc.
    cbn [with_size size_ data_ capacity_]. rewrite Hs, Hc.
    rewrite wrap_small by lia. rewrite wrap_sub_small by lia.
    by rewrite bool_decide_eq_true_2 by lia.
Qed.

Lemma Emplace_defined pos ctor v w :
  well_formed SIZE_MAX ops v → pos ≤ size_ v →
  defined (Emplace SIZE_MAX ops pos ctor v w).
Proof.
  intros Hwf Hpos. pose proof Hwf as (Hn & Hlen & Hmax & _).
  apply fits_bound in Hmax as [Hmax Htwo].
  pose proof (well_formed_request v Hwf) as Hreq.
  pose proof (well_formed_live_on v Hwf) as Hl.
  unfold Emplace. case_bool_decide as Hend; [by apply EmplaceBack_defined|].
  unfold Capacity, RawMemory_Capacity.
  destruct (decide (size_ v < capacity_ (data_ v))) as [Hcap|Hfull].
  - rewrite (bool_decide_eq_true_2 (size_ v < _)) by done.
    destruct (ctor w.1) as [[e|copy] u]; [done|].
    destruct (size_ v) as [|last] eqn:Hsize; [lia|].
    set (w1 := log (Constructed copy) u w). clearbody w1.
    pose proof (move_construct_slot_inv (buffer_ (data_ v)) (S last) last w1)
      as Hinv.
    assert (defined (move_construct_slot ops (buffer_ (data_ v)) (S last)
                       last w1)) as Hd.
    { unfold move_construct_slot, in_range.
      rewrite bool_decide_eq_true_2 by lia.
      destruct (Hl last) as [x ->]; [lia..|].
      by destruct (move_ctor ops x w1.1) as [[[e|y] x'] u']. }
    destruct (move_construct_slot _ _ _ _ _) as [[] [b1 w2]|e [b1 w2]|];
      [|done..].
    destruct Hinv as (Hcov1 & Hnew & _).
    rewrite bool_decide_eq_true_2 by lia.
    assert (live_on b1 pos (S (S last))) as Hl1.
    { intros i Hlo Hhi. destruct (decide (i = S last)) as [->|Hne]; [done|].
      apply (covers_live _ _ _ Hcov1), Hl; lia. }
    pose proof (move_backward_defined (last - pos) b1 last (S last) w2
                  ltac:(lia) ltac:(lia)
                  ltac:(intros i ? ?; apply Hl1; lia)) as Hd2.
    pose proof (move_backward_inv (last - pos) b1 last (S last) w2) as Hcov2.
    destruct (move_backward _ _ _ _ _ _) as [[] [b2 w3]|e [b2 w3]|];
      [|done..].
    rewrite bool_decide_eq_true_2 by lia.
    unfold move_assign_from_local.
    destruct (covers_live _ _ pos Hcov2 (Hl1 pos ltac:(lia) ltac:(lia)))
      as [d ->].
    by destruct (move_assign ops d copy w3.1) as [[[[e|] d'] c'] u'].
  - rewrite (bool_decide_eq_false_2 (size_ v < _)) by done.
    rewrite new_capacity_max by done.
    set (nc := 1 `max` (2 * capacity_ (data_ v))) in *.
    destruct (RawMemory_sized SIZE_MAX ops nc w) as [new_data w1|e w1|] eqn:Hnew;
      [|done|].
    2: { by destruct (RawMemory_sized_cases nc w Hreq)
           as [[u Hcase]|(u & Hcase & _)]; rewrite Hcase in Hnew. }
    apply (RawMemory_sized_inv _ _ _ _ Hreq) in Hnew as [-> _].
    cbn [buffer_ capacity_].
    destruct (construct_at (replicate nc None) pos ctor w1)
      as [[] [nb w2]|e [nb w2]|] eqn:Hc; [|done|].
    2: { unfold construct_at, in_range in Hc.
         rewrite bool_decide_eq_true_2 in Hc
           by (rewrite length_replicate; lia).
         by destruct (ctor w1.1) as [[e|x] u]. }
    apply construct_at_inv in Hc as (Hin & x & -> & Hx).
    rewrite length_replicate in Hin.
    set (nb := <[pos := Some x]> (replicate nc None)) in *.
    assert (length nb = nc) as Hnb_len
      by (unfold nb; by rewrite length_insert, length_replicate).
    pose proof (ReallocatePartial_defined (buffer_ (data_ v)) 0 pos nb 0 w2
                  ltac:(intros i ? ?; apply Hl; lia) ltac:(lia)) as Hd1.
    pose proof (ReallocatePartial_inv (buffer_ (data_ v)) 0 pos nb 0 w2)
      as Hi1.
    pose proof (ReallocatePartial_throws_same_outside (buffer_ (data_ v)) 0
                  pos nb 0 w2) as Ht1.
    destruct (ReallocatePartial ops (buffer_ (data_ v)) 0 pos nb 0 w2)
      as [[] [[b1 nb1] w3]|e [[b1 nb1] w3]|]; [| |done].
    2: { rewrite bool_decide_eq_true_2 by lia. unfold destroy_at.
         rewrite (same_outside_live _ _ _ _ pos Ht1) by lia.
         by rewrite Hx. }
    destruct Hi1 as (Hcov1 & _ & Hsame1 & Hlive1).
    rewrite wrap_sub_small by lia.
    pose proof (ReallocatePartial_defined b1 pos (size_ v - pos) nb1
                  (pos + 1) w3
                  ltac:(intros i ? ?; apply (covers_live _ _ _ Hcov1), Hl;
                        lia)
                  ltac:(destruct Hsame1 as [-> _]; lia)) as Hd2.
    pose proof (ReallocatePartial_inv b1 pos (size_ v - pos) nb1 (pos + 1)
                  w3) as Hi2.
    pose proof (ReallocatePartial_throws_same_outside b1 pos (size_ v - pos)
                  nb1 (pos + 1) w3) as Ht2.
    destruct (ReallocatePartial ops b1 pos (size_ v - pos) nb1 (pos + 1) w3)
      as [[] [[b2 nb2] w4]|e [[b2 nb2] w4]|]; [| |done].
    + destruct Hi2 as (Hcov2 & _).
      pose proof (destroy_n_defined (size_ v) b2 0 w4
                    ltac:(intros i ? ?;
                          apply (covers_live _ _ _ Hcov2),
                            (covers_live _ _ _ Hcov1), Hl; lia)) as Hd3.
      by destruct (destroy_n _ _ _ _ _) as [[] [b3 w5]|e3 [b3 w5]|].
    + rewrite wrap_small by lia.
      pose proof (destroy_n_defined (pos + 1) nb2 0 w4) as Hd3.
      destruct (destroy_n _ _ _ _ _) as [[] [b3 w5]|e3 [b3 w5]|]; [done..|].
      apply Hd3. intros i _ Hi.
      rewrite (same_outside_live _ _ _ _ i Ht2) by lia.
      destruct (decide (i = pos)) as [->|Hne].
      * rewrite (same_outside_live _ _ _ _ pos Hsame1) by lia.
        by rewrite Hx.
      * apply Hlive1; lia.
Qed.

Lemma Reserve_defined n v w :
  n * sizeof ops ≤ SIZE_MAX →
  well_formed SIZE_MAX ops v → defined (Reserve SIZE_MAX ops n v w).
Proof.
  intros Hreq Hwf. pose proof Hwf as (Hn & Hlen & Hmax & _).
  unfold Reserve, Capacity, RawMemory_Capacity. case_bool_decide; [done|].
  destruct (RawMemory_sized SIZE_MAX ops n w) as [new_data w1|e w1|] eqn:Hnew;
    [|done|].
  2: { by destruct (RawMemory_sized_cases n w Hreq)
         as [[u Hcase]|(u & Hcase & _)]; rewrite Hcase in Hnew. }
  apply (RawMemory_sized_inv _ _ _ _ Hreq) in Hnew as [-> _].
  pose proof (ReallocateData_defined v (replicate n None) n w1 Hwf
                ltac:(rewrite length_replicate; lia)) as Hd.
  by destruct (ReallocateData _ _ _ _) as [[] [[v1 nd] w3]|e [[v1 nd] w3]|].
Qed.

Lemma Resize_defined n v w :
  n * sizeof ops ≤ SIZE_MAX →
  well_formed SIZE_MAX ops v → defined (Resize SIZE_MAX ops n v w).
Proof.
  intros Hreq Hwf. pose proof (well_formed_live_on v Hwf) as Hl.
  unfold Resize. case_bool_decide as Hsame; [done|].
  case_bool_decide as Hless.
  - pose proof (destroy_n_defined (size_ v - n) (buffer_ (data_ v)) n w
                  ltac:(intros i ? ?; apply Hl; lia)) as Hd.
    by destruct (destroy_n _ _ _ _ _) as [[] [b w1]|e [b w1]|].
  - pose proof (Reserve_defined n v w Hreq Hwf) as Hd.
    pose proof (Reserve_inv Hnb n v w Hreq Hwf) as Hinv.
    destruct (Reserve SIZE_MAX ops n v w) as [[] [v1 w1]|e [v1 w1]|]; [|done..].
    destruct Hinv as ((Hn1 & Hlen1 & _ & Hlive1) & Hs1 & Hc1).
    unfold uninitialized_value_construct_n.
    pose proof (uninitialized_value_construct_loop_defined (n - size_ v1)
                  (buffer_ (data_ v1)) (size_ v1) (size_ v1) w1
                  ltac:(lia) ltac:(lia) ltac:(intros; lia)) as Hd2.
    by destruct (uninitialized_value_construct_loop _ _ _ _ _ _)
      as [[] [b w2]|e [b w2]|].
Qed.

Lemma assign_from_defined this rhs w :
  well_formed SIZE_MAX ops this → well_formed SIZE_MAX ops rhs →
  defined (assign_from SIZE_MAX ops this rhs w).
Proof.
  intros Hwf Hrhs. pose proof Hwf as (Hn & Hlen & _).
  pose proof (well_formed_live_on this Hwf) as Hl.
  pose proof (well_formed_live_on rhs Hrhs) as Hr.
  assert (size_ rhs * sizeof ops ≤ SIZE_MAX) as Hreq.
  { destruct Hrhs as (Hnr & _ & Hmaxr & _).
    apply (fits_request (capacity_ (data_ rhs))); [done|lia]. }
  unfold assign_from. case_bool_decide as Hcap.
  - unfold Vector_copy.
    destruct (RawMemory_sized SIZE_MAX ops (size_ rhs) w) as [new_data w1|e w1|]
      eqn:Hnew; [|done|].
    2: { by destruct (RawMemory_sized_cases (size_ rhs) w Hreq)
           as [[u Hcase]|(u & Hcase & _)]; rewrite Hcase in Hnew. }
    apply (RawMemory_sized_inv _ _ _ _ Hreq) in Hnew as [-> _].
    cbn [buffer_ capacity_].
    unfold uninitialized_copy_n.
    pose proof (uninitialized_copy_loop_defined (size_ rhs)
                  (buffer_ (data_ rhs)) 0 (replicate (size_ rhs) None) 0 0 w1
                  ltac:(lia) Hr ltac:(rewrite length_replicate; lia)
                  ltac:(intros; lia)) as Hd.
    destruct (uninitialized_copy_loop _ _ _ _ _ _ _ _)
      as [r [b w2]|e [b w2]|]; [|done..].
    destruct this as [[tb tc] tn]. cbn [Swap RawMemory_Swap data_ size_
      buffer_ capacity_] in *. unfold Vector_destroy.
    cbn [data_ size_ buffer_].
    pose proof (destroy_n_defined tn tb 0 w2 Hl) as Hd2.
    by destruct (destroy_n _ _ _ _ _) as [[] [b' w3]|e [b' w3]|].
  - case_bool_decide as Hless.
    + pose proof (copy_n_defined (size_ rhs) (buffer_ (data_ rhs)) 0
                    (buffer_ (data_ this)) 0 w Hr
                    ltac:(intros i ? ?; apply Hl; lia)) as Hd.
      pose proof (copy_n_inv (size_ rhs) (buffer_ (data_ rhs)) 0
                    (buffer_ (data_ this)) 0 w) as Hinv.
      destruct (copy_n _ _ _ _ _ _ _) as [it [b w1]|e [b w1]|]; [|done..].
      destruct Hinv as [-> Hcov].
      pose proof (destroy_n_defined (size_ this - size_ rhs) b
                    (0 + size_ rhs) w1
                    ltac:(intros i ? ?; apply (covers_live _ _ _ Hcov), Hl;
                          lia)) as Hd2.
      by destruct (destroy_n _ _ _ _ _) as [[] [b' w2]|e [b' w2]|].
    + pose proof (copy_n_defined (size_ this) (buffer_ (data_ rhs)) 0
                    (buffer_ (data_ this)) 0 w
                    ltac:(intros i ? ?; apply Hr; lia) Hl) as Hd.
      pose proof (copy_n_inv (size_ this) (buffer_ (data_ rhs)) 0
                    (buffer_ (data_ this)) 0 w) as Hinv.
      destruct (copy_n _ _ _ _ _ _ _) as [it [b w1]|e [b w1]|]; [|done..].
      destruct Hinv as [-> Hcov]. unfold uninitialized_copy_n.
      pose proof (uninitialized_copy_loop_defined (size_ rhs - size_ this)
                    (buffer_ (data_ rhs)) (0 + size_ this) b
                    (0 + size_ this) (0 + size_ this) w1 ltac:(lia)
                    ltac:(intros i ? ?; apply Hr; lia)
                    ltac:(rewrite (covers_length _ _ Hcov); lia)
                    ltac:(intros; lia)) as Hd2.
      by destruct (uninitialized_copy_loop _ _ _ _ _ _ _ _)
        as [r [b' w2]|e [b' w2]|].
Qed.

Lemma discard_defined {R S} (r : result R S) : defined r → defined (discard r).
Proof. by destruct r. Qed.

(** X27: with an allocator that never grants more than half of
    [SIZE_MAX] bytes, no member function called within its precondition
    on a well-formed vector misbehaves, whatever the element type does
    and whichever of its operations throw: it reads, assigns to and
    destroys only slots that hold a live object, constructs only in slots
    of the storage, and trips no assertion of [RawMemory].  For
    [Reserve(n)] and [Resize(n)] the precondition is that a [size_t]
    counts the bytes of [n] elements. *)
Theorem calls_within_precondition_are_defined op v w :
  well_formed SIZE_MAX ops v →
  call_within SIZE_MAX ops v op →
  op v w ≠ Undefined.
Proof.
  intros Hwf Hop.
  assert (defined (op v w)) as Hd; [|by destruct (op v w)].
  destruct Hop.
  - by apply PopBack_defined.
  - by apply discard_defined, EmplaceBack_defined.
  - by apply discard_defined, EmplaceBack_defined.
  - by apply discard_defined, EmplaceBack_defined.
  - by apply discard_defined, Emplace_defined.
  - by apply discard_defined, Emplace_defined.
  - by apply discard_defined, Emplace_defined.
  - by apply discard_defined, Erase_defined.
  - by apply Reserve_defined.
  - by apply Resize_defined.
  - by apply assign_from_defined.
Qed.

End defined_calls.

End proofs.

(** * The element types of the examples *)

Lemma plain_ops_regular limit : Regular (plain_ops limit) 0.
Proof. split; intros; eexists; try eexists; reflexivity. Qed.

Lemma plain_ops_bounded SIZE_MAX limit :
  2 * limit ≤ SIZE_MAX → new_bounded SIZE_MAX (plain_ops limit).
Proof.
  intros Hl n u Hg. simpl in Hg. apply bool_decide_eq_true in Hg. lia.
Qed.

Lemma plain_ops_plentiful limit m : m ≤ limit → plentiful (plain_ops limit) m.
Proof.
  intros Hm n u Hn. simpl. apply bool_decide_eq_true.
  change (sizeof (plain_ops limit)) with 1. lia.
Qed.


(** * Moving from a vector *)

Lemma Vector_move_spec {T : Type} (v : @Vector T) :
  (Vector_move v).1 = v ∧
  Size (Vector_move v).2 = 0 ∧
  buffer_ (data_ (Vector_move v).2) = [] ∧
  Capacity (Vector_move v).2 = Capacity v.
Proof. by destruct v as [[b c] n]. Qed.

(** C1: move construction from a vector holding one element, in storage
    of one slot, gives the new vector the element and the storage and
    leaves the source with size 0 and no storage, but with its capacity
    still 1. *)
Theorem moved_from_source_keeps_capacity :
  Vector_move (vector_of [7] 0)
  = (vector_of [7] 0, mkVector (mkRawMemory [] 1) 0) ∧
  Capacity (Vector_move (vector_of [7] 0)).2 = 1.
Proof. split; reflexivity. Qed.

(** X24: an append to the source of a move construction from a vector
    with storage is undefined: the source still reports the capacity, so
    the append takes the in-place branch and constructs through the null
    pointer. *)
Lemma append_to_moved_from_undefined {T W : Type} SIZE_MAX (ops : @ElemOps T W)
    ctor (v : @Vector T) w :
  0 < Capacity v →
  EmplaceBack SIZE_MAX ops ctor (Vector_move v).2 w = Undefined.
Proof.
  intros Hc. destruct v as [[b c] n]. unfold EmplaceBack, Capacity in *.
  simpl in *. by rewrite bool_decide_eq_true_2.
Qed.

(** * Witnesses *)

Lemma Insert_places_element_witness :
  ∃ v' w',
    Insert 255 (plain_ops 100) 1 9 (vector_of [1; 2; 3] 1) ((), [])
    = Normal 1 (v', w') ∧
    valid 255 (plain_ops 100) v' ∧
    Size v' = 4 ∧
    subscript v' 1 = Some 9 ∧
    (∀ i, i < 1 → subscript v' i = subscript (vector_of [1; 2; 3] 1) i) ∧
    (∀ i, 1 ≤ i →
          subscript v' (S i) = subscript (vector_of [1; 2; 3] 1) i) ∧
    elements v' = [1; 9; 2; 3].
Proof.
  apply (Insert_places_element 255 (plain_ops 100) 0 (plain_ops_regular 100)
           1 9 (Insert 255 (plain_ops 100) 1 9) (vector_of [1; 2; 3] 1)
           ((), [])).
  - apply plain_ops_bounded. lia.
  - apply valid_vector_of. vm_compute. lia.
  - vm_compute. lia.
  - intros H. vm_compute in H. lia.
  - apply insertion_Insert.
Defined.

Lemma Erase_shifts_left_witness :
  ∃ v' w',
    Erase 255 (plain_ops 100) 0 (vector_of [1; 9; 2; 3] 0) ((), [])
    = Normal 0 (v', w') ∧
    valid 255 (plain_ops 100) v' ∧
    S (Size v') = 4 ∧
    (∀ i, i < 0 → subscript v' i = subscript (vector_of [1; 9; 2; 3] 0) i) ∧
    (∀ i, 0 ≤ i →
          subscript v' i = subscript (vector_of [1; 9; 2; 3] 0) (S i)) ∧
    elements v' = [9; 2; 3].
Proof.
  apply (Erase_shifts_left 255 (plain_ops 100) 0 (plain_ops_regular 100)
           0 (vector_of [1; 9; 2; 3] 0) ((), [])).
  - apply valid_vector_of. vm_compute. lia.
  - vm_compute. lia.
Defined.


Lemma appends_follow_growth_policy_witness :
  (∃ v' w',
     push_all 255 (plain_ops 100) [1; 2; 3] Vector_default ((), [])
     = ([(1, 1); (2, 2); (3, 4)], Normal () (v', w')) ∧
     elements v' = [1; 2; 3]) ∧
  (∀ k, 0 < k → growth k = 2 ^ Nat.log2_up k) ∧
  (∀ v x w0,
     valid 255 (plain_ops 100) v → Size v = Capacity v →
     granted 255 (plain_ops 100) (1 `max` (2 * Capacity v)) w0 →
     ∃ v' w1,
       PushBack 255 (plain_ops 100) x v w0 = Normal () (v', w1) ∧
       Size v' = S (Size v) ∧
       Capacity v' = 1 `max` (2 * Capacity v)).
Proof.
  apply (appends_follow_growth_policy 255 (plain_ops 100) 0 [1; 2; 3]
           ((), [])).
  - apply plain_ops_regular.
  - apply plain_ops_bounded. lia.
  - apply plain_ops_plentiful. simpl. lia.
Defined.


Lemma Emplace_realloc_strong_guarantee_witness :
  Emplace 255 (throwing_copy_ops 100) 1 (by_copy (throwing_copy_ops 100) 5)
    (vector_of [1; 2; 3] 0) (3, [])
  = Throws (thrown 0)
      (vector_of [1; 2; 3] 0,
       (0, [Constructed 5; CopyConstructed 1; CopyConstructed 2;
            Destroyed 2; Destroyed 1; Destroyed 5])) ∧
  ∀ e v' w',
    Emplace 255 (throwing_copy_ops 100) 1 (by_copy (throwing_copy_ops 100) 5)
      (vector_of [1; 2; 3] 0) (3, [])
    = Throws e (v', w') →
    v' = vector_of [1; 2; 3] 0.
Proof.
  split; [reflexivity|].
  apply (Emplace_realloc_strong_guarantee 255 (throwing_copy_ops 100)
           1 (by_copy (throwing_copy_ops 100) 5) (vector_of [1; 2; 3] 0)
           (3, [])).
  - left. reflexivity.
  - apply valid_vector_of. vm_compute. lia.
  - reflexivity.
  - vm_compute. lia.
Defined.

Lemma copy_assignment_three_cases_witness :
  ∃ l' w',
    Vector_copy_assign 255 (plain_ops 100) 0 1
      (<[0 := vector_of [1; 2; 3] 0]> (<[1 := vector_of [4; 5] 0]> ∅))
      ((), [])
    = Normal ()
        (<[0 := l']>
           (<[0 := vector_of [1; 2; 3] 0]> (<[1 := vector_of [4; 5] 0]> ∅)),
         w') ∧
    valid 255 (plain_ops 100) l' ∧
    elements l' = [4; 5] ∧
    Capacity l' = 3 ∧
    w'.2 = [CopyAssigned 4; CopyAssigned 5; Destroyed 3].
Proof.
  destruct (copy_assignment_three_cases 255 (plain_ops 100) 0 1
              (<[0 := vector_of [1; 2; 3] 0]>
                 (<[1 := vector_of [4; 5] 0]> ∅))
              (vector_of [1; 2; 3] 0) (vector_of [4; 5] 0) ((), []))
    as [_ Hassign]; [done|done|done|].
  destruct (Hassign 0 (plain_ops_regular 100))
    as (l' & w' & Hrun & Hvalid & Helems & _ & Hcap & Htrace).
  - apply valid_vector_of. vm_compute. lia.
  - apply valid_vector_of. vm_compute. lia.
  - intros H. vm_compute in H. lia.
  - by exists l', w'.
Defined.

(** * Counterexamples *)

(** C3 as stated fails for an element type that cannot be copied and whose
    move constructor throws: the prefix is relocated by move, and when the
    second move throws, the first element of the vector has already been
    moved from. *)
Lemma Emplace_realloc_move_only_counterexample :
  valid 255 (throwing_move_only_ops 100) (vector_of [1; 2; 3] 0) ∧
  Size (vector_of [1; 2; 3] 0) = Capacity (vector_of [1; 2; 3] 0) ∧
  2 < Size (vector_of [1; 2; 3] 0) ∧
  Emplace 255 (throwing_move_only_ops 100) 2 (λ u, (inr 9, u))
    (vector_of [1; 2; 3] 0) (1, [])
  = Throws (thrown 0)
      (vector_of [0; 2; 3] 0,
       (0, [Constructed 9; MoveConstructed 1; Destroyed 1; Destroyed 9])) ∧
  ¬ (∀ e v' w',
       Emplace 255 (throwing_move_only_ops 100) 2 (λ u, (inr 9, u))
         (vector_of [1; 2; 3] 0) (1, [])
       = Throws e (v', w') →
       v' = vector_of [1; 2; 3] 0).
Proof.
  split; [apply valid_vector_of; vm_compute; lia|].
  split; [reflexivity|]. split; [vm_compute; lia|].
  split; [reflexivity|].
  intros Hclaim. by specialize (Hclaim _ _ _ eq_refl).
Qed.

(** C4 as stated fails at the third append: the capacity seen is 4, where
    the sequence of the specification has 2. *)
Lemma capacity_sequence_counterexample :
  snd <$> (push_all 255 (plain_ops 100) [1; 2; 3; 4; 5; 6; 7; 8]
             Vector_default ((), [])).1
  = [1; 2; 4; 4; 8; 8; 8; 8] ∧
  snd <$> (push_all 255 (plain_ops 100) [1; 2; 3; 4; 5; 6; 7; 8]
             Vector_default ((), [])).1
  ≠ spec_capacity_sequence.
Proof. split; [reflexivity|]. by vm_compute. Qed.


(** * A failed in-place insertion *)

Lemma throwing_move_assign_ops_bounded SIZE_MAX limit :
  2 * limit ≤ SIZE_MAX → new_bounded SIZE_MAX (throwing_move_assign_ops limit).
Proof.
  intros Hl n u Hg. simpl in Hg. apply bool_decide_eq_true in Hg. lia.
Qed.





(** * A request whose byte size wraps *)




(** With [SIZE_MAX = 255] and elements of four bytes, [Reserve(64)] asks
    for [64 * 4 = 256] bytes, which is 0 in [size_t]: the request is
    granted and the vector is left with capacity 64 over storage without
    a slot.  That vector is among the reachable ones; an append to it, and
    [Resize(64)] instead of [Reserve(64)], write past the storage. *)
Lemma Reserve_wrapped_request :
  Reserve 255 (wide_ops 100) 64 Vector_default ((), [])
  = Normal () (mkVector (mkRawMemory [] 64) 0, ((), [])) ∧
  granted 255 (wide_ops 100) 64 ((), []) ∧
  reachable 255 (wide_ops 100) (mkVector (mkRawMemory [] 64) 0) ∧
  EmplaceBack 255 (wide_ops 100) (by_copy (wide_ops 100) 5)
    (mkVector (mkRawMemory [] 64) 0) ((), [])
  = Undefined ∧
  Resize 255 (wide_ops 100) 64 Vector_default ((), []) = Undefined.
Proof.
  split; [reflexivity|]. split; [reflexivity|]. split; [|by split].
  apply (reach_Reserve 255 (wide_ops 100) 64 Vector_default ((), [])).
  - apply reach_default.
  - reflexivity.
Qed.

(** Within the bytes a [size_t] counts, the same calls do what they are
    meant to. *)
Lemma Reserve_exact_request :
  Reserve 255 (wide_ops 100) 3 Vector_default ((), [])
  = Normal () (vector_of [] 3, ((), [])) ∧
  Resize 255 (wide_ops 100) 3 Vector_default ((), [])
  = Normal ()
      (vector_of [0; 0; 0] 0,
       ((), [Constructed 0; Constructed 0; Constructed 0])).
Proof. split; reflexivity. Qed.

(** * Examples of the further properties *)

Lemma well_formed_vector_of {T W : Type} SIZE_MAX (ops : @ElemOps T W)
    (xs : list T) k :
  fits SIZE_MAX ops (length xs + k) →
  well_formed SIZE_MAX ops (vector_of xs k).
Proof. intros Hb. by apply valid_well_formed, valid_vector_of. Qed.

Lemma Vector_destroy_destroys_elements_witness :
  length (elements (vector_of [1; 2; 3] 1)) = Size (vector_of [1; 2; 3] 1) ∧
  ∃ u, Vector_destroy (plain_ops 100) (vector_of [1; 2; 3] 1) ((), [])
       = Normal () (u, [] ++ (Destroyed <$> elements (vector_of [1; 2; 3] 1))).
Proof.
  apply (Vector_destroy_destroys_elements 255 (plain_ops 100)
           (vector_of [1; 2; 3] 1) ((), [])).
  apply well_formed_vector_of. vm_compute. lia.
Defined.

Lemma PopBack_removes_last_witness :
  ∃ v' u x,
    PopBack 255 (plain_ops 100) (vector_of [1; 2; 3] 1) ((), [])
    = Normal () (v', (u, [] ++ [Destroyed x])) ∧
    elements (vector_of [1; 2; 3] 1) = elements v' ++ [x] ∧
    S (Size v') = Size (vector_of [1; 2; 3] 1) ∧
    Capacity v' = Capacity (vector_of [1; 2; 3] 1) ∧
    well_formed 255 (plain_ops 100) v'.
Proof.
  apply (PopBack_removes_last 255 (plain_ops 100) (vector_of [1; 2; 3] 1)
           ((), [])).
  - apply well_formed_vector_of. vm_compute. lia.
  - vm_compute. lia.
Defined.

Lemma Erase_last_is_PopBack_witness :
  discard (Erase 255 (plain_ops 100) (Size (vector_of [1; 2; 3] 1) - 1)
             (vector_of [1; 2; 3] 1) ((), []))
  = PopBack 255 (plain_ops 100) (vector_of [1; 2; 3] 1) ((), []).
Proof.
  apply (Erase_last_is_PopBack 255 (plain_ops 100) (vector_of [1; 2; 3] 1)
           ((), [])).
  vm_compute. lia.
Defined.

Lemma throwing_call_keeps_size_witness :
  Size (vector_of [0; 2; 3] 0) = Size (vector_of [1; 2; 3] 0).
Proof.
  apply (throwing_call_keeps_size 255 (throwing_move_only_ops 100)
           (λ v w, discard (Emplace 255 (throwing_move_only_ops 100) 2
                              (λ u, (inr 9, u)) v w))
           (vector_of [1; 2; 3] 0) (1, []) (thrown 0) (vector_of [0; 2; 3] 0)
           (0, [Constructed 9; MoveConstructed 1; Destroyed 1; Destroyed 9])).
  - apply call_Emplace.
  - reflexivity.
Defined.

Lemma capacity_never_shrinks_witness :
  Capacity (vector_of [1; 2] 0) ≤ Capacity (vector_of [1; 2; 4] 1).
Proof.
  apply (capacity_never_shrinks 255 (plain_ops 100)
           (PushBack 255 (plain_ops 100) 4) (vector_of [1; 2] 0) ((), [])
           (vector_of [1; 2; 4] 1)).
  - apply well_formed_vector_of. vm_compute. lia.
  - apply call_PushBack.
  - reflexivity.
Defined.

Lemma refused_allocation_leaves_vector_witness :
  (∃ u, Reserve 255 (plain_ops 3) 4 (vector_of [1; 2] 0) ((), [])
        = Throws bad_alloc (vector_of [1; 2] 0, (u, [])) ∧
        Resize 255 (plain_ops 3) 4 (vector_of [1; 2] 0) ((), [])
        = Throws bad_alloc (vector_of [1; 2] 0, (u, []))) ∧
  (∃ u, EmplaceBack 255 (plain_ops 3) (by_copy (plain_ops 3) 5)
          (vector_of [1; 2] 0) ((), [])
        = Throws bad_alloc (vector_of [1; 2] 0, (u, [])) ∧
        ∀ pos, Emplace 255 (plain_ops 3) pos (by_copy (plain_ops 3) 5)
                 (vector_of [1; 2] 0) ((), [])
               = Throws bad_alloc (vector_of [1; 2] 0, (u, []))).
Proof.
  destruct (refused_allocation_leaves_vector 255 (plain_ops 3)
              (vector_of [1; 2] 0) ((), [])) as [Hreserve Happend].
  { apply well_formed_vector_of. vm_compute. lia. }
  split.
  - apply (Hreserve 4); [vm_compute; lia|]. intros Hg. vm_compute in Hg.
    discriminate.
  - apply Happend; [reflexivity|]. intros Hg. vm_compute in Hg.
    discriminate.
Defined.

Lemma failed_construction_leaves_vector_witness :
  (∃ e u, EmplaceBack 255 (plain_ops 100) (λ u, (inl (thrown 7), u))
            (vector_of [1; 2] 1) ((), [])
          = Throws e (vector_of [1; 2] 1, (u, []))) ∧
  (∃ e u, Emplace 255 (plain_ops 100) 1 (λ u, (inl (thrown 7), u))
            (vector_of [1; 2] 1) ((), [])
          = Throws e (vector_of [1; 2] 1, (u, []))).
Proof.
  destruct (failed_construction_leaves_vector 255 (plain_ops 100)
              (λ u, (inl (thrown 7), u)) (vector_of [1; 2] 1) ((), []))
    as [Hback Hat].
  - apply well_formed_vector_of. vm_compute. lia.
  - intros u. exists (thrown 7), u. reflexivity.
  - split; [exact Hback|]. apply (Hat 1). vm_compute. lia.
Defined.

Lemma Vector_sized_default_values_witness :
  ∃ v' u,
    Vector_sized 255 (plain_ops 100) 3 ((), [])
    = Normal v' (u, [] ++ replicate 3 (Constructed 0)) ∧
    elements v' = replicate 3 0 ∧
    Size v' = 3 ∧
    Capacity v' = 3 ∧
    (3 = 0 → v' = Vector_default).
Proof.
  apply (Vector_sized_default_values 255 (plain_ops 100) 0
           (plain_ops_regular 100) 3 ((), [])).
  - vm_compute. lia.
  - intros _. reflexivity.
Defined.

Lemma Vector_copy_same_elements_witness :
  ∃ v' u,
    Vector_copy 255 (plain_ops 100) (vector_of [1; 2; 3] 2) ((), [])
    = Normal v'
        (u, [] ++ (CopyConstructed <$> elements (vector_of [1; 2; 3] 2))) ∧
    valid 255 (plain_ops 100) v' ∧
    elements v' = elements (vector_of [1; 2; 3] 2) ∧
    Size v' = Size (vector_of [1; 2; 3] 2) ∧
    Capacity v' = Size (vector_of [1; 2; 3] 2).
Proof.
  apply (Vector_copy_same_elements 255 (plain_ops 100) 0
           (plain_ops_regular 100) (vector_of [1; 2; 3] 2) ((), [])).
  - apply valid_vector_of. vm_compute. lia.
  - intros _. reflexivity.
Defined.

Lemma Reserve_keeps_elements_witness :
  ∃ v' w',
    Reserve 255 (plain_ops 100) 8 (vector_of [1; 2; 3] 1) ((), [])
    = Normal () (v', w') ∧
    valid 255 (plain_ops 100) v' ∧
    elements v' = elements (vector_of [1; 2; 3] 1) ∧
    Size v' = Size (vector_of [1; 2; 3] 1) ∧
    Capacity v' = Capacity (vector_of [1; 2; 3] 1) `max` 8 ∧
    (8 ≤ Capacity (vector_of [1; 2; 3] 1) →
     v' = vector_of [1; 2; 3] 1 ∧ w' = ((), [])).
Proof.
  apply (Reserve_keeps_elements 255 (plain_ops 100) 0
           (plain_ops_regular 100) 8 (vector_of [1; 2; 3] 1) ((), [])).
  - apply plain_ops_bounded. lia.
  - apply valid_vector_of. vm_compute. lia.
  - intros _. split; [vm_compute; lia|reflexivity].
Defined.

Lemma PushBack_PopBack_round_trip_witness :
  ∃ v1 w1 v2 w2,
    PushBack 255 (plain_ops 100) 4 (vector_of [1; 2; 3] 0) ((), [])
    = Normal () (v1, w1) ∧
    PopBack 255 (plain_ops 100) v1 w1 = Normal () (v2, w2) ∧
    elements v2 = elements (vector_of [1; 2; 3] 0) ∧
    Size v2 = Size (vector_of [1; 2; 3] 0) ∧
    Capacity (vector_of [1; 2; 3] 0) ≤ Capacity v2.
Proof.
  apply (PushBack_PopBack_round_trip 255 (plain_ops 100) 0
           (plain_ops_regular 100) 4 (vector_of [1; 2; 3] 0) ((), [])).
  - apply plain_ops_bounded. lia.
  - apply valid_vector_of. vm_compute. lia.
  - intros _. reflexivity.
Defined.

Lemma Insert_Erase_round_trip_witness :
  ∃ v1 w1 v2 w2,
    Insert 255 (plain_ops 100) 1 9 (vector_of [1; 2; 3] 0) ((), [])
    = Normal 1 (v1, w1) ∧
    Erase 255 (plain_ops 100) 1 v1 w1 = Normal 1 (v2, w2) ∧
    elements v2 = elements (vector_of [1; 2; 3] 0) ∧
    Size v2 = Size (vector_of [1; 2; 3] 0).
Proof.
  apply (Insert_Erase_round_trip 255 (plain_ops 100) 0
           (plain_ops_regular 100) 1 9 (vector_of [1; 2; 3] 0) ((), [])).
  - apply plain_ops_bounded. lia.
  - apply valid_vector_of. vm_compute. lia.
  - vm_compute. lia.
  - intros _. reflexivity.
Defined.

Lemma append_relocates_only_when_full_witness :
  relocations
    [Constructed 3; MoveConstructed 1; MoveConstructed 2; Destroyed 0;
     Destroyed 0]
  = relocations (T := nat) [] +
    if bool_decide (Size (vector_of [1; 2] 0) < Capacity (vector_of [1; 2] 0))
    then 0 else Size (vector_of [1; 2] 0).
Proof.
  apply (append_relocates_only_when_full 255 (plain_ops 100)
           (by_copy (plain_ops 100) 3) (vector_of [1; 2] 0) ((), []) 2
           (vector_of [1; 2; 3] 1)
           ((), [Constructed 3; MoveConstructed 1; MoveConstructed 2;
                 Destroyed 0; Destroyed 0])).
  reflexivity.
Defined.

Lemma appends_relocate_linearly_witness :
  ∃ v' w',
    (push_all 255 (plain_ops 100) [1; 2; 3; 4; 5] Vector_default ((), [])).2
    = Normal () (v', w') ∧
    relocations w'.2 = relocations (T := nat) [] + (growth 5 - 1) ∧
    relocations w'.2 ≤ relocations (T := nat) [] + 2 * 5.
Proof.
  apply (appends_relocate_linearly 255 (plain_ops 100) 0
           (plain_ops_regular 100) [1; 2; 3; 4; 5] ((), [])).
  - apply plain_ops_bounded. lia.
  - apply plain_ops_plentiful. vm_compute. lia.
Defined.

Lemma Vector_sized_builds_all_or_nothing_witness :
  Vector_sized 255 (plain_ops 100) 3 ((), [])
  = Normal (vector_of [0; 0; 0] 0)
      ((), [Constructed 0; Constructed 0; Constructed 0]) ∧
  match Vector_sized 255 (plain_ops 100) 3 ((), []) with
  | Normal v' w' =>
      ∃ ys, length ys = 3 ∧ elements v' = ys ∧
        Size v' = 3 ∧ Capacity v' = 3 ∧
        w'.2 = [] ++ (Constructed <$> ys)
  | Throws e w' =>
      ∃ ys, length ys < 3 ∧
        w'.2 = [] ++ (Constructed <$> ys) ++ (Destroyed <$> ys)
  | Undefined => False
  end.
Proof.
  split; [reflexivity|].
  apply (Vector_sized_builds_all_or_nothing 255 (plain_ops 100) 3 ((), [])).
  vm_compute. lia.
Defined.

Lemma Vector_copy_builds_all_or_nothing_witness :
  Vector_copy 255 (throwing_copy_ops 100) (vector_of [1; 2; 3] 0) (2, [])
  = Throws (thrown 0)
      (0, [CopyConstructed 1; CopyConstructed 2; Destroyed 1; Destroyed 2]) ∧
  match Vector_copy 255 (throwing_copy_ops 100) (vector_of [1; 2; 3] 0) (2, [])
  with
  | Normal v' w' =>
      ∃ ys, length ys = Size (vector_of [1; 2; 3] 0) ∧ elements v' = ys ∧
        Size v' = Size (vector_of [1; 2; 3] 0) ∧
        Capacity v' = Size (vector_of [1; 2; 3] 0) ∧
        w'.2 = [] ++ (CopyConstructed <$> ys)
  | Throws e w' =>
      ∃ ys, length ys < Size (vector_of [1; 2; 3] 0) ∧
        w'.2 = [] ++ (CopyConstructed <$> ys) ++ (Destroyed <$> ys)
  | Undefined => False
  end.
Proof.
  split; [reflexivity|].
  apply (Vector_copy_builds_all_or_nothing 255 (throwing_copy_ops 100)
           (vector_of [1; 2; 3] 0) (2, [])).
  apply valid_vector_of. vm_compute. lia.
Defined.

Lemma Reserve_strong_guarantee_witness :
  Reserve 255 (throwing_copy_ops 100) 6 (vector_of [1; 2; 3] 0) (2, [])
  = Throws (thrown 0)
      (vector_of [1; 2; 3] 0,
       (0, [CopyConstructed 1; CopyConstructed 2; Destroyed 1;
            Destroyed 2])) ∧
  match Reserve 255 (throwing_copy_ops 100) 6 (vector_of [1; 2; 3] 0) (2, [])
  with
  | Normal _ _ => True
  | Throws e (v', w') =>
      v' = vector_of [1; 2; 3] 0 ∧
      ∃ ys, length ys ≤ Size (vector_of [1; 2; 3] 0) ∧
        w'.2 = [] ++ (CopyConstructed <$> ys) ++ (Destroyed <$> ys)
  | Undefined => False
  end.
Proof.
  split; [reflexivity|].
  apply (Reserve_strong_guarantee 255 (throwing_copy_ops 100) 6
           (vector_of [1; 2; 3] 0) (2, [])).
  - reflexivity.
  - apply valid_vector_of. vm_compute. lia.
  - vm_compute. lia.
Defined.

Lemma Erase_keeps_prefix_witness :
  Erase 255 (throwing_move_assign_ops 100) 1 (vector_of [1; 2; 3; 4] 0)
    (1, [])
  = Throws (thrown 0)
      (mkVector (mkRawMemory [Some 1; Some 3; Some 3; Some 4] 4) 4,
       (0, [MoveAssigned 3])) ∧
  subscript (mkVector (mkRawMemory [Some 1; Some 3; Some 3; Some 4] 4) 4) 0
  = subscript (vector_of [1; 2; 3; 4] 0) 0.
Proof.
  split; [reflexivity|].
  apply (Erase_keeps_prefix 255 (throwing_move_assign_ops 100) 1
           (vector_of [1; 2; 3; 4] 0) (1, [])
           (mkVector (mkRawMemory [Some 1; Some 3; Some 3; Some 4] 4) 4)).
  - apply well_formed_vector_of. vm_compute. lia.
  - vm_compute. lia.
  - reflexivity.
  - lia.
Defined.

Lemma Emplace_in_place_keeps_prefix_witness :
  Emplace 255 (throwing_move_assign_ops 100) 1
    (by_copy (throwing_move_assign_ops 100) 9) (vector_of [1; 2; 3] 1)
    (0, [])
  = Throws (thrown 0)
      (mkVector (mkRawMemory [Some 1; Some 2; Some 3; Some 3] 4) 3,
       (0, [Constructed 9; MoveConstructed 3; Destroyed 9])) ∧
  subscript (mkVector (mkRawMemory [Some 1; Some 2; Some 3; Some 3] 4) 3) 0
  = subscript (vector_of [1; 2; 3] 1) 0.
Proof.
  split; [reflexivity|].
  apply (Emplace_in_place_keeps_prefix 255 (throwing_move_assign_ops 100) 1
           (by_copy (throwing_move_assign_ops 100) 9) (vector_of [1; 2; 3] 1)
           (0, [])
           (mkVector (mkRawMemory [Some 1; Some 2; Some 3; Some 3] 4) 3)).
  - apply well_formed_vector_of. vm_compute. lia.
  - vm_compute. lia.
  - vm_compute. lia.
  - reflexivity.
  - lia.
Defined.

Lemma append_in_place_keeps_storage_witness :
  ∃ x,
    buffer_ (data_ (vector_of [1; 2; 3] 0))
    = <[Size (vector_of [1; 2] 1) := Some x]>
        (buffer_ (data_ (vector_of [1; 2] 1))) ∧
    Capacity (vector_of [1; 2; 3] 0) = Capacity (vector_of [1; 2] 1) ∧
    Size (vector_of [1; 2; 3] 0) = S (Size (vector_of [1; 2] 1)) ∧
    2 = Size (vector_of [1; 2] 1) ∧
    subscript (vector_of [1; 2; 3] 0) 2 = Some x ∧
    [Constructed 3] = [] ++ [Constructed x].
Proof.
  apply (append_in_place_keeps_storage 255 (plain_ops 100)
           (by_copy (plain_ops 100) 3) (vector_of [1; 2] 1) ((), []) 2
           (vector_of [1; 2; 3] 0) ((), [Constructed 3])).
  - apply well_formed_vector_of. vm_compute. lia.
  - vm_compute. lia.
  - reflexivity.
Defined.

Lemma subscript_reads_elements_witness :
  subscript (vector_of [1; 2; 3] 1) 1 = elements (vector_of [1; 2; 3] 1) !! 1 ∧
  (is_Some (subscript (vector_of [1; 2; 3] 1) 1) ↔
   1 < Size (vector_of [1; 2; 3] 1)).
Proof.
  apply (subscript_reads_elements 255 (plain_ops 100)
           (vector_of [1; 2; 3] 1) 1).
  apply well_formed_vector_of. vm_compute. lia.
Defined.

Lemma append_to_moved_from_undefined_witness :
  EmplaceBack 255 (plain_ops 100) (by_copy (plain_ops 100) 5)
    (Vector_move (vector_of [7] 0)).2 ((), [])
  = Undefined.
Proof.
  apply (append_to_moved_from_undefined 255 (plain_ops 100)
           (by_copy (plain_ops 100) 5) (vector_of [7] 0) ((), [])).
  vm_compute. lia.
Defined.

Lemma Erase_moves_tail_once_witness :
  ∃ v' u l,
    Erase 255 (plain_ops 100) 1 (vector_of [1; 2; 3; 4] 0) ((), [])
    = Normal 1
        (v', (u, [] ++
                 (MoveAssigned <$> drop 2 (elements (vector_of [1; 2; 3; 4] 0)))
                 ++ [Destroyed l])) ∧
    elements v' = delete 1 (elements (vector_of [1; 2; 3; 4] 0)) ∧
    Capacity v' = Capacity (vector_of [1; 2; 3; 4] 0).
Proof.
  apply (Erase_moves_tail_once 255 (plain_ops 100) 0 (plain_ops_regular 100)
           1 (vector_of [1; 2; 3; 4] 0) ((), [])).
  - apply valid_vector_of. vm_compute. lia.
  - vm_compute. lia.
Defined.

Lemma calls_within_precondition_are_defined_witness :
  Emplace 255 (throwing_move_assign_ops 100) 1
    (by_copy (throwing_move_assign_ops 100) 9) (vector_of [1; 2; 3] 1)
    (0, [])
  = Throws (thrown 0)
      (mkVector (mkRawMemory [Some 1; Some 2; Some 3; Some 3] 4) 3,
       (0, [Constructed 9; MoveConstructed 3; Destroyed 9])) ∧
  discard (Emplace 255 (throwing_move_assign_ops 100) 1
             (by_copy (throwing_move_assign_ops 100) 9)
             (vector_of [1; 2; 3] 1) (0, []))
  ≠ Undefined.
Proof.
  split; [reflexivity|].
  apply (calls_within_precondition_are_defined 255
           (throwing_move_assign_ops 100)
           (throwing_move_assign_ops_bounded 255 100 ltac:(lia))
           (λ v w, discard (Emplace 255 (throwing_move_assign_ops 100) 1
                              (by_copy (throwing_move_assign_ops 100) 9)
                              v w))
           (vector_of [1; 2; 3] 1) (0, [])).
  - apply well_formed_vector_of. vm_compute. lia.
  - apply within_Emplace. vm_compute. lia.
Defined.
